(** * Pachi: the UCT search tree (uct/tree.c) and the master of the
      distributed engine (distributed/distributed.c)

    A shallow embedding of the two C sources and the properties their
    specification states about them.

    Conventions of the embedding.
    - C [int] values are embedded in [Z]. Signed overflow is undefined in C;
      every statement below is about executions in which the counters stay in
      range, so the arithmetic is that of [Z] ([/] on [int] is [Z.quot]).
    - A failed [assert], a division by zero and a dereference of NULL end the
      C program: the embedded function returns [None].
    - The first-child / next-sibling chains of [struct tree_node] are lists of
      children; [parent] back pointers are implicit in the nesting.
    - In tree.c the cached [float] values and the [double] arithmetic of the
      book loader are binary64 primitive floats (every binary32 value is
      one). In distributed.c the values read from the replies are only
      stored, averaged and printed; they are carried as exact rationals.
    - What a function of the C library does where libraries differ, or where
      it is the library's choice ([qsort], the conversion [%f] of [sscanf],
      the conversions of [snprintf]), and what a function of the repository
      outside the two sources does ([str2coord], [calloc2],
      [protocol_init], ...) is a parameter of the definitions that call it.
      [strdup] and [alloca] are taken to return memory. *)

From Stdlib Require Import ZArith List Bool Lia String Ascii QArith Floats.
From Stdlib Require Import Sorting.Sorted Sorting.Permutation.
From Stdlib Require Import DecimalString.
Import ListNotations.
Open Scope Z_scope.

(** A step that may end the program: [step p <- e; k] goes on with [k] when
    [e] yields a value, and yields nothing otherwise. *)
Notation "'step' p <- e ; k" :=
  (match e with Some p => k | None => None end)
  (at level 10, p pattern, e at level 100, k at level 200, only parsing).

(* ================================================================== *)
(** * Part I: definitions                                              *)
(* ================================================================== *)

Module Tree.

(** ** Coordinates, stones and the board

    move.h, stone.h and board.h are not among the sources. [pass] and
    [resign] are the two negative coordinates in front of the board points
    (distributed.c reserves the two array slots below index 0 for them). *)

Definition coord_t := Z.
Definition pass : coord_t := -1.
Definition resign : coord_t := -2.
Definition is_pass (c : coord_t) : bool := c =? pass.

Inductive stone := S_NONE | S_BLACK | S_WHITE | S_OFFBOARD.

Definition stone_other (s : stone) : stone :=
  match s with
  | S_BLACK => S_WHITE
  | S_WHITE => S_BLACK
  | other => other
  end.

Definition stone_eqb (a b : stone) : bool :=
  match a, b with
  | S_NONE, S_NONE | S_BLACK, S_BLACK | S_WHITE, S_WHITE
  | S_OFFBOARD, S_OFFBOARD => true
  | _, _ => false
  end.

(** The general symmetry type of a position; tree.c only ever tests for
    [SYM_DIAG_DOWN]. *)
Inductive symmetry_type :=
  SYM_FULL | SYM_DIAG_UP | SYM_DIAG_DOWN | SYM_HORIZ | SYM_VERT | SYM_NONE.

Definition is_diag_down (t : symmetry_type) : bool :=
  match t with SYM_DIAG_DOWN => true | _ => false end.

(** [struct board_symmetry]: the playground rectangle, [d <> 0] when only
    the triangle on one side of a diagonal is played on. *)
Record board_symmetry := mk_symmetry {
  x1 : Z; x2 : Z; y1 : Z; y2 : Z;
  d : Z;
  type : symmetry_type }.

(** What tree.c reads of a [struct board] and asks of board.c. The
    coordinate macros [coord_x], [coord_y], [coord_xy_otf] and the functions
    [board_at], [board_is_valid_move], [board_stone_radar] and
    [board_symmetry_update] live outside the two sources: they are carried by
    the board, so that every statement holds for whatever they compute. *)
Record board := mk_board {
  board_size : Z;
  board_hash : Z;
  symmetry : board_symmetry;
  board_at : coord_t -> stone;
  board_is_valid_move : stone -> coord_t -> bool;
  board_stone_radar : coord_t -> Z -> bool;
  point_xy : Z -> Z -> coord_t;
  point_x : coord_t -> Z;
  point_y : coord_t -> Z;
  board_symmetry_update : board_symmetry -> coord_t -> board_symmetry }.

Definition board_size2 (b : board) : Z := board_size b * board_size b.
Definition coord_x (c : coord_t) (b : board) : Z := point_x b c.
Definition coord_y (c : coord_t) (b : board) : Z := point_y b c.
Definition coord_xy_otf (x y : Z) (b : board) : coord_t := point_xy b x y.

(** ** Statistics and nodes *)

(** [struct move_stats] as tree.c uses it: two [int] counters (both are
    printed with [%d] in [tree_node_dump]) and the cached value. *)
Record move_stats := mk_stats {
  playouts : Z;
  wins : Z;
  value : float }.

Definition no_stats : move_stats := mk_stats 0 0 0%float.

(** [struct tree_node]. [hash], and the three pointers, come before [depth];
    the fields from [depth] on are what the opening book stores. *)
#[local] Unset Elimination Schemes.
Inductive tree_node : Type := mk_node {
  hash : Z;
  depth : Z;
  coord : coord_t;
  u : move_stats;
  prior : move_stats;
  amaf : move_stats;
  pu : move_stats;
  pamaf : move_stats;
  hints : Z;
  children : list tree_node }.
#[local] Set Elimination Schemes.

Definition set_coord (n : tree_node) (c : coord_t) : tree_node :=
  mk_node (hash n) (depth n) c (u n) (prior n) (amaf n) (pu n) (pamaf n)
          (hints n) (children n).
Definition set_u (n : tree_node) (s : move_stats) : tree_node :=
  mk_node (hash n) (depth n) (coord n) s (prior n) (amaf n) (pu n) (pamaf n)
          (hints n) (children n).
Definition set_prior (n : tree_node) (s : move_stats) : tree_node :=
  mk_node (hash n) (depth n) (coord n) (u n) s (amaf n) (pu n) (pamaf n)
          (hints n) (children n).
Definition set_amaf (n : tree_node) (s : move_stats) : tree_node :=
  mk_node (hash n) (depth n) (coord n) (u n) (prior n) s (pu n) (pamaf n)
          (hints n) (children n).
Definition set_pu (n : tree_node) (s : move_stats) : tree_node :=
  mk_node (hash n) (depth n) (coord n) (u n) (prior n) (amaf n) s (pamaf n)
          (hints n) (children n).
Definition set_pamaf (n : tree_node) (s : move_stats) : tree_node :=
  mk_node (hash n) (depth n) (coord n) (u n) (prior n) (amaf n) (pu n) s
          (hints n) (children n).
Definition set_hints (n : tree_node) (h : Z) : tree_node :=
  mk_node (hash n) (depth n) (coord n) (u n) (prior n) (amaf n) (pu n)
          (pamaf n) h (children n).
Definition set_children (n : tree_node) (l : list tree_node) : tree_node :=
  mk_node (hash n) (depth n) (coord n) (u n) (prior n) (amaf n) (pu n)
          (pamaf n) (hints n) l.

(** [struct tree]. *)
Record tree := mk_tree {
  tboard : board;
  root : tree_node;
  max_depth : Z;
  root_color : stone;
  root_symmetry : board_symmetry }.

Definition set_root (t : tree) (n : tree_node) : tree :=
  mk_tree (tboard t) n (max_depth t) (root_color t) (root_symmetry t).

(** Two nodes that differ at most in cached values: same identity, same
    counters in all five statistics, same children. *)
Definition same_counts (n n' : tree_node) : Prop :=
  hash n' = hash n /\ depth n' = depth n /\ coord n' = coord n /\
  hints n' = hints n /\ children n' = children n /\
  (playouts (u n') = playouts (u n) /\ wins (u n') = wins (u n)) /\
  (playouts (prior n') = playouts (prior n) /\ wins (prior n') = wins (prior n)) /\
  (playouts (amaf n') = playouts (amaf n) /\ wins (amaf n') = wins (amaf n)) /\
  (playouts (pu n') = playouts (pu n) /\ wins (pu n') = wins (pu n)) /\
  (playouts (pamaf n') = playouts (pamaf n) /\ wins (pamaf n') = wins (pamaf n)).

(** The helpers of uct/tree.h that tree.c calls. The header is not among
    the sources; the two update functions "recompute [the] derived value" of
    a node, in the words of the specification: they are any two functions
    that leave the identity, the counters and the children of the node
    alone. *)
Record tree_h := mk_tree_h {
  tree_update_node_value : tree_node -> bool -> tree_node;
  tree_update_node_rvalue : tree_node -> bool -> tree_node;
  tree_parity : tree -> Z -> Z;
  value_keeps_counts : forall n a, same_counts n (tree_update_node_value n a);
  rvalue_keeps_counts : forall n a, same_counts n (tree_update_node_rvalue n a) }.

(** ** tree_node_merge, tree_merge *)

(** The test that guards [tree_node_merge], there applied to [src]: the node
    gained no playout since its baseline, in neither channel. *)
Definition untouched (n : tree_node) : bool :=
  (playouts (amaf n) - playouts (pamaf n) =? 0) &&
  (playouts (u n) - playouts (pu n) =? 0).

(** The inner scan [si2 = si->sibling; while (si2 && di->coord != si2->coord)]:
    the nodes stepped over, the node found, and what follows it. *)
Fixpoint find_sibling (c : coord_t) (l : list tree_node)
  : option (list tree_node * tree_node * list tree_node) :=
  match l with
  | [] => None
  | n :: l' =>
      if c =? coord n then Some ([], n, l')
      else match find_sibling c l' with
           | Some (skipped, m, rest) => Some (n :: skipped, m, rest)
           | None => None
           end
  end.

Definition add_stats (dst src : move_stats) : move_stats :=
  mk_stats (playouts dst + playouts src) (wins dst + wins src) (value dst).

(** The loop of [tree_node_merge] over the two child lists, [dl] from [di]
    on and [sl] from [si] on, with the recursive call on matching nodes as
    [merge]. Nodes of [src] that are chained into [dest] get [dest] as
    parent, which the nesting expresses. *)
Fixpoint merge_children (merge : tree_node -> tree_node -> option tree_node)
    (dl sl : list tree_node) {struct dl} : option (list tree_node) :=
  match dl with
  | [] => Some sl
  | di :: dl' =>
      match sl with
      | [] => Some dl
      | si :: sl' =>
          if coord di =? coord si then
            (* matching nodes: recurse, and move on on both sides *)
            step di' <- merge di si;
            step rest <- merge_children merge dl' sl';
            Some (di' :: rest)
          else
            match find_sibling (coord di) sl' with
            | None =>
                (* src misses di: move on in dest *)
                step rest <- merge_children merge dl' sl;
                Some (di :: rest)
            | Some (skipped, si2, sl2) =>
                (* chain the extra [si, si2) items before di *)
                step di' <- merge di si2;
                step rest <- merge_children merge dl' sl2;
                Some ((si :: skipped) ++ di' :: rest)
            end
      end
  end.

Section Merge.
Variable H : tree_h.
Variable amaf_prior : bool.

(** The tail of [tree_node_merge], after the children are merged. *)
Definition merge_stats (dest src : tree_node) : option tree_node :=
  if negb ((playouts (prior dest) =? playouts (prior src)) &&
           (wins (prior dest) =? wins (prior src)))
  then None
  else
    let d1 := set_amaf dest (add_stats (amaf dest) (amaf src)) in
    let d2 := if playouts (amaf d1) =? 0 then d1
              else tree_update_node_rvalue H d1 amaf_prior in
    let d3 := set_u d2 (add_stats (u d2) (u src)) in
    Some (if playouts (u d3) =? 0 then d3
          else tree_update_node_value H d3 amaf_prior).

Fixpoint tree_node_merge (dest src : tree_node) {struct dest}
  : option tree_node :=
  if negb (playouts (pamaf dest) =? playouts (pamaf src)) then None
  else if negb (playouts (pu dest) =? playouts (pu src)) then None
  else if untouched src then Some dest
  else
    step kids <-
      merge_children tree_node_merge (children dest) (children src);
    merge_stats
      (set_children (set_hints dest (Z.lor (hints dest) (hints src))) kids)
      src.

Definition tree_merge (dest src : tree) : option tree :=
  let md := if max_depth src >? max_depth dest then max_depth src
            else max_depth dest in
  step r <- tree_node_merge (root dest) (root src);
  Some (mk_tree (tboard dest) r md (root_color dest) (root_symmetry dest)).

End Merge.

(** ** tree_node_normalize, tree_normalize *)

(** [a / b] on [int]: truncates toward zero, traps when [b] is zero. *)
Definition int_div (a b : Z) : option Z :=
  if b =? 0 then None else Some (Z.quot a b).

(** [#define normalize(s1, s2, t) node->s2.t = node->s1.t + (node->s2.t - node->s1.t) / factor]
    applied to [playouts] and then to [wins]. *)
Definition normalize_stats (s1 s2 : move_stats) (factor : Z)
  : option move_stats :=
  step dp <- int_div (playouts s2 - playouts s1) factor;
  step dw <- int_div (wins s2 - wins s1) factor;
  Some (mk_stats (playouts s1 + dp) (wins s1 + dw) (value s2)).

(** The body of [tree_node_normalize] below the loop over the children;
    each [memcpy] copies the whole statistics record. *)
Definition normalize_node (node : tree_node) (factor : Z)
  : option tree_node :=
  step a <- normalize_stats (pamaf node) (amaf node) factor;
  let node1 := set_pamaf (set_amaf node a) a in
  step s <- normalize_stats (pu node1) (u node1) factor;
  Some (set_pu (set_u node1 s) s).

(** A loop whose every turn may end the program. *)
Fixpoint for_each {A B : Type} (f : A -> option B) (l : list A)
  : option (list B) :=
  match l with
  | [] => Some []
  | a :: l' =>
      step v <- f a;
      step r <- for_each f l';
      Some (v :: r)
  end.

Fixpoint tree_node_normalize (node : tree_node) (factor : Z) {struct node}
  : option tree_node :=
  step l <- for_each (fun ni => tree_node_normalize ni factor)
                     (children node);
  normalize_node (set_children node l) factor.

Definition tree_normalize (t : tree) (factor : Z) : option tree :=
  step r <- tree_node_normalize (root t) factor;
  Some (set_root t r).

(** ** tree_init_node, tree_expand_node *)

(** What [tree_init_node] updates besides the node it returns: its static
    counter of node ids and [t->max_depth]. *)
Record alloc_state := mk_alloc {
  next_hash : Z;
  deepest : Z }.

Definition calloc_node : tree_node :=
  mk_node 0 0 0 no_stats no_stats no_stats no_stats no_stats 0 [].

Definition tree_init_node (st : alloc_state) (c : coord_t) (dep : Z)
  : tree_node * alloc_state :=
  (mk_node (next_hash st) dep c no_stats no_stats no_stats no_stats no_stats 0 [],
   mk_alloc (next_hash st + 1) (if dep >? deepest st then dep else deepest st)).

(** [tree_init], entered with the static node counter at [counter]: the
    tree, and the counter as the call leaves it. The tree is zeroed before
    the root is made, so [max_depth] starts at 0. *)
Definition tree_init (counter : Z) (b : board) (color : stone) : tree * Z :=
  let (n, st) := tree_init_node (mk_alloc counter 0) pass 0 in
  (mk_tree b n (deepest st) (stone_other color) (symmetry b), next_hash st).

(** [struct prior_map] as [tree_expand_node] fills it in, and what it needs
    of [struct uct]: the [amaf_prior] flag and [uct_prior], which computes
    the prior of every considered coordinate (uct/prior.c). *)
Record prior_map := mk_prior_map {
  pm_board : board;
  to_play : stone;
  parity : Z;
  consider : coord_t -> bool }.

Record uct := mk_uct {
  amaf_prior : bool;
  uct_prior : tree_node -> prior_map -> coord_t -> move_stats }.

(** [map.consider] after the [foreach_point] loop: pass, and every empty
    point of the board that passes the radar filter and is a valid move. *)
Definition consider_map (b : board) (color : stone) (radar : Z)
  : coord_t -> bool :=
  fun c =>
    if c =? pass then true
    else (0 <=? c) && (c <? board_size2 b) &&
         stone_eqb (board_at b c) S_NONE &&
         negb (negb (board_hash b =? 0) && negb (radar =? 0) &&
               negb (board_stone_radar b c radar)) &&
         board_is_valid_move b color c.

(** [lo, lo+1, ..., hi], the values a [for (k = lo; k <= hi; k++)] takes. *)
Definition zrange (lo hi : Z) : list Z :=
  map (fun k => lo + Z.of_nat k) (seq 0 (Z.to_nat (hi - lo + 1))).

(** The [(i, j)] pairs in the order the two nested loops of
    [tree_expand_node] visit them: [i] over [x1..x2] outside, [j] over
    [y1..y2] inside. *)
Definition playground (s : board_symmetry) : list (Z * Z) :=
  flat_map (fun i => map (fun j => (i, j)) (zrange (y1 s) (y2 s)))
           (zrange (x1 s) (x2 s)).

Section Expand.
Variable H : tree_h.

Definition init_prior (uc : uct) (ni : tree_node) (p : move_stats)
  : tree_node :=
  let ni1 := set_prior ni p in
  if playouts (prior ni1) =? 0 then ni1
  else if amaf_prior uc then tree_update_node_rvalue H ni1 (amaf_prior uc)
       else tree_update_node_value H ni1 (amaf_prior uc).

(** One turn of the inner loop; [None] once the assertion
    [c != node->coord] has failed. *)
Definition expand_step (t : tree) (node : tree_node) (b : board) (uc : uct)
    (map : prior_map)
    (acc : option (alloc_state * list tree_node)) (ij : Z * Z)
  : option (alloc_state * list tree_node) :=
  match acc with
  | None => None
  | Some (st, kids) =>
      let (i, j) := ij in
      if negb (d (symmetry b) =? 0) &&
         ((if is_diag_down (type (symmetry b)) then board_size b - 1 - i
           else i) >? j)
      then acc
      else
        let c := coord_xy_otf i j (tboard t) in
        if negb (consider map c) then acc
        else if c =? coord node then None
        else
          let (nj, st') := tree_init_node st c (depth node + 1) in
          Some (st', kids ++ [init_prior uc nj (uct_prior uc node map c)])
  end.

(** [tree_expand_node], entered with the static node counter at [counter]:
    the expanded node, with the counter and [t->max_depth] as the expansion
    leaves them. *)
Definition tree_expand_node (counter : Z) (t : tree) (node : tree_node)
    (b : board) (color : stone) (radar : Z) (uc : uct) (par : Z)
  : option (tree_node * alloc_state) :=
  let map := mk_prior_map b color (tree_parity H t par)
                          (consider_map b color radar) in
  let (ni, st1) :=
    tree_init_node (mk_alloc counter (max_depth t)) pass (depth node + 1) in
  let ni1 := init_prior uc ni (uct_prior uc node map pass) in
  step (st2, kids) <-
    fold_left (expand_step t node b uc map) (playground (symmetry b))
              (Some (st1, [ni1]));
  Some (set_children node kids, st2).

End Expand.

(** ** flip_coord, tree_fix_symmetry, tree_promote_at *)

Definition flip_coord (b : board) (c : coord_t)
    (flip_horiz flip_vert flip_diag : bool) : coord_t :=
  let x := coord_x c b in
  let y := coord_y c b in
  let x1 := if flip_diag then y else x in
  let y1 := if flip_diag then x else y in
  let x2 := if flip_horiz then board_size b - 1 - x1 else x1 in
  let y2 := if flip_vert then board_size b - 1 - y1 else y1 in
  coord_xy_otf x2 y2 b.

Fixpoint tree_fix_node_symmetry (b : board) (node : tree_node)
    (flip_horiz flip_vert flip_diag : bool) {struct node} : tree_node :=
  let c := if is_pass (coord node) then coord node
           else flip_coord b (coord node) flip_horiz flip_vert flip_diag in
  set_children (set_coord node c)
    (map (fun ni => tree_fix_node_symmetry b ni flip_horiz flip_vert flip_diag)
         (children node)).

(** The three flips [tree_fix_symmetry] decides on for the played point. *)
Definition symmetry_flips (s : board_symmetry) (b : board) (c : coord_t)
  : bool * bool * bool :=
  let cx := coord_x c b in
  let cy := coord_y c b in
  let flip_horiz := (cx <? x1 s) || (cx >? x2 s) in
  let flip_vert := (cy <? y1 s) || (cy >? y2 s) in
  let flip_diag :=
    if negb (d s =? 0) then
      let dir := is_diag_down (type s) in
      let x := if xorb (xorb dir flip_horiz) flip_vert
               then board_size b - 1 - cx else cx in
      if flip_vert then x <? cy else x >? cy
    else false in
  (flip_horiz, flip_vert, flip_diag).

Definition tree_fix_symmetry (t : tree) (b : board) (c : coord_t) : tree :=
  if is_pass c then t
  else
    let '(flip_horiz, flip_vert, flip_diag) :=
      symmetry_flips (root_symmetry t) b c in
    if flip_horiz || flip_vert || flip_diag
    then set_root t (tree_fix_node_symmetry b (root t)
                       flip_horiz flip_vert flip_diag)
    else t.

(** [tree_promote_node]: the node is unlinked, the rest of the old tree is
    freed, and the node becomes the root. *)
Definition tree_promote_node (t : tree) (node : tree_node) : tree :=
  mk_tree (tboard t) node (max_depth t) (stone_other (root_color t))
          (board_symmetry_update (tboard t) (root_symmetry t) (coord node)).

(** The loop of [tree_promote_at] over the children of the root. *)
Fixpoint promote_among (t : tree) (l : list tree_node) (c : coord_t)
  : bool * tree :=
  match l with
  | [] => (false, t)
  | ni :: l' =>
      if coord ni =? c then (true, tree_promote_node t ni)
      else promote_among t l' c
  end.

Definition tree_promote_at (t : tree) (b : board) (c : coord_t)
  : bool * tree :=
  let t1 := tree_fix_symmetry t b c in
  promote_among t1 (children (root t1)) c.

(** ** tree_node_dump, tree_dump *)

(** The scan of [nbox] for the node with the most playouts, entered at
    index [i] with [best] as found so far; the entries already printed are
    NULL. *)
Fixpoint nbox_scan (nbox : list (option tree_node)) (i : nat)
    (best : option (nat * tree_node)) : option (nat * tree_node) :=
  match nbox with
  | [] => best
  | e :: rest =>
      nbox_scan rest (S i)
        (match e with
         | Some ni =>
             match best with
             | None => Some (i, ni)
             | Some (_, nb) =>
                 if playouts (u ni) >? playouts (u nb) then Some (i, ni)
                 else best
             end
         | None => best
         end)
  end.

(** [nbox[best] = NULL]. *)
Fixpoint nbox_clear (nbox : list (option tree_node)) (best : nat)
  : list (option tree_node) :=
  match nbox with
  | [] => []
  | e :: rest =>
      match best with
      | O => None :: rest
      | S best' => e :: nbox_clear rest best'
      end
  end.

(** The [while (true)] loop of [tree_node_dump], with the recursive call
    as [dump]: what the calls print, one after the other. Every turn clears
    an entry, so one turn more than [nbox] has entries is enough. *)
Fixpoint dump_loop {A : Type} (dump : tree_node -> option (list A))
    (turns : nat) (nbox : list (option tree_node)) : option (list A) :=
  match turns with
  | O => None
  | S turns' =>
      match nbox_scan nbox 0 None with
      | None => Some []
      | Some (best, ni) =>
          step out <- dump ni;
          step rest <- dump_loop dump turns' (nbox_clear nbox best);
          Some (out ++ rest)
      end
  end.

(** [tree_node_dump]: the lines printed, each as its indentation and the
    node it shows (the text of a line comes from [coord2sstr] and the
    helpers of uct/tree.h). [nbox] has room for 1000 nodes; one more is
    written past its end. [fuel] bounds the nesting of the calls. *)
Fixpoint tree_node_dump (fuel : nat) (node : tree_node) (l thres : Z)
    {struct fuel} : option (list (Z * tree_node)) :=
  match fuel with
  | O => None
  | S fuel' =>
      let nbox := map Some (filter (fun ni => playouts (u ni) >? thres)
                                   (children node)) in
      if 1000 <? Z.of_nat (List.length nbox) then None
      else
        step out <- dump_loop (fun ni => tree_node_dump fuel' ni (l + 1) thres)
                              (S (List.length nbox)) nbox;
        Some ((l, node) :: out)
  end.

(** The threshold [tree_dump] goes on with. *)
Definition dump_threshold (t : tree) (thres : Z) : Z :=
  if negb (thres =? 0) && (Z.quot (playouts (u (root t))) thres >? 100)
  then Z.quot (playouts (u (root t))) 100
       * (if thres <? 1000 then 1 else Z.quot thres 1000)
  else thres.

Definition tree_dump (fuel : nat) (t : tree) (thres : Z)
  : option (list (Z * tree_node)) :=
  tree_node_dump fuel (root t) 0 (dump_threshold t thres).

(** ** tree_node_save, tree_save, tree_node_load, tree_load *)

(** The bytes of a node from [depth] to its end, which [fwrite] stores and
    [fread] restores as one block. *)
Record book_record := mk_record {
  r_depth : Z;
  r_coord : coord_t;
  r_u : move_stats;
  r_prior : move_stats;
  r_amaf : move_stats;
  r_pu : move_stats;
  r_pamaf : move_stats;
  r_hints : Z }.

(** A book file: marker bytes written with [fputc], and blocks. *)
Inductive book_item :=
| Byte (v : Z)
| Block (r : book_record).

Definition node_record (n : tree_node) : book_record :=
  mk_record (depth n) (coord n) (u n) (prior n) (amaf n) (pu n) (pamaf n)
            (hints n).

(** [fread] over the node: [hash] and the links keep what they held. *)
Definition fread_node (n : tree_node) (r : book_record) : tree_node :=
  mk_node (hash n) (r_depth r) (r_coord r) (r_u r) (r_prior r) (r_amaf r)
          (r_pu r) (r_pamaf r) (r_hints r) (children n).

Fixpoint tree_node_save (node : tree_node) (thres : Z) {struct node}
  : list book_item :=
  Byte 1 :: Block (node_record node) ::
  (if playouts (u node) >=? thres
   then flat_map (fun ni => tree_node_save ni thres) (children node)
   else []) ++ [Byte 0].

(** The contents of the book file [tree_save] writes. *)
Definition tree_save (t : tree) (thres : Z) : list book_item :=
  tree_node_save (root t) thres ++ [Byte 0].

Definition MAX_PLAYOUTS : Z := 10000000.

(** [(double) n] for an [int]; exact, an [int] has fewer than 53 bits. *)
Definition double_of_int (z : Z) : float :=
  if z <? 0 then PrimFloat.opp (PrimFloat.of_uint63 (Uint63.of_Z (- z)))
  else PrimFloat.of_uint63 (Uint63.of_Z z).

(** The conversion of a [double] to [int]: the fraction is discarded. *)
Definition int_of_double (x : float) : Z :=
  match Prim2SF x with
  | S754_finite s m e =>
      let a := if 0 <=? e then Z.shiftl (Z.pos m) e
               else Z.shiftr (Z.pos m) (- e) in
      if s then - a else a
  | _ => 0
  end.

(** [wins -= ((double) wins / playouts) * over] on an [int] [wins]. *)
Definition scaled_wins (w p over : Z) : Z :=
  int_of_double
    (PrimFloat.sub (double_of_int w)
       (PrimFloat.mul (PrimFloat.div (double_of_int w) (double_of_int p))
                      (double_of_int over))).

(** One of the two [if (... .playouts > MAX_PLAYOUTS)] blocks. *)
Definition clamp_stats (s : move_stats) : move_stats :=
  if playouts s >? MAX_PLAYOUTS then
    mk_stats MAX_PLAYOUTS
             (scaled_wins (wins s) (playouts s) (playouts s - MAX_PLAYOUTS))
             (value s)
  else s.

(** [tree_node_load] up to the loop over the children. *)
Definition load_fields (node : tree_node) (r : book_record) : tree_node :=
  let n1 := fread_node node r in
  let n2 := set_u n1 (clamp_stats (u n1)) in
  let n3 := set_amaf n2 (clamp_stats (amaf n2)) in
  set_pu (set_pamaf n3 (amaf n3)) (u n3).

(** The [while (fgetc(f))] loop of [tree_node_load], with the recursive
    call as [load]: the children read so far are [kids]. A child read into
    a node that already had children dereferences the NULL [ni_prev]. *)
Fixpoint load_children
    (load : list book_item -> tree_node -> Z
            -> option (tree_node * list book_item * Z))
    (n : nat) (node : tree_node) (f : list book_item)
    (kids : list tree_node) (num : Z) {struct n}
  : option (tree_node * list book_item * Z) :=
  match n with
  | O => None
  | S n' =>
      match f with
      | Byte v :: f' =>
          if v =? 0 then
            Some (set_children node (children node ++ kids), f', num)
          else
            match children node with
            | _ :: _ => None
            | [] =>
                step (ni, f'', num') <- load f' calloc_node num;
                load_children load n' node f'' (kids ++ [ni]) num'
            end
      | _ => None
      end
  end.

(** [tree_node_load]: the node, the rest of the file and the node count.
    [fuel] bounds the nesting of calls and the turns of each loop; a file
    that ends early keeps the C loop running ([fgetc] returns [EOF], which
    is not zero), so no fuel is enough for it. *)
Fixpoint tree_node_load (fuel : nat) (f : list book_item) (node : tree_node)
    (num : Z) {struct fuel} : option (tree_node * list book_item * Z) :=
  match fuel with
  | O => None
  | S fuel' =>
      match f with
      | Block r :: f1 =>
          load_children (tree_node_load fuel') fuel' (load_fields node r)
                        f1 [] (num + 1)
      | _ => None
      end
  end.

(** [tree_load] on the contents of the book file, [None] for the file when
    it cannot be opened. *)
Definition tree_load (fuel : nat) (t : tree) (file : option (list book_item))
  : option (tree * Z) :=
  match file with
  | None => Some (t, 0)
  | Some (Byte v :: f) =>
      if v =? 0 then Some (t, 0)
      else
        step (r, _, num) <- tree_node_load fuel f (root t) 0;
        Some (set_root t r, num)
  | Some _ => None
  end.

(** ** Positions in a tree *)

(** The node reached from [n] by taking, at each level, the child with the
    given index in the sibling list. *)
Fixpoint subnode (p : list nat) (n : tree_node) : option tree_node :=
  match p with
  | [] => Some n
  | i :: p' =>
      match nth_error (children n) i with
      | Some k => subnode p' k
      | None => None
      end
  end.

(** The first child of [n] that carries the coordinate [c]. *)
Definition child_at (c : coord_t) (n : tree_node) : option tree_node :=
  find (fun k => coord k =? c) (children n).

(** The node reached from [n] by the sequence of moves [p]. *)
Fixpoint descend (p : list coord_t) (n : tree_node) : option tree_node :=
  match p with
  | [] => Some n
  | c :: p' =>
      match child_at c n with
      | Some k => descend p' k
      | None => None
      end
  end.

(** Induction over a node with the property known of all its children. *)
Section NodeInduction.
Variable P : tree_node -> Prop.
Hypothesis at_node :
  forall h dp c su sp sa spu spa hi kids,
    Forall P kids -> P (mk_node h dp c su sp sa spu spa hi kids).

Fixpoint tree_node_ind (n : tree_node) : P n :=
  match n with
  | mk_node h dp c su sp sa spu spa hi kids =>
      at_node h dp c su sp sa spu spa hi kids
        ((fix all (l : list tree_node) : Forall P l :=
            match l with
            | [] => Forall_nil P
            | k :: l' => Forall_cons k (tree_node_ind k) (all l')
            end) kids)
  end.
End NodeInduction.

(** ** Notions the statements use *)

(** What [tree_node_normalize] makes of one node, as the specification
    words it: every counter is the baseline plus the gain divided by the
    factor, and the baseline is the new statistics. *)
Definition rebased (f : Z) (n n' : tree_node) : Prop :=
  playouts (amaf n') =
    playouts (pamaf n) + Z.quot (playouts (amaf n) - playouts (pamaf n)) f /\
  wins (amaf n') = wins (pamaf n) + Z.quot (wins (amaf n) - wins (pamaf n)) f /\
  playouts (u n') =
    playouts (pu n) + Z.quot (playouts (u n) - playouts (pu n)) f /\
  wins (u n') = wins (pu n) + Z.quot (wins (u n) - wins (pu n)) f /\
  pamaf n' = amaf n' /\ pu n' = u n'.

(** The pair of nodes at [p] in two trees is visited by the recursion of
    [tree_node_merge] when every node of [src] above it was touched. *)
Fixpoint reached (p : list coord_t) (src : tree_node) : bool :=
  match p with
  | [] => true
  | c :: p' =>
      negb (untouched src) &&
      match child_at c src with
      | Some k => reached p' k
      | None => false
      end
  end.

(** What [tree_node_merge] asserts of a pair of nodes: equal baseline
    playouts in both channels, and the same prior. *)
Definition agree (dn sn : tree_node) : Prop :=
  playouts (pamaf dn) = playouts (pamaf sn) /\
  playouts (pu dn) = playouts (pu sn) /\
  playouts (prior dn) = playouts (prior sn) /\
  wins (prior dn) = wins (prior sn).

(** A pair of nodes on which [tree_node_merge] trips an assertion: the
    baseline playouts differ in a channel, or [src] was touched and the
    priors differ. *)
Definition clash (dn sn : tree_node) : Prop :=
  playouts (pamaf dn) <> playouts (pamaf sn) \/
  playouts (pu dn) <> playouts (pu sn) \/
  (untouched sn = false /\
   (playouts (prior dn) <> playouts (prior sn) \/
    wins (prior dn) <> wins (prior sn))).

(** Every sibling list of the tree is strictly increasing for the order
    [lt] on coordinates. *)
#[local] Unset Elimination Schemes.
Inductive ordered (lt : coord_t -> coord_t -> Prop) : tree_node -> Prop :=
| ordered_node n :
    StronglySorted lt (map coord (children n)) ->
    Forall (ordered lt) (children n) ->
    ordered lt n.
#[local] Set Elimination Schemes.

(** The tree with every coordinate blanked: what is left is its shape and
    everything the nodes hold besides their coordinate. *)
Fixpoint erase_coords (n : tree_node) : tree_node :=
  set_children (set_coord n 0) (map erase_coords (children n)).

(** The points of the playground [tree_expand_node] makes children of, in
    the order of its loops. *)
Definition expanded_points (t : tree) (b : board) (color : stone) (radar : Z)
  : list coord_t :=
  map (fun ij => coord_xy_otf (fst ij) (snd ij) (tboard t))
    (filter
       (fun ij =>
          negb (negb (d (symmetry b) =? 0) &&
                ((if is_diag_down (type (symmetry b))
                  then board_size b - 1 - fst ij else fst ij) >? snd ij)) &&
          consider_map b color radar
            (coord_xy_otf (fst ij) (snd ij) (tboard t)))
       (playground (symmetry b))).

(** The coordinate [tree_fix_node_symmetry] gives a node that carried
    [c0]: pass stays, every other coordinate is flipped. *)
Definition mirrored (b : board) (flip_horiz flip_vert flip_diag : bool)
    (c0 : coord_t) : coord_t :=
  if is_pass c0 then c0 else flip_coord b c0 flip_horiz flip_vert flip_diag.

(** What the expansion makes of a child: a leaf one level below the node,
    without hints, whose prior counters are those [uct_prior] gives for its
    coordinate and whose other counters are zero. *)
Definition fresh_child (uc : uct) (node : tree_node) (map : prior_map)
    (k : tree_node) : Prop :=
  depth k = depth node + 1 /\ children k = [] /\ hints k = 0 /\
  playouts (prior k) = playouts (uct_prior uc node map (coord k)) /\
  wins (prior k) = wins (uct_prior uc node map (coord k)) /\
  playouts (u k) = 0 /\ wins (u k) = 0 /\
  playouts (amaf k) = 0 /\ wins (amaf k) = 0 /\
  playouts (pu k) = 0 /\ playouts (pamaf k) = 0.

(** The nodes of [nbox] that are not printed yet. *)
Definition pending (nbox : list (option tree_node)) : list tree_node :=
  flat_map (fun e => match e with Some ni => [ni] | None => [] end) nbox.

(** The number of levels of a tree. *)
Fixpoint height (n : tree_node) : nat :=
  S (list_max (map height (children n))).

(** The nodes a dump shows at the indentation [lvl], in the order of their
    lines. *)
Definition shown_at (lvl : Z) (out : list (Z * tree_node)) : list tree_node :=
  map snd (filter (fun ln => fst ln =? lvl) out).

(** The number of nodes of a tree. *)
Fixpoint node_count (n : tree_node) : nat :=
  S (list_sum (map node_count (children n))).

(** The part of a tree the book keeps: the children of a node are dropped
    when its playouts are below the threshold. *)
Fixpoint stored (thres : Z) (n : tree_node) : tree_node :=
  set_children n
    (if playouts (u n) >=? thres then map (stored thres) (children n)
     else []).

(** What loading the saved tree [n] into the node [base] builds. *)
Fixpoint book_image (thres : Z) (base n : tree_node) {struct n} : tree_node :=
  set_children (load_fields base (node_record n))
    (children base ++
     (if playouts (u n) >=? thres
      then map (book_image thres calloc_node) (children n)
      else [])).

(** A channel [s'] read back from a stored channel [s]: as stored up to the
    ceiling; above it, playouts at the ceiling, wins scaled down by the C
    expression, cached value as stored. *)
Definition channel_reloaded (s s' : move_stats) : Prop :=
  (playouts s <= MAX_PLAYOUTS -> s' = s) /\
  (playouts s > MAX_PLAYOUTS ->
   playouts s' = MAX_PLAYOUTS /\
   value s' = value s /\
   wins s' = scaled_wins (wins s) (playouts s) (playouts s - MAX_PLAYOUTS)).

(** A node [n'] read back from a stored node [n]. *)
Definition reloaded (n n' : tree_node) : Prop :=
  coord n' = coord n /\ depth n' = depth n /\ hints n' = hints n /\
  prior n' = prior n /\
  channel_reloaded (u n) (u n') /\ channel_reloaded (amaf n) (amaf n') /\
  pu n' = u n' /\ pamaf n' = amaf n'.

End Tree.

Module Distributed.

Definition coord_t := Tree.coord_t.
Definition pass : coord_t := Tree.pass.

(** ** The statistics the master combines (stats.h) *)

(** [struct move_stats] of stats.h, as distributed.c uses it: a playout
    count and a value. The value is a C [float]; the master stores, averages
    and prints values and never tests one, so no property below depends on
    them. They are carried as exact rationals; for a value that is not a
    number, which [%f] can read, the rational is whatever the conversion
    gives. *)
Record move_stats := mk_stats {
  playouts : Z;
  value : Q }.

Record move_stats2 := mk_stats2 {
  u : move_stats;
  amaf : move_stats }.

Definition no_stats2 : move_stats2 := mk_stats2 (mk_stats 0 0%Q) (mk_stats 0 0%Q).

(** Modelled from the spec: stats.h, which defines [stats_add_result], is
    not among the sources. "The coordinator sums across workers": the
    reported playouts are added to the accumulated count, and the reported
    value enters the running mean with that weight. *)
Definition stats_add_result (s : move_stats) (result : Q) (n : Z)
  : move_stats :=
  let p := playouts s + n in
  mk_stats p (value s + (result - value s) * inject_Z n / inject_Z p)%Q.

(** The array [stats], indexed by coordinate from [resign] up. *)
Definition stats_table := coord_t -> move_stats2.

Definition table_set (t : stats_table) (c : coord_t) (v : move_stats2)
  : stats_table :=
  fun c' => if c' =? c then v else t c'.

(** ** What [sscanf] reads *)

(** [isspace] in the C locale. *)
Definition isspace (c : ascii) : bool :=
  let n := nat_of_ascii c in
  Nat.eqb n 32 || (Nat.leb 9 n && Nat.leb n 13).

Fixpoint skip_space (s : string) : string :=
  match s with
  | String c s' => if isspace c then skip_space s' else s
  | EmptyString => s
  end.

Definition digit_of (c : ascii) : option Z :=
  let n := Z.of_nat (nat_of_ascii c) in
  if (48 <=? n) && (n <=? 57) then Some (n - 48) else None.

(** The longest run of decimal digits at the head of [s]: its value after
    [acc], how many digits it has, and what follows. *)
Fixpoint scan_digits (s : string) (acc : Z) (len : nat) : Z * nat * string :=
  match s with
  | String c s' =>
      match digit_of c with
      | Some v => scan_digits s' (10 * acc + v) (S len)
      | None => (acc, len, s)
      end
  | EmptyString => (acc, len, s)
  end.

(** An optional sign: whether it is a minus, and what follows. *)
Definition scan_sign (s : string) : bool * string :=
  match s with
  | String "-" s' => (true, s')
  | String "+" s' => (false, s')
  | _ => (false, s)
  end.

(** The conversion [%d]. *)
Definition scan_int (s : string) : option (Z * string) :=
  let (neg, s1) := scan_sign (skip_space s) in
  match scan_digits s1 0 0 with
  | (_, O, _) => None
  | (v, _, rest) => Some (if neg then - v else v, rest)
  end.

(** The conversion [%Ns]: at most [n] characters that are not spaces. *)
Fixpoint scan_chars (n : nat) (s : string) : string * string :=
  match n, s with
  | S n', String c s' =>
      if isspace c then (EmptyString, s)
      else let (w, rest) := scan_chars n' s' in (String c w, rest)
  | _, _ => (EmptyString, s)
  end.

Definition scan_word (n : nat) (s : string) : option (string * string) :=
  match scan_chars n (skip_space s) with
  | (EmptyString, _) => None
  | (w, rest) => Some (w, rest)
  end.

(** A decimal numeral at the head of [s], after white space: sign, digits
    with an optional point, and an exponent when one is complete; its value,
    and what follows it. These are the numerals a slave prints. *)
Definition scan_exponent (s : string) : Z * string :=
  match s with
  | String c s1 =>
      if (Ascii.eqb c "e" || Ascii.eqb c "E")%bool then
        let (neg, s2) := scan_sign s1 in
        match scan_digits s2 0 0 with
        | (_, O, _) => (0, s)
        | (e, _, rest) => (if neg then - e else e, rest)
        end
      else (0, s)
  | EmptyString => (0, s)
  end.

Definition scale10 (m e : Z) : Q :=
  if 0 <=? e then inject_Z (m * 10 ^ e)
  else (inject_Z m / inject_Z (10 ^ (- e)))%Q.

Definition scan_decimal (s : string) : option (Q * string) :=
  let (neg, s1) := scan_sign (skip_space s) in
  let '(ip, ilen, s2) := scan_digits s1 0 0 in
  let '(m, flen, s3) :=
    match s2 with
    | String "." s2' =>
        let '(m, flen, s3) := scan_digits s2' ip 0 in
        match ilen, flen with
        | O, O => (ip, O, s2)
        | _, _ => (m, flen, s3)
        end
    | _ => (ip, O, s2)
    end in
  match ilen, flen with
  | O, O => None
  | _, _ =>
      let (e, rest) := scan_exponent s3 in
      let q := scale10 m (e - Z.of_nat flen) in
      Some (if neg then (- q)%Q else q, rest)
  end.

(** White space, or the end of the text, follows the numeral. *)
Definition ends_numeral (rest : string) : bool :=
  match rest with
  | String c _ => isspace c
  | EmptyString => true
  end.

(** [strchr(r, c)]: the part of [r] from the first [c] on, NULL without. *)
Fixpoint strchr (r : string) (c : ascii) : option string :=
  match r with
  | String a r' => if Ascii.eqb a c then Some r else strchr r' c
  | EmptyString => None
  end.

Definition newline : ascii := "010"%char.

Definition str_tail (r : string) : string :=
  match r with
  | String _ r' => r'
  | EmptyString => EmptyString
  end.

(** [sscanf(r, "=%d %d %d %d %d", &id, &o, &p, &t, &k) == 5]. *)
Record reply_header := mk_header {
  h_id : Z; h_played : Z; h_playouts : Z; h_threads : Z; h_keep : Z }.

Definition scan_header (r : string) : option reply_header :=
  match r with
  | String "=" r0 =>
      step (id, r1) <- scan_int r0;
      step (o, r2) <- scan_int r1;
      step (p, r3) <- scan_int r2;
      step (t, r4) <- scan_int r3;
      step (k, _) <- scan_int r4;
      Some (mk_header id o p t k)
  | _ => None
  end.

(** ** select_best_move *)

(** The variables [select_best_move] updates while it reads the replies. *)
Record selection := mk_selection {
  stats : stats_table;
  best_move : coord_t;
  best_playouts : Z;
  played : Z;
  total_playouts : Z;
  total_threads : Z;
  keep : Z }.

Section Select.
(** The conversion [%f] of [sscanf] is the C library's. Every library takes
    a decimal numeral that white space, or the end of the text, follows, and
    stops behind it. On any other text -- an infinity, a NaN, a hexadecimal
    numeral, a numeral that breaks off or that something else follows, no
    numeral -- libraries differ, and what is read is the parameter
    [scan_other]: the value read and what follows it, or nothing when no
    number is read. *)
Variable scan_other : string -> option (Q * string).
(** [str2coord] (move.c) is not among the sources. *)
Variable str2coord : string -> Z -> coord_t.
Variable b : Tree.board.

(** The conversion [%f]. *)
Definition scan_float (s : string) : option (Q * string) :=
  match scan_decimal s with
  | Some (q, rest) =>
      if ends_numeral rest then Some (q, rest) else scan_other s
  | None => scan_other s
  end.

(** [sscanf(r, "%63s %d %f %d %f", move, ...) == 5]. *)
Definition scan_line (r : string) : option (string * move_stats2) :=
  step (move, r1) <- scan_word 63 r;
  step (up, r2) <- scan_int r1;
  step (uv, r3) <- scan_float r2;
  step (ap, r4) <- scan_int r3;
  step (av, _) <- scan_float r4;
  Some (move, mk_stats2 (mk_stats up uv) (mk_stats ap av)).

(** The body of the inner [while], for a line that was read. *)
Definition add_line (sel : selection) (move : string) (s : move_stats2)
  : selection :=
  let c := str2coord move (Tree.board_size b) in
  let old := stats sel c in
  let new := mk_stats2
               (stats_add_result (u old) (value (u s)) (playouts (u s)))
               (stats_add_result (amaf old) (value (amaf s))
                                 (playouts (amaf s))) in
  let better := playouts (u new) >? best_playouts sel in
  mk_selection (table_set (stats sel) c new)
               (if better then c else best_move sel)
               (if better then playouts (u new) else best_playouts sel)
               (played sel) (total_playouts sel) (total_threads sel)
               (keep sel).

(** [while (r && sscanf(++r, ...) == 5) { ...; r = strchr(r, '\n'); }].
    Every turn leaves a shorter string, so the length of the reply is
    enough [fuel]. *)
Fixpoint read_lines (fuel : nat) (r : option string) (sel : selection)
  : selection :=
  match fuel, r with
  | S fuel', Some r0 =>
      let r1 := str_tail r0 in
      match scan_line r1 with
      | Some (move, s) =>
          read_lines fuel' (strchr r1 newline) (add_line sel move s)
      | None => sel
      end
  | _, _ => sel
  end.

(** One turn of the loop over the replies. *)
Definition read_reply (sel : selection) (r : string) : selection :=
  match scan_header r with
  | None => sel
  | Some h =>
      let sel1 := mk_selection (stats sel) (best_move sel) (best_playouts sel)
                    (played sel + h_played h)
                    (total_playouts sel + h_playouts h)
                    (total_threads sel + h_threads h)
                    (keep sel + h_keep h) in
      read_lines (S (String.length r)) (strchr r newline) sel1
  end.

Definition start_selection : selection :=
  mk_selection (fun _ => no_stats2) pass (-1) 0 0 0 0.

(** What [select_best_move] returns and stores through its pointers. *)
Record best_move_result := mk_result {
  res_move : coord_t;
  res_stats : stats_table;
  res_played : Z;
  res_total_playouts : Z;
  res_total_threads : Z;
  res_keep_looking : bool }.

(** [gtp_replies[0 .. reply_count-1]] is the list of replies. *)
Definition select_best_move (gtp_replies : list string)
  : option best_move_result :=
  match gtp_replies with
  | [] => None
  | _ =>
      let sel := fold_left read_reply gtp_replies start_selection in
      let reply_count := Z.of_nat (List.length gtp_replies) in
      Some (mk_result (best_move sel) (stats sel) (played sel)
                      (total_playouts sel) (total_threads sel)
                      (keep sel >? Z.quot reply_count 2))
  end.

End Select.

(** ** scmp, distributed_dead_group_list *)

Definition tolower (c : ascii) : Z :=
  let n := Z.of_nat (nat_of_ascii c) in
  if (65 <=? n) && (n <=? 90) then n + 32 else n.

(** [strcasecmp] in the C locale: the difference of the first two
    characters that differ once lowered, the end of a string counting as 0. *)
Fixpoint strcasecmp (s1 s2 : string) : Z :=
  match s1, s2 with
  | EmptyString, EmptyString => 0
  | EmptyString, String c _ => 0 - tolower c
  | String c _, EmptyString => tolower c
  | String c1 r1, String c2 r2 =>
      if tolower c1 =? tolower c2 then strcasecmp r1 r2
      else tolower c1 - tolower c2
  end.

Definition scmp (p1 p2 : string) : Z := strcasecmp p1 p2.

(** The loop that finds the most popular reply in the sorted array:
    [prev] is [gtp_replies[reply-1]], [rest] starts at [gtp_replies[reply]]. *)
Fixpoint most_popular (prev : string) (rest : list string) (reply : nat)
    (count best_count : Z) (best_reply : nat) : nat :=
  match rest with
  | [] => best_reply
  | r :: rest' =>
      let count' := if String.eqb r prev then count + 1 else 1 in
      if count' >? best_count
      then most_popular r rest' (S reply) count' count' reply
      else most_popular r rest' (S reply) count' best_count best_reply
  end.

Definition best_reply_index (sorted : list string) : nat :=
  match sorted with
  | [] => O
  | r0 :: rest => most_popular r0 rest 1 1 1 0
  end.

Section DeadGroups.
Variable str2coord : string -> Z -> coord_t.
(** [qsort] of the C library, given the comparison function. *)
Variable qsort : (string -> string -> Z) -> list string -> list string.
Variable b : Tree.board.

(** [while (dead && *++dead != '\n') { ...; dead = strchr(dead, '\n'); }]:
    the first move of each line is added to the queue. *)
Fixpoint read_groups (fuel : nat) (dead : option string) (mq : list coord_t)
  : list coord_t :=
  match fuel, dead with
  | S fuel', Some d0 =>
      let d1 := str_tail d0 in
      match d1 with
      | String c _ =>
          if Ascii.eqb c newline then mq
          else read_groups fuel' (strchr d1 newline)
                           (mq ++ [str2coord d1 (Tree.board_size b)])
      | EmptyString =>
          read_groups fuel' (strchr d1 newline)
                      (mq ++ [str2coord d1 (Tree.board_size b)])
      end
  | _, _ => mq
  end.

(** The reply [distributed_dead_group_list] settles on: the entry of the
    sorted array at [best_reply]. Without a reply the entry read is not one
    of this round. *)
Definition chosen_reply (gtp_replies : list string) : option string :=
  match gtp_replies with
  | [] => None
  | _ =>
      let sorted := qsort scmp gtp_replies in
      nth_error sorted (best_reply_index sorted)
  end.

(** [distributed_dead_group_list]: the moves added to the queue [mq]. *)
Definition distributed_dead_group_list (gtp_replies : list string)
    (mq : list coord_t) : option (list coord_t) :=
  step dead <- chosen_reply gtp_replies;
  Some (read_groups (S (String.length dead)) (strchr dead " "%char) mq).

End DeadGroups.

(** ** distributed_state_init, distributed_notify *)

(** [struct distributed], without the last move and its statistics, which
    [distributed_genmove] keeps for [distributed_chat]. The two ports are
    NULL until an option sets them. *)
Record distributed := mk_distributed {
  slave_port : option string;
  proxy_port : option string;
  max_slaves : Z;
  slaves_quit : bool }.

(** [atoi]: the decimal number at the head of the string, 0 without one. *)
Definition atoi (s : string) : Z :=
  match scan_int s with
  | Some (v, _) => v
  | None => 0
  end.

(** The first [strcspn(s, c)] characters of [s], and what follows them:
    nothing, or the text from the first [c] on. *)
Fixpoint strcspn_split (s : string) (c : ascii) : string * string :=
  match s with
  | EmptyString => (EmptyString, EmptyString)
  | String a s' =>
      if Ascii.eqb a c then (EmptyString, s)
      else let (w, rest) := strcspn_split s' c in (String a w, rest)
  end.

(** [optname] and [optval] once [optspec] is cut at its first ['=']. *)
Definition split_optval (optspec : string) : string * option string :=
  let (optname, rest) := strcspn_split optspec "="%char in
  match rest with
  | String _ optval => (optname, Some optval)
  | EmptyString => (optname, None)
  end.

Definition has_value (optval : option string) : bool :=
  match optval with Some _ => true | None => false end.

(** The chain of tests on one option; an option that is not known, or
    lacks its value, only prints a message. *)
Definition set_option (dist : distributed) (optspec : string) : distributed :=
  let (optname, optval) := split_optval optspec in
  if (strcasecmp optname "slave_port" =? 0) && has_value optval then
    mk_distributed optval (proxy_port dist) (max_slaves dist)
                   (slaves_quit dist)
  else if (strcasecmp optname "proxy_port" =? 0) && has_value optval then
    mk_distributed (slave_port dist) optval (max_slaves dist)
                   (slaves_quit dist)
  else if (strcasecmp optname "max_slaves" =? 0) && has_value optval then
    mk_distributed (slave_port dist) (proxy_port dist)
                   (match optval with Some v => atoi v | None => 0 end)
                   (slaves_quit dist)
  else if strcasecmp optname "slaves_quit" =? 0 then
    mk_distributed (slave_port dist) (proxy_port dist) (max_slaves dist)
                   (match optval with
                    | Some v => negb (atoi v =? 0)
                    | None => true
                    end)
  else dist.

(** The loop over the options, which runs until [next] is at the end of the
    argument: [optspec = next; next += strcspn(next, ","); ...]. Every turn
    leaves a shorter string. *)
Fixpoint read_options (fuel : nat) (next : string) (dist : distributed)
  : distributed :=
  match fuel, next with
  | S fuel', String _ _ =>
      let (optspec, rest) := strcspn_split next ","%char in
      read_options fuel' (str_tail rest) (set_option dist optspec)
  | _, _ => dist
  end.

Section StateInit.
(** [calloc2] (util.h) and [protocol_init] (distributed/protocol.c) are not
    among the sources. What matters here is whether a call returns: [calloc2]
    on the number of elements and their size, [protocol_init] on the two
    ports and the number of slaves. The sizes of [struct distributed] and of
    a pointer are the compiler's. *)
Variable calloc2 : Z -> Z -> bool.
Variable sizeof_distributed : Z.
Variable sizeof_pointer : Z.
Variable protocol_init : string -> option string -> Z -> bool.

(** [distributed_state_init] on the engine argument, NULL or a string: the
    state, or nothing when the function does not return: a call of
    [calloc2] or [protocol_init] that does not, or [exit(1)] for want of a
    slave port. The array [gtp_replies] is allocated before the port is
    looked at. *)
Definition distributed_state_init (arg : option string)
  : option distributed :=
  if negb (calloc2 1 sizeof_distributed) then None
  else
    let dist0 := mk_distributed None None 100 false in
    let dist := match arg with
                | Some a => read_options (S (String.length a)) a dist0
                | None => dist0
                end in
    if negb (calloc2 (max_slaves dist) sizeof_pointer) then None
    else
      match slave_port dist with
      | None => None
      | Some port =>
          if protocol_init port (proxy_port dist) (max_slaves dist)
          then Some dist
          else None
      end.

End StateInit.

(** [distributed_notify] returns [P_OK] in every case; what differs is
    whether the command is dispatched to the slaves with [new_cmd], which is
    the value here. *)
Definition distributed_notify (dist : distributed) (cmd : string) : bool :=
  negb (((strcasecmp cmd "quit" =? 0) && negb (slaves_quit dist))
        || (strcasecmp cmd "uct_genbook" =? 0)
        || (strcasecmp cmd "uct_dumpbook" =? 0)
        || (strcasecmp cmd "kgs-chat" =? 0)
        || (strcasecmp cmd "time_left" =? 0)
        || (strcasecmp cmd "genmove" =? 0)
        || (strcasecmp cmd "kgs-genmove_cleanup" =? 0)
        || (strcasecmp cmd "final_score" =? 0)
        || (strcasecmp cmd "final_status_list" =? 0)).

(** ** genmoves_args *)

(** What [genmoves_args] reads of [struct time_info] (timeinfo.h). *)
Inductive time_dim := TD_GAMES | TD_WALLTIME.

Record time_info := mk_time_info {
  dim : time_dim;
  main_time : Q;
  byoyomi_time : Q;
  byoyomi_periods : Z;
  byoyomi_stones : Z }.

(** The buffer [args] as far as it is written, and the pointer [s] as an
    offset into it. *)
Record out_buffer := mk_buffer {
  written : string;
  s_off : Z }.

Section GenmovesArgs.
(** [CMDS_SIZE] (distributed/protocol.h), the names [stone2str] and
    [coord2sstr] print, and the texts [printf] makes of an [int] with [%d]
    and of a [double] with [%.Nf]. *)
Variable CMDS_SIZE : Z.
Variable stone2str : Tree.stone -> string.
Variable coord2sstr : coord_t -> Tree.board -> string.
Variable fmt_d : Z -> string.
Variable fmt_f : nat -> Q -> string.

(** [s += snprintf(s, end - s, ...)] for the text the format expands to.
    With [s] beyond [end] the size, a [size_t], wraps around and the text
    is written past the buffer. Otherwise at most [end - s - 1] characters
    are stored, none when [s] is at [end], and [s] moves on by the length
    of the whole text. *)
Definition snprintf (buf : out_buffer) (text : string) : option out_buffer :=
  let room := CMDS_SIZE - s_off buf in
  if room <? 0 then None
  else
    Some (mk_buffer
            (if room =? 0 then written buf
             else (written buf
                   ++ substring 0 (Z.to_nat (room - 1)) text)%string)
            (s_off buf + Z.of_nat (String.length text))).

Definition header_text (color : Tree.stone) (played : Z) : string :=
  (stone2str color ++ " " ++ fmt_d played)%string.

Definition time_text (ti : time_info) : string :=
  (" " ++ fmt_f 3 (main_time ti) ++ " " ++ fmt_f 3 (byoyomi_time ti)
   ++ " " ++ fmt_d (byoyomi_periods ti)
   ++ " " ++ fmt_d (byoyomi_stones ti))%string.

(** ["%s %d %.7f %d %.7f\n"] for the coordinate [c]. *)
Definition stats_text (b : Tree.board) (stats : stats_table) (c : coord_t)
  : string :=
  (coord2sstr c b ++ " " ++ fmt_d (playouts (u (stats c)))
   ++ " " ++ fmt_f 7 (value (u (stats c)))
   ++ " " ++ fmt_d (playouts (amaf (stats c)))
   ++ " " ++ fmt_f 7 (value (amaf (stats c)))
   ++ String newline EmptyString)%string.

(** One turn of [foreach_point]. *)
Definition stats_step (b : Tree.board) (stats : stats_table)
    (min_playouts : Z) (acc : option out_buffer) (c : coord_t)
  : option out_buffer :=
  step buf <- acc;
  if playouts (u (stats c)) <=? min_playouts then Some buf
  else snprintf buf (stats_text b stats c).

(** [genmoves_args]: what [args] holds on return; [stats] is NULL or the
    table. [foreach_point] runs over the coordinates from 0 up to
    [board_size2 - 1]. *)
Definition genmoves_args (b : Tree.board) (color : Tree.stone) (played : Z)
    (ti : time_info) (stats : option stats_table) (min_playouts : Z)
  : option string :=
  step b0 <- snprintf (mk_buffer EmptyString 0) (header_text color played);
  step b1 <- match dim ti with
             | TD_WALLTIME => snprintf b0 (time_text ti)
             | TD_GAMES => Some b0
             end;
  step b2 <- snprintf b1 (String newline EmptyString);
  step b3 <- match stats with
             | Some st =>
                 fold_left (stats_step b st min_playouts)
                           (Tree.zrange 0 (Tree.board_size2 b - 1)) (Some b2)
             | None => Some b2
             end;
  step b4 <- snprintf b3 (String newline EmptyString);
  Some (written b4).

(** The arguments [distributed_genmove] sends with the updated statistics:
    the threshold is a hundredth of the playouts of the best move. *)
Definition genmoves_update (b : Tree.board) (color : Tree.stone)
    (played : Z) (ti : time_info) (stats : stats_table) (best : coord_t)
  : option string :=
  genmoves_args b color played ti (Some stats)
                (Z.quot (playouts (u (stats best))) 100).

(** The whole text [genmoves_args] is to put into the buffer. *)
Definition args_text (b : Tree.board) (color : Tree.stone) (played : Z)
    (ti : time_info) (stats : option stats_table) (min_playouts : Z)
  : string :=
  (header_text color played
   ++ match dim ti with
      | TD_WALLTIME => time_text ti
      | TD_GAMES => EmptyString
      end
   ++ String newline
        (match stats with
         | Some st =>
             String.concat EmptyString
               (map (stats_text b st)
                  (filter (fun c => negb (playouts (u (st c)) <=? min_playouts)%Z)
                          (Tree.zrange 0 (Tree.board_size2 b - 1)%Z)))
         | None => EmptyString
         end
         ++ String newline EmptyString))%string.

(** What the buffer holds once the texts that make up [full] went through
    [snprintf]: [s] has moved by the whole length, and the buffer holds the
    first [CMDS_SIZE - 1] characters. *)
Definition holds (buf : out_buffer) (full : string) : Prop :=
  s_off buf = Z.of_nat (String.length full) /\
  written buf = substring 0 (Z.to_nat (CMDS_SIZE - 1)) full.

End GenmovesArgs.

(** ** Notions the statements use *)

Section LinesRead.
Variable scan_other : string -> option (Q * string).

(** The coordinate lines the inner loop of [select_best_move] reads, from
    [r] on, before [sscanf] first fails. *)
Fixpoint collect_lines (fuel : nat) (r : option string)
  : list (string * move_stats2) :=
  match fuel, r with
  | S fuel', Some r0 =>
      let r1 := str_tail r0 in
      match scan_line scan_other r1 with
      | Some ml => ml :: collect_lines fuel' (strchr r1 newline)
      | None => []
      end
  | _, _ => []
  end.

(** How much of the reply a scan that stands at [r] still has before it. *)
Definition ahead (r : option string) : nat :=
  match r with
  | Some r0 => String.length r0
  | None => O
  end.

(** The coordinate lines of one reply. *)
Definition reply_lines (r : string) : list (string * move_stats2) :=
  collect_lines (S (String.length r)) (strchr r newline).

(** The coordinate lines of the replies whose header is read, in the order
    the replies and their lines are scanned. *)
Definition all_lines (replies : list string) : list (string * move_stats2) :=
  flat_map (fun r => match scan_header r with
                     | Some _ => reply_lines r
                     | None => []
                     end) replies.

End LinesRead.

(** The body of the inner loop on a line that was read, and the header of
    a reply added to the running sums. *)
Definition add_parsed (str2coord : string -> Z -> coord_t) (b : Tree.board)
    (sel : selection) (ml : string * move_stats2) : selection :=
  add_line str2coord b sel (fst ml) (snd ml).

Definition add_header (sel : selection) (h : reply_header) : selection :=
  mk_selection (stats sel) (best_move sel) (best_playouts sel)
               (played sel + h_played h)
               (total_playouts sel + h_playouts h)
               (total_threads sel + h_threads h)
               (keep sel + h_keep h).

(** What holds of the selection between two lines when no line reports a
    negative playout count: no count in the table is negative, none is above
    the best count found, and the best move carries at least that count. *)
Definition best_so_far (sel : selection) : Prop :=
  (forall c, 0 <= playouts (u (stats sel c))) /\
  (forall c, playouts (u (stats sel c)) <= Z.max 0 (best_playouts sel)) /\
  best_playouts sel <= playouts (u (stats sel (best_move sel))).

(** The sum of one header field over the replies whose header is read. *)
Fixpoint sum_headers (f : reply_header -> Z) (replies : list string) : Z :=
  match replies with
  | [] => 0
  | r :: l =>
      match scan_header r with
      | Some h => f h + sum_headers f l
      | None => sum_headers f l
      end
  end.

(** The raw playouts the replies report for the coordinate [c], summed over
    all lines. *)
Fixpoint combined_playouts (str2coord : string -> Z -> coord_t)
    (size : Z) (lines : list (string * move_stats2)) (c : coord_t) : Z :=
  match lines with
  | [] => 0
  | (move, s) :: l =>
      (if str2coord move size =? c then playouts (u s) else 0)
      + combined_playouts str2coord size l c
  end.

(** The same sum for the playouts of the [amaf] channel. *)
Fixpoint combined_amaf_playouts (str2coord : string -> Z -> coord_t)
    (size : Z) (lines : list (string * move_stats2)) (c : coord_t) : Z :=
  match lines with
  | [] => 0
  | (move, s) :: l =>
      (if str2coord move size =? c then playouts (amaf s) else 0)
      + combined_amaf_playouts str2coord size l c
  end.

(** The number of replies that vote to continue: those whose header is read
    and whose vote, an [int] that stands for a [bool], is not 0. *)
Fixpoint continue_votes (replies : list string) : Z :=
  match replies with
  | [] => 0
  | r :: l =>
      match scan_header r with
      | Some h => (if h_keep h =? 0 then 0 else 1) + continue_votes l
      | None => continue_votes l
      end
  end.

(** How often the reply [r] occurs, letter for letter. *)
Fixpoint occurrences (r : string) (replies : list string) : Z :=
  match replies with
  | [] => 0
  | r' :: l => (if String.eqb r' r then 1 else 0) + occurrences r l
  end.

(** The text of a reply behind its header and the space that follows it:
    every line of [lines] ended by a newline, and the empty line that ends
    the reply. *)
Fixpoint reply_body (lines : list string) : string :=
  match lines with
  | [] => String newline EmptyString
  | l :: rest => (l ++ String newline (reply_body rest))%string
  end.

(** For each line of a reply, the text from its first character to the end
    of the reply: what [str2coord] is handed for the line. *)
Fixpoint line_starts (lines : list string) : list string :=
  match lines with
  | [] => []
  | l :: rest =>
      (l ++ String newline (reply_body rest))%string :: line_starts rest
  end.

(** The text behind each newline of [s]: where the lines behind the first
    line start. *)
Fixpoint line_tails (s : string) : list string :=
  match s with
  | EmptyString => []
  | String c s' =>
      if Ascii.eqb c newline then s' :: line_tails s' else line_tails s'
  end.

(** What is read when [read] is tried on one text after the other until it
    fails. *)
Fixpoint read_while {A : Type} (read : string -> option A)
    (texts : list string) : list A :=
  match texts with
  | [] => []
  | t :: rest =>
      match read t with
      | Some x => x :: read_while read rest
      | None => []
      end
  end.

(** Modelled from the spec: "a header ..., followed by zero or more
    coordinate lines, each giving {coordinate, raw playouts, raw value, amaf
    playouts, amaf value}" and "malformed lines are skipped". The text
    between two newlines is a line; the lines a reply reports are those
    behind its first that read, each by itself, as a coordinate line. *)
Fixpoint text_lines (s : string) : list string :=
  match s with
  | EmptyString => [EmptyString]
  | String c s' =>
      if Ascii.eqb c newline then EmptyString :: text_lines s'
      else match text_lines s' with
           | l :: rest => String c l :: rest
           | [] => [String c EmptyString]
           end
  end.

Definition reported_lines (scan_other : string -> option (Q * string))
    (r : string) : list (string * move_stats2) :=
  flat_map (fun l => match scan_line scan_other l with
                     | Some ml => [ml]
                     | None => []
                     end) (tl (text_lines r)).

(** A C string: no NUL before its end. *)
Definition c_string (s : string) : Prop := strchr s "000"%char = None.

(** The engine argument that lists the options [opts]: they are separated
    by commas. *)
Fixpoint join_options (opts : list string) : string :=
  match opts with
  | [] => EmptyString
  | o :: rest =>
      match rest with
      | [] => o
      | _ => (o ++ String "," (join_options rest))%string
      end
  end.

(** The option names a port for the slaves and gives its value. *)
Definition names_slave_port (optspec : string) : bool :=
  (strcasecmp (fst (split_optval optspec)) "slave_port" =? 0)
  && has_value (snd (split_optval optspec)).

(** A sort that keeps replies which compare equal in the order they came:
    each reply is inserted behind those not above it. *)
Fixpoint insert_reply (cmp : string -> string -> Z) (x : string)
    (l : list string) : list string :=
  match l with
  | [] => [x]
  | y :: l' => if cmp x y <? 0 then x :: l else y :: insert_reply cmp x l'
  end.

Definition stable_sort (cmp : string -> string -> Z) (l : list string)
  : list string :=
  fold_left (fun acc x => insert_reply cmp x acc) l [].

End Distributed.


(** ** Concrete boards, helpers and trees, for the examples *)

Module Samples.
Import Tree.

(** A board of side [size] (border included) whose points are numbered row
    by row, [x + y * size], as [coord_x] and [coord_y] take them apart with
    [%] and [/]. The border is off board, every other point is empty and
    playable. *)
Definition on_grid (size : Z) (c : coord_t) : bool :=
  (0 <? c mod size) && (c mod size <? size - 1) &&
  (0 <? c / size) && (c / size <? size - 1).

Definition grid_board (size : Z) (s : board_symmetry) : board :=
  mk_board size 0 s
    (fun c => if on_grid size c then S_NONE else S_OFFBOARD)
    (fun _ c => on_grid size c)
    (fun _ _ => true)
    (fun x y => x + y * size)
    (fun c => c mod size)
    (fun c => c / size)
    (fun s' _ => s').

(** A 9x9 board without stones whose playground is one quadrant, folded
    along its diagonal. *)
Definition quadrant : board_symmetry := mk_symmetry 5 10 5 10 1 SYM_FULL.
Definition board9 : board := grid_board 11 quadrant.

(** Cached values recomputed as the plain mean [wins / playouts]. *)
Definition mean_stats (s : move_stats) : move_stats :=
  mk_stats (playouts s) (wins s)
           (PrimFloat.div (double_of_int (wins s)) (double_of_int (playouts s))).
Definition mean_value (n : tree_node) (_ : bool) : tree_node :=
  set_u n (mean_stats (u n)).
Definition mean_rvalue (n : tree_node) (_ : bool) : tree_node :=
  set_amaf n (mean_stats (amaf n)).
Definition white_parity (t : tree) (p : Z) : Z :=
  match root_color t with S_WHITE => p | _ => - p end.

Lemma mean_value_keeps_counts (n : tree_node) (a : bool) :
  same_counts n (mean_value n a).
Proof. repeat split. Qed.

Lemma mean_rvalue_keeps_counts (n : tree_node) (a : bool) :
  same_counts n (mean_rvalue n a).
Proof. repeat split. Qed.

Definition mean_h : tree_h :=
  mk_tree_h mean_value mean_rvalue white_parity
            mean_value_keeps_counts mean_rvalue_keeps_counts.

(** A node whose two channels hold the same counters: [p]/[w] now, [bp]/[bw]
    at the baseline. *)
Definition sample_node (c : coord_t) (dep p w bp bw hi : Z)
    (kids : list tree_node) : tree_node :=
  mk_node 0 dep c (mk_stats p w 0%float) no_stats (mk_stats p w 0%float)
          (mk_stats bp bw 0%float) (mk_stats bp bw 0%float) hi kids.

Definition sample_tree (r : tree_node) : tree :=
  mk_tree board9 r 1 S_WHITE quadrant.

(** Two runs that started from the same tree, root 4/2 and child 4/2, and
    played 6 and 3 more games below the root. *)
Definition run_a : tree :=
  sample_tree (sample_node pass 0 10 5 4 2 0 [sample_node 60 1 6 3 4 2 0 []]).
Definition run_b : tree :=
  sample_tree (sample_node pass 0 7 4 4 2 0 [sample_node 60 1 5 2 4 2 0 []]).

(** A third run from the same tree, which tried (5,4) instead and played 3
    games below the root. *)
Definition run_c : tree :=
  sample_tree (sample_node pass 0 7 4 4 2 0 [sample_node 49 1 3 1 0 0 0 []]).

(** A run whose copy of the child started from another baseline, 3/1. *)
Definition run_d : tree :=
  sample_tree (sample_node pass 0 7 4 4 2 0 [sample_node 60 1 5 2 3 1 0 []]).

(** A node that gained five playouts, and one that gained none but carries a
    hint and a child. *)
Definition busy_node : tree_node := sample_node pass 0 8 4 3 1 0 [].
Definition idle_node : tree_node :=
  sample_node pass 0 3 1 3 1 1 [sample_node 60 1 0 0 0 0 0 []].

(** The tree of a game about to start on the empty 9x9 board, and a search
    that gives every move the same even prior. *)
Definition opening : tree :=
  mk_tree board9 (sample_node pass 0 0 0 0 0 0 []) 0 S_WHITE quadrant.
Definition even_prior : uct :=
  mk_uct false (fun _ _ _ => mk_stats 2 1 0.5%float).

(** A tree rooted in the playground's quadrant with three moves tried:
    (5,5), (5,6) and (6,6). *)
Definition three_moves : tree :=
  sample_tree (sample_node pass 0 9 4 0 0 0
                 [sample_node 60 1 3 1 0 0 0 [];
                  sample_node 71 1 3 2 0 0 0 [];
                  sample_node 72 1 3 1 0 0 0 []]).

(** A book position seen 20,000,001 times with 10 wins, above a reply seen
    12 times. *)
Definition heavy : tree :=
  sample_tree
    (mk_node 0 0 pass (mk_stats 20000001 10 0.5%float) no_stats
             (mk_stats 3 1 0%float) no_stats no_stats 0
             [sample_node 60 1 12 7 0 0 0 []]).

(** Replies of slaves, and a reading of coordinates: the letter counts the
    column (there is no column I), the number the row. *)
Definition genmoves_reply : string :=
  "=7 100 500 4 1
C3 50 0.6 10 0.55
D4 80 0.4 5 0.3

".

Definition header_only_reply : string :=
  "=7 40 200 2 0

".

(** Replies that a slave does not send: a playout count below zero, a blank
    line before the coordinate lines, and votes that are neither 0 nor 1. *)
Definition negative_count_reply : string :=
  "=7 100 500 4 1
C3 50 0.6 10 0.55
D4 80 0.4 5 0.3
D4 -70 0.4 5 0.3

".

Definition blank_line_reply : string :=
  "=7 100 500 4 1

C3 50 0.6 10 0.55
D4 80 0.4 5 0.3

".

Definition double_vote_reply : string :=
  "=7 40 200 2 2

".

Definition negative_vote_reply : string :=
  "=7 40 200 2 -5

".

(** A reply with a value that is not a number. *)
Definition nan_value_reply : string :=
  "=7 100 500 4 1
C3 50 nan 10 0.55
D4 80 0.4 5 0.3

".

(** What is left of [s] behind [p], when [s] starts with [p] in some letter
    case. *)
Fixpoint starts_nocase (p s : string) : option string :=
  match p, s with
  | EmptyString, _ => Some s
  | String a p', String c s' =>
      if Distributed.tolower a =? Distributed.tolower c
      then starts_nocase p' s' else None
  | String _ _, EmptyString => None
  end.

(** What a library makes of a text that is not a decimal numeral before
    white space: it reads [nan], [inf] and [infinity] in any letter case,
    with a sign before them, and carries 0 for them; it reads a decimal
    numeral whatever follows it. *)
Definition scan_nan_inf (s : string) : option (Q * string) :=
  let (_, s1) := Distributed.scan_sign (Distributed.skip_space s) in
  match starts_nocase "infinity" s1 with
  | Some rest => Some (0%Q, rest)
  | None =>
      match starts_nocase "inf" s1 with
      | Some rest => Some (0%Q, rest)
      | None =>
          match starts_nocase "nan" s1 with
          | Some rest => Some (0%Q, rest)
          | None => Distributed.scan_decimal s
          end
      end
  end.

(** An allocation that returns unless the number of elements is negative,
    sizes of a 64-bit machine, and a [protocol_init] that returns. *)
Definition sample_calloc2 (nmemb size : Z) : bool := 0 <=? nmemb.
Definition sample_sizeof_distributed : Z := 48.
Definition sample_sizeof_pointer : Z := 8.
Definition sample_protocol_init (slave_port : string)
    (proxy_port : option string) (max_slaves : Z) : bool := true.

Definition column_of (c : ascii) : Z :=
  let n := Distributed.tolower c in
  n - 97 - (if n >? 105 then 1 else 0) + 1.

Definition sample_str2coord (str : string) (size : Z) : Distributed.coord_t :=
  match str with
  | String c rest =>
      match Distributed.scan_digits rest 0 0 with
      | (row, _, _) => column_of c + row * size
      end
  | EmptyString => pass
  end.

(** Printers for the examples: colors by name, numbers in decimal, values
    cut after the decimals asked for, coordinates as a column letter and a
    row number. *)
Definition sample_stone2str (s : stone) : string :=
  match s with
  | S_NONE => "none"
  | S_BLACK => "black"
  | S_WHITE => "white"
  | S_OFFBOARD => "offboard"
  end.

Definition sample_fmt_d (z : Z) : string :=
  NilZero.string_of_int (Z.to_int z).

Definition sample_fmt_f (n : nat) (q : Q) : string :=
  let scale := 10 ^ Z.of_nat n in
  let scaled := (Qnum q * scale) / Z.pos (Qden q) in
  (sample_fmt_d (scaled / scale) ++ "."
   ++ Distributed.str_tail (sample_fmt_d (scale + scaled mod scale)))%string.

Definition sample_coord2sstr (c : Distributed.coord_t) (b : board) : string :=
  if c =? pass then "pass"%string
  else
    let col := c mod board_size b in
    String (ascii_of_nat (Z.to_nat (64 + col + (if col >=? 9 then 1 else 0))))
           (sample_fmt_d (c / board_size b)).

(** A table with 80 playouts on D4, 50 on C3 and none elsewhere. *)
Definition sample_stats : Distributed.stats_table :=
  fun c =>
    if c =? 48 then
      Distributed.mk_stats2 (Distributed.mk_stats 80 (4 # 10))
                            (Distributed.mk_stats 5 (3 # 10))
    else if c =? 36 then
      Distributed.mk_stats2 (Distributed.mk_stats 50 (6 # 10))
                            (Distributed.mk_stats 10 (55 # 100))
    else Distributed.no_stats2.

Definition games_only : Distributed.time_info :=
  Distributed.mk_time_info Distributed.TD_GAMES 0 0 0 0.

(** Answers to [final_status_list dead]: the same group written in upper
    and in lower case, and another group. *)
Definition dead_upper : string :=
  "=3 D4

".
Definition dead_lower : string :=
  "=3 d4

".
Definition dead_other : string :=
  "=3 E5

".

Definition five_answers : list string :=
  [dead_upper; dead_lower; dead_lower; dead_upper; dead_upper].
Definition eight_answers : list string :=
  five_answers ++ [dead_other; dead_other; dead_other].

End Samples.

(* ================================================================== *)
(** * Part II: properties                                              *)
(* ================================================================== *)

Section TreeFacts.
Import Tree.

(** ** Normalize *)

Lemma for_each_total {A B : Type} (f : A -> option B) (R : A -> B -> Prop)
    (l : list A) :
  Forall (fun a => exists v, f a = Some v /\ R a v) l ->
  exists l', for_each f l = Some l' /\ Forall2 R l l'.
Proof.
  induction 1 as [|a l [v [Hv Ra]] _ [l' [Hl' Rl]]]; simpl.
  - exists []. split; [reflexivity | constructor].
  - rewrite Hv, Hl'. exists (v :: l'). split; [reflexivity | now constructor].
Qed.

Lemma Forall2_nth_error {A B : Type} (R : A -> B -> Prop) l l' :
  Forall2 R l l' ->
  forall i a, nth_error l i = Some a ->
  exists v, nth_error l' i = Some v /\ R a v.
Proof.
  induction 1 as [|a0 v0 l l' Hr _ IH]; intros [|i] a Hi; simpl in *;
    try discriminate.
  - inversion Hi; subst. now exists v0.
  - now apply IH.
Qed.

Lemma Forall2_nth_error_rev {A B : Type} (R : A -> B -> Prop) l l' :
  Forall2 R l l' ->
  forall i v, nth_error l' i = Some v ->
  exists a, nth_error l i = Some a /\ R a v.
Proof.
  induction 1 as [|a0 v0 l l' Hr _ IH]; intros [|i] v Hi; simpl in *;
    try discriminate.
  - inversion Hi; subst. now exists a0.
  - now apply IH.
Qed.

Lemma normalize_node_rebased (n : tree_node) (f : Z) :
  f <> 0 ->
  exists n', normalize_node n f = Some n' /\ rebased f n n' /\
             children n' = children n.
Proof.
  intros Hf. apply Z.eqb_neq in Hf.
  unfold normalize_node, normalize_stats, int_div. rewrite !Hf.
  eexists. split; [reflexivity|].
  unfold rebased; simpl. repeat split.
Qed.

Lemma tree_node_normalize_unfold (n : tree_node) (f : Z) :
  tree_node_normalize n f =
  match for_each (fun ni => tree_node_normalize ni f) (children n) with
  | None => None
  | Some l => normalize_node (set_children n l) f
  end.
Proof. destruct n; reflexivity. Qed.

Lemma tree_node_normalize_spec (f : Z) :
  f <> 0 ->
  forall n, exists n',
    tree_node_normalize n f = Some n' /\
    (forall p m, subnode p n = Some m ->
       exists m', subnode p n' = Some m' /\ rebased f m m') /\
    (forall p m', subnode p n' = Some m' ->
       exists m, subnode p n = Some m).
Proof.
  intros Hf n. induction n as [h dp c su sp sa spu spa hi kids IH]
    using tree_node_ind.
  rewrite tree_node_normalize_unfold. simpl children.
  destruct (for_each_total (fun ni => tree_node_normalize ni f)
              (fun k k' =>
                 (forall p m, subnode p k = Some m ->
                    exists m', subnode p k' = Some m' /\ rebased f m m') /\
                 (forall p m', subnode p k' = Some m' ->
                    exists m, subnode p k = Some m))
              kids IH) as [kids' [Hk R]].
  rewrite Hk.
  destruct (normalize_node_rebased
              (set_children (mk_node h dp c su sp sa spu spa hi kids) kids')
              f Hf) as [n' [Hn' [Hreb Hch]]].
  exists n'. split; [exact Hn'|]. simpl in Hch. split.
  - intros [|i p] m Hm; simpl in *.
    + inversion Hm; subst. exists n'. split; [reflexivity | exact Hreb].
    + rewrite Hch. destruct (nth_error kids i) as [k|] eqn:Hi;
        [|discriminate].
      destruct (Forall2_nth_error _ _ _ R i k Hi) as [k' [Hi' [Hfw _]]].
      rewrite Hi'. now apply Hfw.
  - intros [|i p] m' Hm'; simpl in *.
    + eexists; reflexivity.
    + rewrite Hch in Hm'. destruct (nth_error kids' i) as [k'|] eqn:Hi';
        [|discriminate].
      destruct (Forall2_nth_error_rev _ _ _ R i k' Hi') as [k [Hi [_ Hbw]]].
      rewrite Hi. now apply (Hbw p m').
Qed.

(** ** Merge *)

Lemma find_coord_some (c : coord_t) (l : list tree_node) (k : tree_node) :
  find (fun k => coord k =? c) l = Some k -> In k l /\ coord k = c.
Proof.
  intros Hf. apply find_some in Hf. destruct Hf as [Hin Hc].
  apply Z.eqb_eq in Hc. now split.
Qed.

Lemma find_coord_skip (c : coord_t) (l1 l2 : list tree_node) :
  (forall k, In k l1 -> coord k <> c) ->
  find (fun k => coord k =? c) (l1 ++ l2) = find (fun k => coord k =? c) l2.
Proof.
  induction l1 as [|a l1 IH]; intros Hno; simpl; [reflexivity|].
  destruct (coord a =? c) eqn:E.
  - apply Z.eqb_eq in E. exfalso. apply (Hno a); [now left | exact E].
  - apply IH. intros k Hk. apply Hno. now right.
Qed.

Lemma find_sibling_some (c : coord_t) (l sk rest : list tree_node) m :
  find_sibling c l = Some (sk, m, rest) ->
  l = sk ++ m :: rest /\ coord m = c /\ (forall k, In k sk -> coord k <> c).
Proof.
  revert sk m rest. induction l as [|a l IH]; intros sk m rest; simpl;
    [discriminate|].
  destruct (c =? coord a) eqn:E.
  - intros Hs; inversion Hs; subst. apply Z.eqb_eq in E.
    repeat split; [now symmetry | intros k []].
  - destruct (find_sibling c l) as [[[sk0 m0] rest0]|]; [|discriminate].
    intros Hs; inversion Hs; subst.
    destruct (IH _ _ _ eq_refl) as [Hl [Hm Hno]]. subst l.
    repeat split; [exact Hm|]. apply Z.eqb_neq in E.
    intros k [<-|Hk]; [congruence | now apply Hno].
Qed.

Lemma find_sibling_none (c : coord_t) (l : list tree_node) :
  find_sibling c l = None -> forall k, In k l -> coord k <> c.
Proof.
  induction l as [|a l IH]; simpl; [intros _ k []|].
  destruct (c =? coord a) eqn:E; [discriminate|].
  destruct (find_sibling c l) as [[[sk0 m0] rest0]|]; [discriminate|].
  intros _ k [<-|Hk]; [apply Z.eqb_neq in E; congruence | now apply IH].
Qed.

Section SortedSiblings.
Variable lt : coord_t -> coord_t -> Prop.
Hypothesis lt_irrefl : forall c, ~ lt c c.
Hypothesis lt_trans : forall a b c, lt a b -> lt b c -> lt a c.

Lemma sorted_head_below (a : tree_node) (l : list tree_node) :
  StronglySorted lt (map coord (a :: l)) ->
  forall k, In k l -> lt (coord a) (coord k).
Proof.
  simpl. intros Hs k Hk. apply StronglySorted_inv in Hs.
  destruct Hs as [_ Hall]. rewrite Forall_forall in Hall.
  apply Hall. now apply in_map.
Qed.

Lemma sorted_tail (a : tree_node) (l : list tree_node) :
  StronglySorted lt (map coord (a :: l)) -> StronglySorted lt (map coord l).
Proof. simpl. intros Hs. now apply StronglySorted_inv in Hs. Qed.

Lemma sorted_app_after (l1 l2 : list tree_node) :
  StronglySorted lt (map coord (l1 ++ l2)) -> StronglySorted lt (map coord l2).
Proof.
  induction l1 as [|a l1 IH]; simpl; [trivial|].
  intros Hs. apply StronglySorted_inv in Hs. now apply IH.
Qed.

Lemma sorted_app_below (l1 : list tree_node) (m : tree_node) l2 :
  StronglySorted lt (map coord (l1 ++ m :: l2)) ->
  forall k, In k l1 -> lt (coord k) (coord m).
Proof.
  induction l1 as [|a l1 IH]; simpl; [intros _ k []|].
  intros Hs k [<-|Hk].
  - apply StronglySorted_inv in Hs. destruct Hs as [_ Hall].
    rewrite Forall_forall in Hall. apply Hall.
    rewrite map_app. apply in_or_app. right. now left.
  - apply StronglySorted_inv in Hs. now apply IH.
Qed.

(** The loop over two sorted child lists pairs every coordinate they share:
    if the recursive call succeeds on those pairs, the loop succeeds, and
    the child of the result at a shared coordinate is the merged pair. *)
Lemma merge_children_pairs
    (m : tree_node -> tree_node -> option tree_node) :
  forall dl sl,
    StronglySorted lt (map coord dl) ->
    StronglySorted lt (map coord sl) ->
    (forall c dn sn,
        find (fun k => coord k =? c) dl = Some dn ->
        find (fun k => coord k =? c) sl = Some sn ->
        exists dn', m dn sn = Some dn' /\ coord dn' = coord dn) ->
    exists r,
      merge_children m dl sl = Some r /\
      forall c dn sn,
        find (fun k => coord k =? c) dl = Some dn ->
        find (fun k => coord k =? c) sl = Some sn ->
        exists dn', m dn sn = Some dn' /\
                    find (fun k => coord k =? c) r = Some dn'.
Proof.
  induction dl as [|di dl IH]; intros sl Hd Hs Hm.
  - exists sl. split; [reflexivity|]. intros c dn sn Hf. discriminate.
  - destruct sl as [|si sl].
    + exists (di :: dl). split; [reflexivity|]. intros c dn sn _ Hf.
      discriminate.
    + assert (Hdi : forall k, In k dl -> coord k <> coord di).
      { intros k Hk E. apply (lt_irrefl (coord di)).
        rewrite <- E at 2. now apply (sorted_head_below di dl). }
      simpl merge_children. destruct (coord di =? coord si) eqn:E.
      * (* matching heads *)
        apply Z.eqb_eq in E.
        destruct (Hm (coord di) di si) as [di' [Hdi' Hc]].
        { simpl. now rewrite Z.eqb_refl. }
        { simpl. rewrite <- E. now rewrite Z.eqb_refl. }
        rewrite Hdi'.
        destruct (IH sl (sorted_tail _ _ Hd) (sorted_tail _ _ Hs))
          as [r [Hr Hfind]].
        { intros c dn sn Hfd Hfs.
          destruct (find_coord_some _ _ _ Hfd) as [Hin Hcd].
          apply (Hm c); simpl.
          - destruct (coord di =? c) eqn:E1; [|exact Hfd].
            apply Z.eqb_eq in E1. exfalso. apply (Hdi dn Hin). congruence.
          - destruct (coord si =? c) eqn:E1; [|exact Hfs].
            apply Z.eqb_eq in E1. exfalso. apply (Hdi dn Hin). congruence. }
        rewrite Hr. exists (di' :: r). split; [reflexivity|].
        intros c dn sn Hfd Hfs. simpl in Hfd, Hfs. simpl.
        rewrite Hc. rewrite <- E in Hfs.
        destruct (coord di =? c) eqn:E1.
        -- inversion Hfd; inversion Hfs; subst. now exists di'.
        -- now apply Hfind.
      * apply Z.eqb_neq in E.
        destruct (find_sibling (coord di) sl) as [[[sk si2] sl2]|] eqn:Hfs2.
        -- (* [di] found further down in [src] *)
           destruct (find_sibling_some _ _ _ _ _ Hfs2) as [Hsl [Hc2 Hsk]].
           subst sl.
           assert (Hbefore : forall k, In k (si :: sk) -> coord k <> coord di).
           { intros k [<-|Hk]; [congruence | now apply Hsk]. }
           assert (Hlow : forall k, In k (si :: sk) ->
                                    lt (coord k) (coord di)).
           { intros k Hk. rewrite <- Hc2.
             apply (sorted_app_below (si :: sk) si2 sl2); assumption. }
           destruct (Hm (coord di) di si2) as [di' [Hdi' Hc]].
           { simpl. now rewrite Z.eqb_refl. }
           { change (si :: sk ++ si2 :: sl2) with ((si :: sk) ++ si2 :: sl2).
             rewrite find_coord_skip by exact Hbefore.
             simpl. rewrite Hc2. now rewrite Z.eqb_refl. }
           rewrite Hdi'.
           assert (Hs2 : StronglySorted lt (map coord sl2)).
           { apply (sorted_tail si2).
             apply (sorted_app_after (si :: sk)). exact Hs. }
           assert (Hup : forall c dn, find (fun k => coord k =? c) dl = Some dn ->
                           forall k, In k ((si :: sk) ++ [si2]) -> coord k <> c).
           { intros c dn Hfd k Hk Ek.
             destruct (find_coord_some _ _ _ Hfd) as [Hin Hcd].
             assert (Hdc : lt (coord di) c).
             { rewrite <- Hcd. now apply (sorted_head_below di dl). }
             apply in_app_or in Hk. destruct Hk as [Hk|[<-|[]]].
             - apply (lt_irrefl c). apply lt_trans with (coord di);
                 [|exact Hdc]. rewrite <- Ek. now apply Hlow.
             - apply (lt_irrefl c). rewrite <- Ek at 1. now rewrite Hc2. }
           destruct (IH sl2 (sorted_tail _ _ Hd) Hs2) as [r [Hr Hfind]].
           { intros c dn sn Hfd Hfs.
             destruct (find_coord_some _ _ _ Hfd) as [Hin Hcd].
             apply (Hm c).
             - simpl. destruct (coord di =? c) eqn:E1; [|exact Hfd].
               apply Z.eqb_eq in E1. exfalso. apply (Hdi dn Hin). congruence.
             - change (si :: sk ++ si2 :: sl2)
                 with ((si :: sk) ++ [si2] ++ sl2).
               rewrite app_assoc.
               rewrite find_coord_skip by exact (Hup c dn Hfd). exact Hfs. }
           rewrite Hr. exists ((si :: sk) ++ di' :: r).
           split; [reflexivity|].
           intros c dn sn Hfd Hfs. simpl in Hfd.
           destruct (coord di =? c) eqn:E1.
           ++ inversion Hfd; subst dn. apply Z.eqb_eq in E1. subst c.
              change (si :: sk ++ si2 :: sl2)
                with ((si :: sk) ++ si2 :: sl2) in Hfs.
              rewrite find_coord_skip in Hfs by exact Hbefore.
              simpl in Hfs. rewrite Hc2, Z.eqb_refl in Hfs.
              inversion Hfs; subst sn. exists di'. split; [exact Hdi'|].
              rewrite find_coord_skip by exact Hbefore.
              simpl. now rewrite Hc, Z.eqb_refl.
           ++ change (si :: sk ++ si2 :: sl2)
                with ((si :: sk) ++ [si2] ++ sl2) in Hfs.
              rewrite app_assoc in Hfs.
              rewrite find_coord_skip in Hfs by exact (Hup c dn Hfd).
              destruct (Hfind c dn sn Hfd Hfs) as [dn' [Hdn' Hfr]].
              exists dn'. split; [exact Hdn'|].
              rewrite find_coord_skip.
              ** simpl. now rewrite Hc, E1.
              ** intros k Hk. apply (Hup c dn Hfd). apply in_or_app. now left.
        -- (* [src] has no node for [di] *)
           pose proof (find_sibling_none _ _ Hfs2) as Hno.
           destruct (IH (si :: sl) (sorted_tail _ _ Hd) Hs) as [r [Hr Hfind]].
           { intros c dn sn Hfd Hfs.
             destruct (find_coord_some _ _ _ Hfd) as [Hin Hcd].
             apply (Hm c); [|exact Hfs].
             simpl. destruct (coord di =? c) eqn:E1; [|exact Hfd].
             apply Z.eqb_eq in E1. exfalso. apply (Hdi dn Hin). congruence. }
           rewrite Hr. exists (di :: r). split; [reflexivity|].
           intros c dn sn Hfd Hfs. simpl in Hfd. simpl.
           destruct (coord di =? c) eqn:E1.
           ++ apply Z.eqb_eq in E1. exfalso.
              destruct (find_coord_some _ _ _ Hfs) as [[<-|Hin] Hcs].
              ** congruence.
              ** apply (Hno sn Hin). congruence.
           ++ now apply Hfind.
Qed.

Lemma tree_node_merge_unfold (H : tree_h) (a : bool) (dest src : tree_node) :
  tree_node_merge H a dest src =
  if negb (playouts (pamaf dest) =? playouts (pamaf src)) then None
  else if negb (playouts (pu dest) =? playouts (pu src)) then None
  else if untouched src then Some dest
  else
    match merge_children (tree_node_merge H a) (children dest) (children src)
    with
    | None => None
    | Some kids =>
        merge_stats H a
          (set_children (set_hints dest (Z.lor (hints dest) (hints src))) kids)
          src
    end.
Proof. destruct dest; reflexivity. Qed.

(** The tail of the merge adds the counters of [src] and keeps the rest. *)
Lemma merge_stats_inv (H : tree_h) (a : bool) (dn src dn' : tree_node) :
  merge_stats H a dn src = Some dn' ->
  coord dn' = coord dn /\ children dn' = children dn /\
  hints dn' = hints dn /\
  playouts (u dn') = playouts (u dn) + playouts (u src) /\
  wins (u dn') = wins (u dn) + wins (u src) /\
  playouts (amaf dn') = playouts (amaf dn) + playouts (amaf src) /\
  wins (amaf dn') = wins (amaf dn) + wins (amaf src).
Proof.
  unfold merge_stats.
  destruct (negb _); [discriminate|].
  set (d1 := set_amaf dn (add_stats (amaf dn) (amaf src))).
  set (d2 := if playouts (amaf d1) =? 0 then d1
             else tree_update_node_rvalue H d1 a).
  set (d3 := set_u d2 (add_stats (u d2) (u src))).
  intros Hs. injection Hs as Hd4.
  assert (S12 : same_counts d1 d2).
  { unfold d2. destruct (playouts (amaf d1) =? 0);
      [unfold same_counts; repeat split | apply rvalue_keeps_counts]. }
  assert (S34 : same_counts d3 dn').
  { rewrite <- Hd4.
    match goal with |- same_counts _ (if ?t then _ else _) => destruct t end;
      [unfold same_counts; repeat split | apply value_keeps_counts]. }
  destruct S12 as (_ & _ & C2 & H2 & K2 & [U2 UW2] & _ & [A2 AW2] & _).
  destruct S34 as (_ & _ & C4 & H4 & K4 & [U4 UW4] & _ & [A4 AW4] & _).
  clear Hd4. simpl in *. rewrite C4, K4, H4, U4, UW4, A4, AW4.
  rewrite C2, K2, H2, U2, UW2, A2, AW2. repeat split.
Qed.

Lemma merge_stats_some (H : tree_h) (a : bool) (dn src : tree_node) :
  playouts (prior dn) = playouts (prior src) ->
  wins (prior dn) = wins (prior src) ->
  exists dn', merge_stats H a dn src = Some dn'.
Proof.
  intros Hp Hw. unfold merge_stats. rewrite Hp, Hw, !Z.eqb_refl. simpl.
  eexists; reflexivity.
Qed.

(** The merge of two sorted trees that agree wherever the recursion goes:
    it returns, and the node at every visited position has the counters of
    [dest] plus, when the node of [src] was touched, the counters of
    [src]. *)
Lemma tree_node_merge_visited (H : tree_h) (a : bool) :
  forall dest src,
    ordered lt dest -> ordered lt src ->
    (forall p dn sn,
        descend p dest = Some dn -> descend p src = Some sn ->
        reached p src = true -> agree dn sn) ->
    exists dest',
      tree_node_merge H a dest src = Some dest' /\
      coord dest' = coord dest /\
      forall p dn sn,
        descend p dest = Some dn -> descend p src = Some sn ->
        reached p src = true ->
        exists dn',
          descend p dest' = Some dn' /\
          playouts (u dn') =
            playouts (u dn) + (if untouched sn then 0 else playouts (u sn)) /\
          playouts (amaf dn') =
            playouts (amaf dn) +
            (if untouched sn then 0 else playouts (amaf sn)).
Proof.
  induction dest as [h dp c su sp sa spu spa hi kids IH] using tree_node_ind.
  intros src Hod Hos Hag.
  set (dest := mk_node h dp c su sp sa spu spa hi kids) in *.
  destruct (Hag [] dest src eq_refl eq_refl eq_refl) as (Bpa & Bpu & Pp & Pw).
  rewrite tree_node_merge_unfold. rewrite Bpa, Bpu, !Z.eqb_refl. simpl negb.
  cbv iota. destruct (untouched src) eqn:Hun.
  - exists dest. repeat split.
    intros [|c0 p] dn sn Hd Hs Hr; simpl in *.
    + inversion Hd; inversion Hs; subst. rewrite Hun. exists dest.
      repeat split; lia.
    + rewrite Hun in Hr. discriminate.
  - inversion Hod as [n Hsd Hkd]; subst n. inversion Hos as [n Hss Hks]; subst n.
    simpl children in *. rewrite Forall_forall in IH, Hkd, Hks.
    assert (Hstep : forall c0 k sk,
               find (fun k => coord k =? c0) kids = Some k ->
               find (fun k => coord k =? c0) (children src) = Some sk ->
               exists k',
                 tree_node_merge H a k sk = Some k' /\ coord k' = coord k /\
                 forall p dn sn,
                   descend p k = Some dn -> descend p sk = Some sn ->
                   reached p sk = true ->
                   exists dn',
                     descend p k' = Some dn' /\
                     playouts (u dn') =
                       playouts (u dn) +
                       (if untouched sn then 0 else playouts (u sn)) /\
                     playouts (amaf dn') =
                       playouts (amaf dn) +
                       (if untouched sn then 0 else playouts (amaf sn))).
    { intros c0 k sk Hfk Hfs.
      destruct (find_coord_some _ _ _ Hfk) as [Hink _].
      destruct (find_coord_some _ _ _ Hfs) as [Hins _].
      apply (IH k Hink sk (Hkd k Hink) (Hks sk Hins)).
      intros p dn sn Hd Hs Hr. apply (Hag (c0 :: p)); simpl.
      - unfold child_at. simpl children. now rewrite Hfk.
      - unfold child_at. now rewrite Hfs.
      - unfold child_at. now rewrite Hun, Hfs. }
    destruct (merge_children_pairs (tree_node_merge H a) kids (children src)
                Hsd Hss) as [r [Hr Hfind]].
    { intros c0 k sk Hfk Hfs.
      destruct (Hstep c0 k sk Hfk Hfs) as [k' [Hk' [Hc' _]]]. now exists k'. }
    rewrite Hr.
    destruct (merge_stats_some H a
                (set_children (set_hints dest (Z.lor (hints dest) (hints src))) r)
                src Pp Pw) as [dest' Hdest'].
    rewrite Hdest'. exists dest'.
    destruct (merge_stats_inv _ _ _ _ _ Hdest')
      as (Hc & Hk & _ & Hu & _ & Ha & _).
    simpl in Hc, Hk, Hu, Ha. repeat split; [exact Hc|].
    intros [|c0 p] dn sn Hd Hs Hre.
    + simpl in Hd, Hs. inversion Hd; inversion Hs; subst dn sn.
      rewrite Hun. exists dest'. repeat split; assumption.
    + simpl in Hd, Hs, Hre. unfold child_at in Hd, Hs, Hre.
      simpl children in Hd.
      destruct (find (fun k => coord k =? c0) kids) as [k|] eqn:Hfk;
        [|discriminate].
      destruct (find (fun k => coord k =? c0) (children src)) as [sk|] eqn:Hfs;
        [|discriminate].
      rewrite Hun in Hre. simpl in Hre.
      destruct (Hfind c0 k sk Hfk Hfs) as [k' [Hk' Hfr]].
      destruct (Hstep c0 k sk Hfk Hfs) as [k'' [Hk'' [_ Hpaths]]].
      rewrite Hk' in Hk''. inversion Hk''; subst k''.
      destruct (Hpaths p dn sn Hd Hs Hre) as [dn' [Hdn' Hcounts]].
      exists dn'. split; [|exact Hcounts].
      simpl. unfold child_at. rewrite Hk, Hfr. exact Hdn'.
Qed.

End SortedSiblings.

(** C3. For every tree and every factor other than zero, [tree_normalize]
    returns a tree of the same shape in which, at every node and in both
    channels, playouts and wins are the baseline plus the gain since the
    baseline divided by the factor, and the baselines [pu] and [pamaf] are
    exactly the new [u] and [amaf]. (A zero factor is a division by zero.) *)
Theorem tree_normalize_rebases_every_node (t : tree) (f : Z) :
  f <> 0 ->
  exists t',
    tree_normalize t f = Some t' /\
    (forall p n, subnode p (root t) = Some n ->
       exists n', subnode p (root t') = Some n' /\ rebased f n n') /\
    (forall p n', subnode p (root t') = Some n' ->
       exists n, subnode p (root t) = Some n).
Proof.
  intros Hf. unfold tree_normalize.
  destruct (tree_node_normalize_spec f Hf (root t)) as [r [Hr [Hfw Hbw]]].
  rewrite Hr. exists (set_root t r). split; [reflexivity|]. simpl. now split.
Qed.

Lemma tree_normalize_rebases_witness :
  exists t',
    tree_normalize Samples.run_a 2 = Some t' /\
    (forall p n, subnode p (root Samples.run_a) = Some n ->
       exists n', subnode p (root t') = Some n' /\ rebased 2 n n') /\
    (forall p n', subnode p (root t') = Some n' ->
       exists n, subnode p (root Samples.run_a) = Some n).
Proof. apply (tree_normalize_rebases_every_node Samples.run_a 2). lia. Defined.

(** C7, as the code has it. With equal baselines, a pair of nodes is skipped
    exactly when [src] gained no playout in either channel, whatever [dest]
    gained: then [dest] is returned as it is; otherwise the hints are OR-ed,
    the child lists are merged and the counters of [src] are added. *)
Theorem tree_node_merge_skips_iff_src_untouched
    (H : tree_h) (a : bool) (dest src : tree_node) :
  playouts (pamaf dest) = playouts (pamaf src) ->
  playouts (pu dest) = playouts (pu src) ->
  (untouched src = true -> tree_node_merge H a dest src = Some dest) /\
  (untouched src = false ->
   forall dest', tree_node_merge H a dest src = Some dest' ->
     hints dest' = Z.lor (hints dest) (hints src) /\
     merge_children (tree_node_merge H a) (children dest) (children src)
       = Some (children dest') /\
     playouts (u dest') = playouts (u dest) + playouts (u src) /\
     wins (u dest') = wins (u dest) + wins (u src) /\
     playouts (amaf dest') = playouts (amaf dest) + playouts (amaf src) /\
     wins (amaf dest') = wins (amaf dest) + wins (amaf src)).
Proof.
  intros Ba Bu. rewrite tree_node_merge_unfold, Ba, Bu, !Z.eqb_refl.
  simpl negb. cbv iota. split; intros Hun; rewrite Hun; [reflexivity|].
  intros dest'.
  destruct (merge_children _ _ _) as [kids|]; [|discriminate].
  intros Hm. apply merge_stats_inv in Hm. simpl in Hm.
  destruct Hm as (_ & Hk & Hh & Hu & Huw & Hamaf & Haw).
  rewrite Hk. repeat split; assumption.
Qed.

Lemma tree_node_merge_skips_witness :
  (untouched Samples.idle_node = true ->
   tree_node_merge Samples.mean_h false Samples.busy_node Samples.idle_node
     = Some Samples.busy_node) /\
  (untouched Samples.idle_node = false ->
   forall dest',
     tree_node_merge Samples.mean_h false Samples.busy_node Samples.idle_node
       = Some dest' ->
     hints dest' = Z.lor (hints Samples.busy_node) (hints Samples.idle_node) /\
     merge_children (tree_node_merge Samples.mean_h false)
       (children Samples.busy_node) (children Samples.idle_node)
       = Some (children dest') /\
     playouts (u dest') =
       playouts (u Samples.busy_node) + playouts (u Samples.idle_node) /\
     wins (u dest') = wins (u Samples.busy_node) + wins (u Samples.idle_node) /\
     playouts (amaf dest') =
       playouts (amaf Samples.busy_node) + playouts (amaf Samples.idle_node) /\
     wins (amaf dest') =
       wins (amaf Samples.busy_node) + wins (amaf Samples.idle_node)).
Proof.
  apply (tree_node_merge_skips_iff_src_untouched Samples.mean_h false
           Samples.busy_node Samples.idle_node); reflexivity.
Defined.

(** C7 as stated fails: [dest] gained five playouts since its baseline, yet
    the pair is skipped because [src] gained none; the hint bit and the
    child of [src] do not reach [dest]. *)
Lemma tree_node_merge_skips_touched_dest :
  untouched Samples.busy_node = false /\
  untouched Samples.idle_node = true /\
  tree_node_merge Samples.mean_h false Samples.busy_node Samples.idle_node
    = Some Samples.busy_node /\
  hints Samples.busy_node
    <> Z.lor (hints Samples.busy_node) (hints Samples.idle_node) /\
  children Samples.busy_node = [] /\ children Samples.idle_node <> [].
Proof.
  repeat split; try reflexivity; vm_compute; discriminate.
Qed.

(** C1, as the code has it. Let [dest] and [src] have sibling lists sorted
    by one strict order and agree (baseline playouts, priors) on every pair
    of nodes the merge visits. Then [tree_merge] returns, and each visited
    node of [dest] ends with its former playouts plus the whole playout
    count of its [src] node when that node was touched since the baseline,
    and unchanged when it was not; in both channels. This is the former
    count plus the gain of [src] exactly when the node of [src] was not
    touched or its baseline count in the channel is zero. *)
Theorem tree_merge_adds_src_counts
    (lt : coord_t -> coord_t -> Prop) (H : tree_h) (a : bool)
    (dest src : tree) :
  (forall c, ~ lt c c) ->
  (forall x y z, lt x y -> lt y z -> lt x z) ->
  ordered lt (root dest) -> ordered lt (root src) ->
  (forall p dn sn,
      descend p (root dest) = Some dn -> descend p (root src) = Some sn ->
      reached p (root src) = true -> agree dn sn) ->
  exists dest',
    tree_merge H a dest src = Some dest' /\
    forall p dn sn,
      descend p (root dest) = Some dn -> descend p (root src) = Some sn ->
      reached p (root src) = true ->
      exists dn',
        descend p (root dest') = Some dn' /\
        playouts (u dn') =
          playouts (u dn) + (if untouched sn then 0 else playouts (u sn)) /\
        playouts (amaf dn') =
          playouts (amaf dn) +
          (if untouched sn then 0 else playouts (amaf sn)) /\
        (playouts (u dn') =
           playouts (u dn) + (playouts (u sn) - playouts (pu sn))
         <-> untouched sn = true \/ playouts (pu sn) = 0) /\
        (playouts (amaf dn') =
           playouts (amaf dn) + (playouts (amaf sn) - playouts (pamaf sn))
         <-> untouched sn = true \/ playouts (pamaf sn) = 0).
Proof.
  intros Hirr Htr Hod Hos Hag. unfold tree_merge.
  destruct (tree_node_merge_visited lt Hirr Htr H a (root dest) (root src)
              Hod Hos Hag) as [r [Hr [_ Hpaths]]].
  rewrite Hr. eexists. split; [reflexivity|]. simpl.
  intros p dn sn Hd Hs Hre.
  destruct (Hpaths p dn sn Hd Hs Hre) as [dn' [Hdn' [Hu Ha]]].
  exists dn'. split; [exact Hdn'|]. split; [exact Hu|]. split; [exact Ha|].
  rewrite Hu, Ha. clear Hu Ha.
  destruct (untouched sn) eqn:Hun.
  - unfold untouched in Hun. apply andb_prop in Hun.
    destruct Hun as [Ea Eu]. apply Z.eqb_eq in Ea. apply Z.eqb_eq in Eu.
    split; (split; [intros _; now left | intros _; lia]).
  - split; (split; [intros E; right; lia
                   | intros [E|E]; [discriminate | lia]]).
Qed.

Lemma tree_merge_adds_src_counts_witness :
  exists dest',
    tree_merge Samples.mean_h false Samples.run_a Samples.run_b = Some dest' /\
    forall p dn sn,
      descend p (root Samples.run_a) = Some dn ->
      descend p (root Samples.run_b) = Some sn ->
      reached p (root Samples.run_b) = true ->
      exists dn',
        descend p (root dest') = Some dn' /\
        playouts (u dn') =
          playouts (u dn) + (if untouched sn then 0 else playouts (u sn)) /\
        playouts (amaf dn') =
          playouts (amaf dn) +
          (if untouched sn then 0 else playouts (amaf sn)) /\
        (playouts (u dn') =
           playouts (u dn) + (playouts (u sn) - playouts (pu sn))
         <-> untouched sn = true \/ playouts (pu sn) = 0) /\
        (playouts (amaf dn') =
           playouts (amaf dn) + (playouts (amaf sn) - playouts (pamaf sn))
         <-> untouched sn = true \/ playouts (pamaf sn) = 0).
Proof.
  apply (tree_merge_adds_src_counts Z.lt Samples.mean_h false
           Samples.run_a Samples.run_b).
  - intros c. apply Z.lt_irrefl.
  - intros x y z. apply Z.lt_trans.
  - repeat (constructor; simpl).
  - repeat (constructor; simpl).
  - intros [|c [|c' p]] dn sn Hd Hs _; unfold child_at in Hd, Hs;
      cbn -[Z.eqb] in Hd, Hs.
    + inversion Hd; subst dn. inversion Hs; subst sn. repeat split.
    + destruct (60 =? c); [|discriminate].
      inversion Hd; subst dn. inversion Hs; subst sn. repeat split.
    + unfold child_at in Hd. cbn -[Z.eqb] in Hd.
      destruct (60 =? c); discriminate.
Defined.

(** C1 as stated fails: both runs start from a root with baseline 4; [dest]
    has 10 playouts and [src] has 7, a gain of 3. The merge leaves 17 at the
    root, not 13, and 11 at the child where the gain of 1 would give 7. *)
Lemma tree_merge_counts_baseline_again :
  pu (root Samples.run_a) = pu (root Samples.run_b) /\
  pamaf (root Samples.run_a) = pamaf (root Samples.run_b) /\
  exists dest' dn',
    tree_merge Samples.mean_h false Samples.run_a Samples.run_b = Some dest' /\
    playouts (u (root dest')) = 17 /\
    playouts (u (root Samples.run_a)) +
      (playouts (u (root Samples.run_b)) - playouts (pu (root Samples.run_b)))
      = 13 /\
    playouts (amaf (root dest')) = 17 /\
    descend [60] (root dest') = Some dn' /\ playouts (u dn') = 11.
Proof.
  split; [reflexivity|]. split; [reflexivity|].
  eexists. eexists. split; [vm_compute; reflexivity|].
  repeat split.
Qed.

(** ** Promotion *)

Lemma promote_among_absent (t : tree) (c : coord_t) (l : list tree_node) :
  (forall k, In k l -> coord k <> c) -> promote_among t l c = (false, t).
Proof.
  induction l as [|k l IH]; intros Hno; simpl; [reflexivity|].
  destruct (coord k =? c) eqn:E.
  - apply Z.eqb_eq in E. exfalso. apply (Hno k); [now left | exact E].
  - apply IH. intros k' Hk'. apply Hno. now right.
Qed.

Lemma erase_coords_unfold (n : tree_node) :
  erase_coords n = set_children (set_coord n 0) (map erase_coords (children n)).
Proof. destruct n; reflexivity. Qed.

Lemma tree_fix_node_symmetry_unfold (b : board) (n : tree_node)
    (fh fv fd : bool) :
  tree_fix_node_symmetry b n fh fv fd =
  set_children
    (set_coord n (if is_pass (coord n) then coord n
                  else flip_coord b (coord n) fh fv fd))
    (map (fun ni => tree_fix_node_symmetry b ni fh fv fd) (children n)).
Proof. destruct n; reflexivity. Qed.

(** The symmetry fix rewrites coordinates and nothing else. *)
Lemma tree_fix_node_symmetry_erased (b : board) (fh fv fd : bool)
    (n : tree_node) :
  erase_coords (tree_fix_node_symmetry b n fh fv fd) = erase_coords n.
Proof.
  induction n as [h dp c su sp sa spu spa hi kids IH] using tree_node_ind.
  rewrite tree_fix_node_symmetry_unfold.
  rewrite (erase_coords_unfold (set_children _ _)).
  rewrite (erase_coords_unfold (mk_node _ _ _ _ _ _ _ _ _ _)).
  unfold set_children, set_coord.
  cbn [children hash depth u prior amaf pu pamaf hints].
  f_equal. rewrite map_map. apply map_ext_Forall. exact IH.
Qed.

(** C5, as the code has it. When no child of the root carries [c] once the
    symmetry is fixed, [tree_promote_at] returns false and the tree is left
    as [tree_fix_symmetry] made it: board, depth, root color and root
    symmetry as before, every node with its former statistics, hints and
    links, but with its coordinate flipped when [c] lies outside the
    playground. The tree is unchanged when [c] is pass or asks for no
    flip. *)
Theorem tree_promote_at_absent (t : tree) (b : board) (c : coord_t) :
  (forall k, In k (children (root (tree_fix_symmetry t b c))) ->
             coord k <> c) ->
  let t' := snd (tree_promote_at t b c) in
  fst (tree_promote_at t b c) = false /\
  t' = tree_fix_symmetry t b c /\
  tboard t' = tboard t /\ max_depth t' = max_depth t /\
  root_color t' = root_color t /\ root_symmetry t' = root_symmetry t /\
  erase_coords (root t') = erase_coords (root t) /\
  (is_pass c = true \/
   symmetry_flips (root_symmetry t) b c = (false, false, false) -> t' = t).
Proof.
  intros Hno. unfold tree_promote_at.
  rewrite (promote_among_absent _ c _ Hno). simpl.
  split; [reflexivity|]. split; [reflexivity|].
  unfold tree_fix_symmetry.
  destruct (is_pass c) eqn:Hp.
  { repeat split. }
  destruct (symmetry_flips (root_symmetry t) b c) as [[fh fv] fd] eqn:Hfl.
  destruct (fh || fv || fd) eqn:Hany.
  - simpl. repeat split.
    + apply tree_fix_node_symmetry_erased.
    + intros [Habs|Hnone]; [discriminate|].
      injection Hnone as -> -> ->. discriminate.
  - repeat split.
Qed.

Lemma tree_promote_at_absent_witness :
  let t' := snd (tree_promote_at Samples.three_moves Samples.board9 82) in
  fst (tree_promote_at Samples.three_moves Samples.board9 82) = false /\
  t' = tree_fix_symmetry Samples.three_moves Samples.board9 82 /\
  tboard t' = tboard Samples.three_moves /\
  max_depth t' = max_depth Samples.three_moves /\
  root_color t' = root_color Samples.three_moves /\
  root_symmetry t' = root_symmetry Samples.three_moves /\
  erase_coords (root t') = erase_coords (root Samples.three_moves) /\
  (is_pass 82 = true \/
   symmetry_flips (root_symmetry Samples.three_moves) Samples.board9 82
     = (false, false, false) -> t' = Samples.three_moves).
Proof.
  apply (tree_promote_at_absent Samples.three_moves Samples.board9 82).
  vm_compute. intros k [<-|[<-|[<-|[]]]]; vm_compute; discriminate.
Defined.

(** C5 as stated fails: (3,6) lies outside the playground and is no child of
    the root; [tree_promote_at] returns false, but it has mirrored the three
    children from 60, 71, 72 to 60, 59, 70. *)
Lemma tree_promote_at_absent_flips :
  fst (tree_promote_at Samples.three_moves Samples.board9 69) = false /\
  map coord (children (root Samples.three_moves)) = [60; 71; 72] /\
  map coord
    (children (root (snd (tree_promote_at Samples.three_moves
                                          Samples.board9 69))))
    = [60; 59; 70] /\
  snd (tree_promote_at Samples.three_moves Samples.board9 69)
    <> Samples.three_moves.
Proof.
  split; [vm_compute; reflexivity|].
  split; [reflexivity|]. split; [vm_compute; reflexivity|].
  intros Heq.
  apply (f_equal (fun t => map coord (children (root t)))) in Heq.
  vm_compute in Heq. discriminate.
Qed.

(** ** Expansion *)

Lemma init_prior_coord (H : tree_h) (uc : uct) (ni : tree_node)
    (p : move_stats) :
  coord (init_prior H uc ni p) = coord ni.
Proof.
  unfold init_prior.
  destruct (playouts (prior (set_prior ni p)) =? 0); [reflexivity|].
  destruct (amaf_prior uc).
  - destruct (rvalue_keeps_counts H (set_prior ni p) true)
      as (_ & _ & C & _). exact C.
  - destruct (value_keeps_counts H (set_prior ni p) false)
      as (_ & _ & C & _). exact C.
Qed.

Lemma expand_loop_stopped (H : tree_h) t node b uc map (l : list (Z * Z)) :
  fold_left (expand_step H t node b uc map) l None = None.
Proof. induction l as [|ij l IH]; simpl; [reflexivity | exact IH]. Qed.

(** The children the loops of [tree_expand_node] chain up are the
    considered points of the playground in the order the loops visit them. *)
Lemma expand_loop_coords (H : tree_h) t node b color radar uc par
    (l : list (Z * Z)) :
  forall st kids st2 kids2,
    fold_left
      (expand_step H t node b uc
         (mk_prior_map b color par (consider_map b color radar)))
      l (Some (st, kids)) = Some (st2, kids2) ->
    map coord kids2 =
    map coord kids ++
    map (fun ij => coord_xy_otf (fst ij) (snd ij) (tboard t))
      (filter
         (fun ij =>
            negb (negb (d (symmetry b) =? 0) &&
                  ((if is_diag_down (type (symmetry b))
                    then board_size b - 1 - fst ij else fst ij) >? snd ij)) &&
            consider_map b color radar
              (coord_xy_otf (fst ij) (snd ij) (tboard t)))
         l).
Proof.
  induction l as [|[i j] l IH]; intros st kids st2 kids2; simpl.
  - intros Hs; inversion Hs; subst. now rewrite app_nil_r.
  - destruct (negb (d (symmetry b) =? 0) &&
              ((if is_diag_down (type (symmetry b))
                then board_size b - 1 - i else i) >? j)); simpl.
    { apply IH. }
    destruct (consider_map b color radar (coord_xy_otf i j (tboard t)));
      simpl.
    2: { apply IH. }
    destruct (coord_xy_otf i j (tboard t) =? coord node).
    { rewrite expand_loop_stopped. discriminate. }
    intros Hs. apply IH in Hs. rewrite Hs, map_app. simpl.
    rewrite init_prior_coord. simpl. now rewrite <- app_assoc.
Qed.

Lemma tree_expand_node_children (H : tree_h) counter t node b color radar
    uc par n' st' :
  tree_expand_node H counter t node b color radar uc par = Some (n', st') ->
  map coord (children n') = pass :: expanded_points t b color radar.
Proof.
  unfold tree_expand_node. simpl.
  destruct (fold_left _ _ _) as [[st2 kids]|] eqn:Hf; [|discriminate].
  intros Hs; inversion Hs; subst. simpl.
  apply expand_loop_coords in Hf. rewrite Hf. simpl.
  now rewrite init_prior_coord.
Qed.

(** C6 on the code: expanding the root of a game on the empty 9x9 board,
    whose points are numbered row by row. The children come column by
    column, (5,5) (5,6) ... (5,9) and then (6,6): the coordinate falls from
    104 to 72, so the sibling list is not sorted by coordinate. *)
Theorem tree_expand_node_order_on_empty_board :
  exists n' st',
    tree_expand_node Samples.mean_h 1000001 Samples.opening
      (root Samples.opening) Samples.board9 S_BLACK 0 Samples.even_prior 1
      = Some (n', st') /\
    map coord (children n') =
      [-1; 60; 71; 82; 93; 104; 72; 83; 94; 105; 84; 95; 106; 96; 107; 108] /\
    ~ Sorted Z.le (map coord (children n')).
Proof.
  eexists. eexists. split; [vm_compute; reflexivity|].
  split; [reflexivity|]. simpl. intros Hs.
  do 5 apply Sorted_inv, proj1 in Hs.
  apply Sorted_inv, proj2 in Hs. inversion Hs; lia.
Qed.

(** ** The opening book *)

Lemma tree_node_save_unfold (n : tree_node) (thres : Z) :
  tree_node_save n thres =
  Byte 1 :: Block (node_record n) ::
  (if playouts (u n) >=? thres
   then flat_map (fun ni => tree_node_save ni thres) (children n)
   else []) ++ [Byte 0].
Proof. destruct n; reflexivity. Qed.

Lemma tree_node_save_head (n : tree_node) (thres : Z) :
  exists f, tree_node_save n thres = Byte 1 :: f.
Proof. rewrite tree_node_save_unfold. eexists; reflexivity. Qed.

Lemma book_image_unfold (thres : Z) (base n : tree_node) :
  book_image thres base n =
  set_children (load_fields base (node_record n))
    (children base ++
     (if playouts (u n) >=? thres
      then map (book_image thres calloc_node) (children n)
      else [])).
Proof. destruct n; reflexivity. Qed.

Lemma stored_unfold (thres : Z) (n : tree_node) :
  stored thres n =
  set_children n
    (if playouts (u n) >=? thres then map (stored thres) (children n)
     else []).
Proof. destruct n; reflexivity. Qed.

Lemma node_count_unfold (n : tree_node) :
  node_count n = S (list_sum (map node_count (children n))).
Proof. destruct n; reflexivity. Qed.

Lemma node_count_in (k : tree_node) (l : list tree_node) :
  In k l -> (node_count k <= list_sum (map node_count l))%nat.
Proof.
  induction l as [|a l IH]; simpl; [intros []|].
  intros [<-|Hk]; [lia | specialize (IH Hk); lia].
Qed.

Lemma node_count_length (l : list tree_node) :
  (List.length l <= list_sum (map node_count l))%nat.
Proof.
  induction l as [|a l IH]; simpl; [lia|].
  rewrite (node_count_unfold a). lia.
Qed.

(** The loop that reads the children back, given that each child loads. *)
Lemma load_children_saved (thres : Z) (fuel : nat) (node : tree_node) :
  children node = [] ->
  forall kids,
    Forall (fun k =>
              forall base rest num,
                children base = [] ->
                exists num',
                  tree_node_load fuel (tl (tree_node_save k thres ++ rest))
                                 base num
                  = Some (book_image thres base k, rest, num')) kids ->
    forall n acc rest num,
      (List.length kids < n)%nat ->
      exists num',
        load_children (tree_node_load fuel) n node
          (flat_map (fun k => tree_node_save k thres) kids ++ Byte 0 :: rest)
          acc num
        = Some (set_children node
                  (acc ++ map (book_image thres calloc_node) kids),
                rest, num').
Proof.
  intros Hleaf kids Hall. induction Hall as [|k kids Hk _ IH];
    intros n acc rest num Hn; (destruct n as [|n]; [simpl in Hn; lia|]).
  - simpl. rewrite Hleaf, app_nil_r. simpl. now exists num.
  - simpl flat_map. rewrite <- app_assoc.
    destruct (Hk calloc_node
                (flat_map (fun k => tree_node_save k thres) kids
                 ++ Byte 0 :: rest) num eq_refl) as [num1 Hload].
    destruct (tree_node_save_head k thres) as [f Hf].
    rewrite Hf in Hload |- *. simpl tl in Hload.
    simpl load_children. rewrite Hleaf. rewrite Hload.
    destruct (IH n (acc ++ [book_image thres calloc_node k]) rest num1)
      as [num2 Hrest]; [simpl in Hn; lia|].
    rewrite Hrest. exists num2. simpl. now rewrite <- app_assoc.
Qed.

(** Loading what was saved of a node, into a node without children, given
    more fuel than the saved tree has nodes. *)
Lemma tree_node_load_saved (thres : Z) :
  forall n fuel base rest num,
    (node_count n < fuel)%nat ->
    children base = [] ->
    exists num',
      tree_node_load fuel (tl (tree_node_save n thres ++ rest)) base num
      = Some (book_image thres base n, rest, num').
Proof.
  induction n as [h dp c su sp sa spu spa hi kids IH] using tree_node_ind.
  intros fuel base rest num Hfuel Hleaf.
  set (n := mk_node h dp c su sp sa spu spa hi kids) in *.
  rewrite node_count_unfold in Hfuel. simpl children in Hfuel.
  destruct fuel as [|fuel]; [lia|].
  rewrite tree_node_save_unfold, book_image_unfold. simpl tl.
  simpl tree_node_load. rewrite <- app_assoc. simpl app.
  rewrite Hleaf. simpl app.
  assert (Hl : children (load_fields base (node_record n)) = []).
  { exact Hleaf. }
  simpl app. simpl u. destruct (playouts su >=? thres).
  - simpl children.
    destruct (load_children_saved thres fuel _ Hl kids) with
      (n := fuel) (acc := @nil tree_node) (rest := rest) (num := num + 1)
      as [num' Hload].
    + rewrite Forall_forall in IH |- *. intros k Hk base' rest' num' Hb.
      apply IH; [exact Hk | | exact Hb].
      pose proof (node_count_in k kids Hk). lia.
    + pose proof (node_count_length kids). lia.
    + exists num'. exact Hload.
  - destruct (load_children_saved thres fuel _ Hl [] (Forall_nil _))
      with (n := fuel) (acc := @nil tree_node) (rest := rest)
           (num := num + 1) as [num' Hload].
    + simpl. lia.
    + exists num'. exact Hload.
Qed.

Lemma clamp_stats_reloaded (s : move_stats) :
  channel_reloaded s (clamp_stats s).
Proof.
  unfold channel_reloaded, clamp_stats.
  destruct (playouts s >? MAX_PLAYOUTS) eqn:E.
  - split; [|intros _; repeat split].
    intros Hle. apply Z.gtb_lt in E. lia.
  - split; [reflexivity|]. intros Hgt. rewrite Z.gtb_ltb in E.
    apply Z.ltb_ge in E. lia.
Qed.

Lemma load_fields_reloaded (base n : tree_node) :
  reloaded n (load_fields base (node_record n)).
Proof.
  unfold reloaded, load_fields. simpl.
  do 4 (split; [reflexivity|]).
  split; [apply clamp_stats_reloaded|].
  split; [apply clamp_stats_reloaded|]. split; reflexivity.
Qed.

Lemma book_image_reloaded (thres : Z) :
  forall n base p m,
    children base = [] ->
    subnode p (stored thres n) = Some m ->
    exists m', subnode p (book_image thres base n) = Some m' /\
               reloaded m m'.
Proof.
  induction n as [h dp c su sp sa spu spa hi kids IH] using tree_node_ind.
  intros base p m Hleaf Hm.
  set (n := mk_node h dp c su sp sa spu spa hi kids) in *.
  rewrite stored_unfold in Hm. rewrite book_image_unfold. rewrite Hleaf.
  destruct p as [|i p]; simpl in Hm |- *.
  - inversion Hm; subst m. eexists. split; [reflexivity|].
    apply (load_fields_reloaded base n).
  - destruct (su.(playouts) >=? thres); [|destruct i; discriminate].
    rewrite nth_error_map in Hm |- *.
    destruct (nth_error kids i) as [k|] eqn:Hi; [|discriminate].
    simpl in Hm |- *. rewrite Forall_forall in IH.
    apply (IH k (nth_error_In _ _ Hi)); [reflexivity | exact Hm].
Qed.

(** C4, as the code has it. A tree saved with any threshold and loaded into
    a fresh tree, with more fuel than the tree has nodes, loads; every node
    the book keeps is found at its place with its coordinate, depth, hints
    and prior; each of [u] and [amaf] is as saved when its playouts are at
    most the ceiling, and otherwise has its playouts at the ceiling, its
    cached value as saved and its wins taken down by the truncated
    proportional share; the baselines are the loaded [u] and [amaf]. *)
Theorem book_save_load (t fresh : tree) (thres : Z) (fuel : nat) :
  children (root fresh) = [] ->
  (node_count (root t) < fuel)%nat ->
  exists t' num,
    tree_load fuel fresh (Some (tree_save t thres)) = Some (t', num) /\
    forall p n,
      subnode p (stored thres (root t)) = Some n ->
      exists n', subnode p (root t') = Some n' /\ reloaded n n'.
Proof.
  intros Hleaf Hfuel. unfold tree_load, tree_save.
  destruct (tree_node_load_saved thres (root t) fuel (root fresh)
              [Byte 0] 0 Hfuel Hleaf) as [num Hload].
  destruct (tree_node_save_head (root t) thres) as [f Hf].
  rewrite Hf in Hload |- *. simpl in Hload |- *.
  rewrite Hload. eexists. eexists. split; [reflexivity|].
  simpl. intros p n Hn.
  apply (book_image_reloaded thres (root t) (root fresh) p n Hleaf Hn).
Qed.

Lemma book_save_load_witness :
  exists t' num,
    tree_load 3 Samples.opening (Some (tree_save Samples.heavy 5))
      = Some (t', num) /\
    forall p n,
      subnode p (stored 5 (root Samples.heavy)) = Some n ->
      exists n', subnode p (root t') = Some n' /\ reloaded n n'.
Proof.
  apply (book_save_load Samples.heavy Samples.opening 5 3).
  - reflexivity.
  - vm_compute. lia.
Defined.

(** C4 as stated fails: a root with 10 wins in 20,000,001 playouts is read
    back with 4 wins in 10,000,000 playouts; its mean went from 5.0e-7 to
    4.0e-7 (the two fractions are compared by cross multiplication). *)
Lemma book_save_load_changes_mean :
  exists t' num,
    tree_load 3 Samples.opening (Some (tree_save Samples.heavy 5))
      = Some (t', num) /\
    playouts (u (root Samples.heavy)) = 20000001 /\
    wins (u (root Samples.heavy)) = 10 /\
    playouts (u (root t')) = 10000000 /\
    wins (u (root t')) = 4 /\
    wins (u (root t')) * playouts (u (root Samples.heavy))
      <> wins (u (root Samples.heavy)) * playouts (u (root t')).
Proof.
  eexists. eexists. split; [vm_compute; reflexivity|].
  do 4 (split; [reflexivity|]). vm_compute. discriminate.
Qed.

End TreeFacts.

Section DistributedFacts.
Import Distributed.

Variable scan_other : string -> option (Q * string).
Variable str2coord : string -> Z -> coord_t.
Variable b : Tree.board.

Lemma read_lines_collect (fuel : nat) :
  forall r sel,
    read_lines scan_other str2coord b fuel r sel =
    fold_left (add_parsed str2coord b) (collect_lines scan_other fuel r) sel.
Proof.
  induction fuel as [|fuel IH]; intros r sel; [reflexivity|].
  destruct r as [r0|]; [|reflexivity]. simpl.
  destruct (scan_line scan_other (str_tail r0)) as [[move s]|]; [|reflexivity].
  simpl. apply IH.
Qed.

Lemma strchr_shorter (c : ascii) (r r' : string) :
  strchr r c = Some r' -> (String.length r' <= String.length r)%nat.
Proof.
  induction r as [|a r IH]; simpl; [discriminate|].
  destruct (Ascii.eqb a c).
  - intros E; inversion E; subst. simpl. lia.
  - intros E. specialize (IH E). lia.
Qed.

(** The loops over the lines of a reply end before their fuel does: any
    fuel above the length of what is left to scan gives the same result. *)
Lemma read_lines_fuel (fuel : nat) :
  forall fuel' r sel,
    (ahead r < fuel)%nat -> (ahead r < fuel')%nat ->
    read_lines scan_other str2coord b fuel r sel
    = read_lines scan_other str2coord b fuel' r sel.
Proof.
  induction fuel as [|fuel IH]; intros fuel' r sel Hf Hf'; [lia|].
  destruct fuel' as [|fuel']; [lia|].
  destruct r as [r0|]; [|reflexivity]. simpl.
  destruct r0 as [|a r1]; [reflexivity|]. simpl str_tail.
  destruct (scan_line scan_other r1) as [[move s]|]; [|reflexivity].
  simpl in Hf, Hf'.
  assert (Hn : (ahead (strchr r1 newline) <= String.length r1)%nat).
  { destruct (strchr r1 newline) as [r2|] eqn:E; simpl; [|lia].
    now apply strchr_shorter in E. }
  apply IH; lia.
Qed.

Lemma read_groups_fuel (fuel : nat) :
  forall fuel' dead mq,
    (ahead dead < fuel)%nat -> (ahead dead < fuel')%nat ->
    read_groups str2coord b fuel dead mq =
    read_groups str2coord b fuel' dead mq.
Proof.
  induction fuel as [|fuel IH]; intros fuel' dead mq Hf Hf'; [lia|].
  destruct fuel' as [|fuel']; [lia|].
  destruct dead as [d0|]; [|reflexivity]. simpl.
  destruct d0 as [|a d1]; [simpl; destruct fuel, fuel'; reflexivity|].
  simpl str_tail. simpl in Hf, Hf'.
  assert (Hn : (ahead (strchr d1 newline) <= String.length d1)%nat).
  { destruct (strchr d1 newline) as [d2|] eqn:E; simpl; [|lia].
    now apply strchr_shorter in E. }
  destruct d1 as [|c d2]; [simpl; destruct fuel, fuel'; reflexivity|].
  destruct (Ascii.eqb c newline); [reflexivity|].
  apply IH; lia.
Qed.

Lemma read_reply_parsed (sel : selection) (r : string) :
  read_reply scan_other str2coord b sel r =
  match scan_header r with
  | Some h => fold_left (add_parsed str2coord b) (reply_lines scan_other r)
                        (add_header sel h)
  | None => sel
  end.
Proof.
  unfold read_reply. destruct (scan_header r) as [h|]; [|reflexivity].
  apply read_lines_collect.
Qed.

Lemma add_parsed_sums (lines : list (string * move_stats2)) :
  forall sel,
    played (fold_left (add_parsed str2coord b) lines sel) = played sel /\
    total_playouts (fold_left (add_parsed str2coord b) lines sel) = total_playouts sel /\
    total_threads (fold_left (add_parsed str2coord b) lines sel) = total_threads sel /\
    keep (fold_left (add_parsed str2coord b) lines sel) = keep sel.
Proof.
  induction lines as [|ml lines IH]; intros sel; simpl; [repeat split|].
  destruct (IH (add_parsed str2coord b sel ml)) as (P & T & Th & K).
  rewrite P, T, Th, K. repeat split.
Qed.

(** The sums the loop over the replies leaves. *)
Lemma read_replies_sums (replies : list string) :
  forall sel,
    let sel' := fold_left (read_reply scan_other str2coord b) replies sel in
    played sel' = played sel + sum_headers h_played replies /\
    total_playouts sel' = total_playouts sel + sum_headers h_playouts replies /\
    total_threads sel' = total_threads sel + sum_headers h_threads replies /\
    keep sel' = keep sel + sum_headers h_keep replies.
Proof.
  induction replies as [|r replies IH]; intros sel; simpl.
  - repeat split; lia.
  - destruct (IH (read_reply scan_other str2coord b sel r)) as (P & T & Th & K).
    rewrite P, T, Th, K. rewrite read_reply_parsed.
    destruct (scan_header r) as [h|]; [|repeat split].
    destruct (add_parsed_sums (reply_lines scan_other r) (add_header sel h))
      as (P' & T' & Th' & K').
    rewrite P', T', Th', K'. simpl. repeat split; lia.
Qed.

Lemma add_parsed_frame (l : list (string * move_stats2)) :
  forall s1 s2,
    stats s1 = stats s2 -> best_move s1 = best_move s2 ->
    best_playouts s1 = best_playouts s2 ->
    stats (fold_left (add_parsed str2coord b) l s1)
      = stats (fold_left (add_parsed str2coord b) l s2) /\
    best_move (fold_left (add_parsed str2coord b) l s1)
      = best_move (fold_left (add_parsed str2coord b) l s2) /\
    best_playouts (fold_left (add_parsed str2coord b) l s1)
      = best_playouts (fold_left (add_parsed str2coord b) l s2).
Proof.
  induction l as [|ml l IHl]; intros s1 s2 E1 E2 E3; simpl;
    [now repeat split|].
  apply IHl; unfold add_parsed, add_line; simpl;
    rewrite ?E1, ?E2, ?E3; reflexivity.
Qed.

(** What the loop over the replies does to the table and to the best move
    is what adding their lines one after the other does. *)
Lemma read_replies_lines (replies : list string) :
  forall sel,
    let sel' := fold_left (read_reply scan_other str2coord b) replies sel in
    let sel'' := fold_left (add_parsed str2coord b)
                           (all_lines scan_other replies) sel in
    stats sel' = stats sel'' /\ best_move sel' = best_move sel'' /\
    best_playouts sel' = best_playouts sel''.
Proof.
  induction replies as [|r replies IH]; intros sel; simpl; [repeat split|].
  unfold all_lines. simpl. rewrite fold_left_app.
  fold (all_lines scan_other replies).
  rewrite read_reply_parsed. destruct (scan_header r) as [h|].
  - destruct (IH (fold_left (add_parsed str2coord b) (reply_lines scan_other r)
                            (add_header sel h)))
      as (S1 & B1 & P1). simpl in S1, B1, P1. rewrite S1, B1, P1.
    destruct (add_parsed_frame (reply_lines scan_other r) (add_header sel h) sel
                eq_refl eq_refl eq_refl) as (S2 & B2 & P2).
    apply add_parsed_frame; assumption.
  - apply IH.
Qed.

Lemma add_line_count (sel : selection) (move : string) (s : move_stats2)
    (c : coord_t) :
  playouts (u (stats (add_line str2coord b sel move s) c)) =
  playouts (u (stats sel c)) +
  (if str2coord move (Tree.board_size b) =? c then playouts (u s) else 0).
Proof.
  unfold add_line, table_set. simpl. rewrite (Z.eqb_sym c).
  destruct (str2coord move (Tree.board_size b) =? c) eqn:E; simpl.
  - apply Z.eqb_eq in E. now subst c.
  - lia.
Qed.

Lemma add_line_best (sel : selection) (move : string) (s : move_stats2) :
  0 <= playouts (u s) ->
  best_so_far sel -> best_so_far (add_line str2coord b sel move s).
Proof.
  intros Hn (Hpos & Hmax & Hbest).
  set (c0 := str2coord move (Tree.board_size b)).
  assert (Hcount := add_line_count sel move s). fold c0 in Hcount.
  assert (Hnew : playouts (u (stats (add_line str2coord b sel move s) c0))
                 = playouts (u (stats sel c0)) + playouts (u s)).
  { rewrite Hcount, Z.eqb_refl. reflexivity. }
  unfold best_so_far.
  assert (Hbm : best_move (add_line str2coord b sel move s) =
                if playouts (u (stats sel c0)) + playouts (u s)
                   >? best_playouts sel
                then c0 else best_move sel) by reflexivity.
  assert (Hbp : best_playouts (add_line str2coord b sel move s) =
                if playouts (u (stats sel c0)) + playouts (u s)
                   >? best_playouts sel
                then playouts (u (stats sel c0)) + playouts (u s)
                else best_playouts sel) by reflexivity.
  rewrite Hbm, Hbp. clear Hbm Hbp.
  destruct (playouts (u (stats sel c0)) + playouts (u s)
            >? best_playouts sel) eqn:E.
  - apply Z.gtb_lt in E. repeat split.
    + intros c. rewrite Hcount. specialize (Hpos c).
      destruct (c0 =? c); lia.
    + intros c. rewrite Hcount. specialize (Hmax c).
      destruct (c0 =? c) eqn:E0; [apply Z.eqb_eq in E0; subst c|]; lia.
    + rewrite Hnew. lia.
  - rewrite Z.gtb_ltb in E. apply Z.ltb_ge in E. repeat split.
    + intros c. rewrite Hcount. specialize (Hpos c).
      destruct (c0 =? c); lia.
    + intros c. rewrite Hcount. specialize (Hmax c).
      destruct (c0 =? c) eqn:E0; [apply Z.eqb_eq in E0; subst c|]; lia.
    + rewrite Hcount. destruct (c0 =? best_move sel); lia.
Qed.

Lemma add_parsed_best (lines : list (string * move_stats2)) :
  forall sel,
    (forall ml, In ml lines -> 0 <= playouts (u (snd ml))) ->
    best_so_far sel ->
    best_so_far (fold_left (add_parsed str2coord b) lines sel) /\
    forall c,
      playouts (u (stats (fold_left (add_parsed str2coord b) lines sel) c)) =
      playouts (u (stats sel c)) +
      combined_playouts str2coord (Tree.board_size b) lines c.
Proof.
  induction lines as [|[move s] lines IH]; intros sel Hn Hinv; simpl.
  - split; [exact Hinv | intros c; lia].
  - destruct (IH (add_parsed str2coord b sel (move, s))) as [Hinv' Hsum].
    + intros ml Hml. apply Hn. now right.
    + apply add_line_best; [|exact Hinv]. apply (Hn (move, s)). now left.
    + split; [exact Hinv'|]. intros c. rewrite Hsum.
      unfold add_parsed. cbn [fst snd]. rewrite add_line_count. lia.
Qed.

Lemma start_selection_best : best_so_far start_selection.
Proof. repeat split; simpl; intros; lia. Qed.


Lemma votes_are_keep_sum (replies : list string) :
  (forall r h, In r replies -> scan_header r = Some h ->
               h_keep h = 0 \/ h_keep h = 1) ->
  sum_headers h_keep replies = continue_votes replies /\
  0 <= continue_votes replies <= Z.of_nat (List.length replies).
Proof.
  induction replies as [|r replies IH]; intros Hv;
    cbn [sum_headers continue_votes List.length]; [simpl; lia|].
  destruct IH as [IH Hb]. { intros r' h Hr'. apply Hv. now right. }
  rewrite Nat2Z.inj_succ.
  destruct (scan_header r) as [h|] eqn:Hh; [|lia].
  destruct (Hv r h (or_introl eq_refl) Hh) as [E|E]; rewrite E;
    [change (0 =? 0) with true | change (1 =? 0) with false]; cbv iota; lia.
Qed.

Lemma strchr_skip (c : ascii) (s1 s2 : string) :
  strchr s1 c = None ->
  strchr (s1 ++ String c s2) c = Some (String c s2).
Proof.
  induction s1 as [|a s1 IH]; simpl.
  - now rewrite Ascii.eqb_refl.
  - destruct (Ascii.eqb a c); [discriminate | exact IH].
Qed.

Lemma length_append (s1 s2 : string) :
  String.length (s1 ++ s2) = (String.length s1 + String.length s2)%nat.
Proof. induction s1 as [|a s1 IH]; simpl; [reflexivity | now rewrite IH]. Qed.

Lemma line_tails_strchr (t : string) :
  line_tails t =
  match strchr t newline with
  | Some s => str_tail s :: line_tails (str_tail s)
  | None => []
  end.
Proof.
  induction t as [|c t IH]; simpl; [reflexivity|].
  destruct (Ascii.eqb c newline); [reflexivity | exact IH].
Qed.

(** The loop over the lines of a reply goes from line to line: it reads at
    the start of each line that is left, until [sscanf] fails. *)
Lemma collect_lines_tails (fuel : nat) :
  forall r,
    (ahead r < fuel)%nat ->
    collect_lines scan_other fuel r =
    match r with
    | Some s =>
        read_while (scan_line scan_other)
                   (str_tail s :: line_tails (str_tail s))
    | None => []
    end.
Proof.
  induction fuel as [|fuel IH]; intros r Hf; [lia|].
  destruct r as [s|]; [|reflexivity].
  cbn [collect_lines read_while].
  destruct (scan_line scan_other (str_tail s)) as [ml|]; [|reflexivity].
  f_equal. rewrite (line_tails_strchr (str_tail s)).
  destruct (strchr (str_tail s) newline) as [s'|] eqn:E.
  - apply (IH (Some s')).
    destruct s as [|c t]; [discriminate|].
    apply strchr_shorter in E. simpl in *. lia.
  - destruct fuel; reflexivity.
Qed.

Lemma reply_lines_tails (r : string) :
  reply_lines scan_other r = read_while (scan_line scan_other) (line_tails r).
Proof.
  unfold reply_lines. rewrite collect_lines_tails.
  - rewrite (line_tails_strchr r).
    destruct (strchr r newline); reflexivity.
  - destruct (strchr r newline) as [s|] eqn:E; simpl; [|lia].
    apply strchr_shorter in E. lia.
Qed.

(** C2, as the code has it. Provided no line that is read reports a negative
    playout count, [select_best_move] fills the table with the raw playouts
    summed over the lines read, of all replies, and returns a coordinate
    whose sum no other exceeds. The lines read of a reply are what [sscanf]
    reads at the start of each line behind the first, one line after the
    other until it fails. For the single reply of the specification
    [select_best_move] returns D4 with played 100, 500 playouts, 4 threads,
    and it keeps looking. *)
Theorem select_best_move_most_playouts :
  (forall replies,
      replies <> [] ->
      (forall ml, In ml (all_lines scan_other replies) ->
                  0 <= playouts (u (snd ml))) ->
      exists res,
        select_best_move scan_other str2coord b replies = Some res /\
        (forall c,
            playouts (u (res_stats res c)) =
            combined_playouts str2coord (Tree.board_size b)
                              (all_lines scan_other replies) c) /\
        forall c,
          combined_playouts str2coord (Tree.board_size b)
                            (all_lines scan_other replies) c
          <= combined_playouts str2coord (Tree.board_size b)
                               (all_lines scan_other replies) (res_move res)) /\
  (forall r,
      reply_lines scan_other r
      = read_while (scan_line scan_other) (line_tails r)) /\
  (exists res,
     select_best_move scan_other str2coord b [Samples.genmoves_reply]
     = Some res /\
     res_move res = str2coord "D4" (Tree.board_size b) /\
     res_played res = 100 /\ res_total_playouts res = 500 /\
     res_total_threads res = 4 /\ res_keep_looking res = true).
Proof.
  split; [|split].
  - intros replies Hne Hn. unfold select_best_move.
    destruct replies as [|r0 replies0] eqn:Hr; [contradiction|].
    rewrite <- Hr in *. clear Hr r0 replies0 Hne.
    eexists. split; [reflexivity|]. simpl.
    destruct (read_replies_lines replies start_selection) as (S1 & B1 & _).
    simpl in S1, B1. rewrite S1, B1.
    destruct (add_parsed_best (all_lines scan_other replies) start_selection
                Hn start_selection_best) as [(Hpos & Hmax & Hbest) Hsum].
    assert (Hsum' : forall c,
               playouts (u (stats (fold_left (add_parsed str2coord b)
                                     (all_lines scan_other replies)
                                     start_selection) c))
               = combined_playouts str2coord (Tree.board_size b)
                                   (all_lines scan_other replies) c).
    { intros c. rewrite Hsum. reflexivity. }
    split; [exact Hsum'|]. intros c. rewrite <- !Hsum'.
    specialize (Hmax c).
    specialize (Hpos (best_move (fold_left (add_parsed str2coord b)
                                   (all_lines scan_other replies)
                                   start_selection))).
    lia.
  - exact reply_lines_tails.
  - unfold select_best_move. eexists. split; [reflexivity|].
    cbn [res_move res_played res_total_playouts res_total_threads
         res_keep_looking fold_left].
    rewrite read_reply_parsed.
    replace (scan_header Samples.genmoves_reply)
      with (Some (mk_header 7 100 500 4 1)) by (vm_compute; reflexivity).
    replace (reply_lines scan_other Samples.genmoves_reply)
      with [("C3"%string,
             mk_stats2 (mk_stats 50 (6 # 10)) (mk_stats 10 (55 # 100)));
            ("D4"%string,
             mk_stats2 (mk_stats 80 (4 # 10)) (mk_stats 5 (3 # 10)))]
      by (vm_compute; reflexivity).
    cbn [fold_left].
    destruct (add_parsed_sums
                [("C3"%string,
                  mk_stats2 (mk_stats 50 (6 # 10)) (mk_stats 10 (55 # 100)));
                 ("D4"%string,
                  mk_stats2 (mk_stats 80 (4 # 10)) (mk_stats 5 (3 # 10)))]
                (add_header start_selection (mk_header 7 100 500 4 1)))
      as (P & T & Th & K).
    cbn [fold_left] in P, T, Th, K. rewrite P, T, Th, K.
    split; [|repeat split].
    unfold add_parsed, add_line, table_set.
    cbn [fst snd stats best_move best_playouts add_header start_selection
         u playouts stats_add_result no_stats2].
    change (0 + 50 >? -1) with true. cbv iota.
    destruct (str2coord "D4" (Tree.board_size b)
              =? str2coord "C3" (Tree.board_size b)); reflexivity.
Qed.

(** C2 as stated fails. A line with a negative count: D4 is reported with 80
    and then with -70 playouts, C3 with 50; D4 is returned, with a sum of 10.
    A blank line behind the header: the reply reports C3 with 50 and D4 with
    80 playouts; C3 is read at the blank line and again at its own line, and
    is returned, with 100 in the table. *)
Lemma select_best_move_not_most_playouts :
  (exists res,
     select_best_move Samples.scan_nan_inf Samples.sample_str2coord
       Samples.board9 [Samples.negative_count_reply] = Some res /\
     res_move res = Samples.sample_str2coord "D4" 11 /\
     playouts (u (res_stats res (Samples.sample_str2coord "D4" 11))) = 10 /\
     playouts (u (res_stats res (Samples.sample_str2coord "C3" 11))) = 50) /\
  (exists res,
     select_best_move Samples.scan_nan_inf Samples.sample_str2coord
       Samples.board9 [Samples.blank_line_reply] = Some res /\
     map (fun ml => (fst ml, playouts (u (snd ml))))
         (reported_lines Samples.scan_nan_inf Samples.blank_line_reply)
     = [("C3"%string, 50); ("D4"%string, 80)] /\
     res_move res = Samples.sample_str2coord "C3" 11 /\
     playouts (u (res_stats res (Samples.sample_str2coord "C3" 11))) = 100 /\
     playouts (u (res_stats res (Samples.sample_str2coord "D4" 11))) = 80).
Proof.
  split; eexists; (split; [vm_compute; reflexivity|]);
    repeat split; vm_compute; reflexivity.
Qed.

(** C8, as the code has it. With at least one reply whose header is read:
    [keep_looking] is true exactly when the vote fields of the headers read,
    added up, are strictly more than half the number of all collected
    replies. When every vote read is 0 or 1, the sum is the number of replies
    that vote to continue: [keep_looking] is true exactly when they are
    strictly more than half of all collected replies, and false with exactly
    half of them. *)
Theorem select_best_move_keep_looking (replies : list string) :
  (exists r h, In r replies /\ scan_header r = Some h) ->
  exists res,
    select_best_move scan_other str2coord b replies = Some res /\
    (res_keep_looking res = true <->
     2 * sum_headers h_keep replies > Z.of_nat (List.length replies)) /\
    ((forall r h, In r replies -> scan_header r = Some h ->
                  h_keep h = 0 \/ h_keep h = 1) ->
     sum_headers h_keep replies = continue_votes replies /\
     (res_keep_looking res = true <->
      2 * continue_votes replies > Z.of_nat (List.length replies)) /\
     (2 * continue_votes replies = Z.of_nat (List.length replies) ->
      res_keep_looking res = false)).
Proof.
  intros (r0 & h0 & Hin & _). unfold select_best_move.
  destruct replies as [|r1 replies1] eqn:Hr; [destruct Hin|].
  rewrite <- Hr in *. clear Hr r1 replies1 Hin.
  eexists. split; [reflexivity|]. cbn [res_keep_looking].
  destruct (read_replies_sums replies start_selection) as (_ & _ & _ & K).
  cbv zeta in K. rewrite K. cbn [keep start_selection].
  set (n := Z.of_nat (List.length replies)) in *.
  assert (Hn : 0 <= n) by (unfold n; lia).
  assert (Hq : Z.quot n 2 = n / 2) by (apply Z.quot_div_nonneg; lia).
  rewrite Hq.
  pose proof (Z.div_mod n 2 ltac:(lia)) as Hdm.
  pose proof (Z.mod_pos_bound n 2 ltac:(lia)) as Hmb.
  assert (Hgen : (0 + sum_headers h_keep replies >? n / 2) = true <->
                 2 * sum_headers h_keep replies > n).
  { rewrite Z.gtb_ltb, Z.ltb_lt. lia. }
  split; [exact Hgen|].
  intros Hv. destruct (votes_are_keep_sum replies Hv) as [Hsum Hb].
  split; [exact Hsum|]. rewrite <- Hsum. split; [exact Hgen|].
  intros Hhalf. rewrite Z.gtb_ltb. apply Z.ltb_ge. lia.
Qed.

(** C8 as stated fails. Of three replies one votes, with 2 in its vote
    field: the sum 2 is above 3 / 2 and [keep_looking] is true, without a
    majority. And with the votes 1, 1 and -5 every reply votes to continue,
    the sum is -3 and [keep_looking] is false. *)
Lemma select_best_move_keep_looking_adds_votes :
  (exists res,
     select_best_move Samples.scan_nan_inf Samples.sample_str2coord
       Samples.board9 [Samples.double_vote_reply; Samples.header_only_reply;
        Samples.header_only_reply] = Some res /\
     continue_votes [Samples.double_vote_reply; Samples.header_only_reply;
                     Samples.header_only_reply] = 1 /\
     res_keep_looking res = true) /\
  (exists res,
     select_best_move Samples.scan_nan_inf Samples.sample_str2coord
       Samples.board9 [Samples.genmoves_reply; Samples.genmoves_reply;
        Samples.negative_vote_reply] = Some res /\
     continue_votes [Samples.genmoves_reply; Samples.genmoves_reply;
                     Samples.negative_vote_reply] = 3 /\
     res_keep_looking res = false).
Proof.
  split; eexists; (split; [vm_compute; reflexivity|]);
    split; vm_compute; reflexivity.
Qed.


(** ** The vote on dead groups *)

Lemma strcasecmp_antisym (s1 : string) :
  forall s2, strcasecmp s1 s2 <= 0 -> strcasecmp s2 s1 <= 0 ->
             strcasecmp s1 s2 = 0.
Proof.
  induction s1 as [|c1 r1 IH]; intros [|c2 r2]; simpl; intros H1 H2;
    try lia.
  rewrite (Z.eqb_sym (tolower c2)) in H2.
  destruct (tolower c1 =? tolower c2) eqn:E; [now apply IH|].
  apply Z.eqb_neq in E. lia.
Qed.

Lemma occurrences_app (r : string) (l1 l2 : list string) :
  occurrences r (l1 ++ l2) = occurrences r l1 + occurrences r l2.
Proof. induction l1 as [|a l1 IH]; simpl; [reflexivity | rewrite IH; lia]. Qed.

Lemma occurrences_absent (r : string) (l : list string) :
  ~ In r l -> occurrences r l = 0.
Proof.
  induction l as [|a l IH]; simpl; [reflexivity|]. intros Hno.
  destruct (String.eqb_spec a r) as [->|_]; [exfalso; apply Hno; now left|].
  rewrite IH; [reflexivity | intros Hin; apply Hno; now right].
Qed.

Lemma occurrences_permutation (r : string) (l l' : list string) :
  Permutation l l' -> occurrences r l = occurrences r l'.
Proof.
  induction 1 as [|a l l' _ IH|a a' l|l l' l'' _ IH1 _ IH2]; simpl;
    [reflexivity | rewrite IH; reflexivity | lia | congruence].
Qed.

Lemma sorted_prefix_below (le : string -> string -> Prop)
    (l1 : list string) (r : string) (l2 : list string) :
  StronglySorted le (l1 ++ r :: l2) -> forall x, In x l1 -> le x r.
Proof.
  induction l1 as [|a l1 IH]; simpl; [intros _ x []|].
  intros Hs x [<-|Hx].
  - apply StronglySorted_inv in Hs. destruct Hs as [_ Hall].
    rewrite Forall_forall in Hall. apply Hall. apply in_or_app.
    right. now left.
  - apply StronglySorted_inv in Hs. now apply IH.
Qed.

Lemma strcasecmp_refl (s1 : string) : strcasecmp s1 s1 = 0.
Proof.
  induction s1 as [|c r IH]; simpl; [reflexivity|].
  now rewrite Z.eqb_refl.
Qed.

Lemma occurrences_snoc (x : string) (l : list string) (r : string) :
  occurrences x (l ++ [r]) =
  occurrences x l + (if String.eqb r x then 1 else 0).
Proof. rewrite occurrences_app. simpl. lia. Qed.

(** The scan for the most popular reply, over an array in which replies
    that compare equal without case are the same reply. The part of the
    array behind the scan is [before] followed by [prev]. *)
Lemma most_popular_sorted (all : list string) :
  StronglySorted (fun x y => scmp x y <= 0) all ->
  (forall x y, In x all -> In y all -> scmp x y = 0 -> x = y) ->
  forall rest before prev count best_count best_reply best,
    all = (before ++ [prev]) ++ rest ->
    count = occurrences prev (before ++ [prev]) ->
    nth_error all best_reply = Some best ->
    In best (before ++ [prev]) ->
    best_count = occurrences best (before ++ [prev]) ->
    (forall r, In r (before ++ [prev]) ->
               occurrences r (before ++ [prev]) <= best_count) ->
    (forall r, In r (before ++ [prev]) ->
               occurrences r (before ++ [prev]) = best_count ->
               scmp best r <= 0) ->
    exists w,
      nth_error all
        (most_popular prev rest (List.length (before ++ [prev]))
                      count best_count best_reply) = Some w /\
      In w all /\
      (forall r, In r all -> occurrences r all <= occurrences w all) /\
      (forall r, In r all -> occurrences r all = occurrences w all ->
                 scmp w r <= 0).
Proof.
  intros Hsorted Hcase.
  induction rest as [|r rest IH];
    intros before prev count best_count best_reply best
           Hall Hcount Hnth Hin Hbc Hmax Htie.
  - rewrite app_nil_r in Hall. subst all. simpl. exists best.
    rewrite <- Hbc. repeat split; assumption.
  - simpl most_popular.
    assert (Hsplit : all = before ++ prev :: r :: rest).
    { rewrite Hall, <- app_assoc. reflexivity. }
    set (seen := before ++ [prev]) in *.
    assert (Hnext : all = (seen ++ [r]) ++ rest).
    { rewrite Hall, <- app_assoc. reflexivity. }
    assert (Hbelow : forall x, In x seen -> scmp x r <= 0).
    { intros x Hx.
      apply (sorted_prefix_below (fun x y => scmp x y <= 0) seen r rest);
        [now rewrite <- Hall | exact Hx]. }
    assert (Hrin : In r all).
    { rewrite Hall. apply in_or_app. right. now left. }
    assert (Hseen : forall x, In x seen -> In x all).
    { intros x Hx. rewrite Hall. apply in_or_app. now left. }
    assert (Hprev : In prev seen).
    { apply in_or_app. right. now left. }
    assert (Hrprev : In r seen -> r = prev).
    { intros Hr. apply in_app_or in Hr. destruct Hr as [Hr|[->|[]]];
        [|reflexivity].
      apply Hcase; [exact Hrin | now apply Hseen |].
      apply strcasecmp_antisym; [|now apply Hbelow].
      apply (sorted_prefix_below (fun x y => scmp x y <= 0)
               before prev (r :: rest));
        [now rewrite <- Hsplit | exact Hr]. }
    set (count' := if String.eqb r prev then count + 1 else 1).
    assert (Hocc : occurrences r (seen ++ [r]) = count').
    { rewrite occurrences_snoc, String.eqb_refl. unfold count'.
      destruct (String.eqb_spec r prev) as [->|Hne]; [lia|].
      rewrite occurrences_absent; [lia|]. intros Hr. now apply Hne, Hrprev. }
    assert (Hother : forall x, x <> r ->
               occurrences x (seen ++ [r]) = occurrences x seen).
    { intros x Hx. rewrite occurrences_snoc.
      destruct (String.eqb_spec r x) as [->|_]; [congruence | lia]. }
    assert (Hcases : forall x, In x (seen ++ [r]) ->
                               x = r \/ (x <> r /\ In x seen)).
    { intros x Hx. destruct (string_dec x r) as [->|Hne]; [now left|].
      right. split; [exact Hne|]. apply in_app_or in Hx.
      destruct Hx as [Hx|[->|[]]]; [exact Hx | congruence]. }
    replace (S (List.length seen)) with (List.length (seen ++ [r]))
      by (rewrite length_app; simpl; lia).
    destruct (count' >? best_count) eqn:E.
    + apply Z.gtb_lt in E.
      apply (IH seen r count' count' (List.length seen) r); try assumption.
      * now symmetry.
      * rewrite Hall, nth_error_app2, Nat.sub_diag by lia. reflexivity.
      * apply in_or_app. right. now left.
      * now symmetry.
      * intros x Hx. destruct (Hcases x Hx) as [->|[Hne Hxs]]; [lia|].
        rewrite (Hother x Hne). specialize (Hmax x Hxs). lia.
      * intros x Hx Heq. destruct (Hcases x Hx) as [->|[Hne Hxs]].
        -- unfold scmp. rewrite strcasecmp_refl. lia.
        -- rewrite (Hother x Hne) in Heq. specialize (Hmax x Hxs). lia.
    + rewrite Z.gtb_ltb in E. apply Z.ltb_ge in E.
      assert (Hbr : best <> r).
      { intros ->. pose proof (Hrprev Hin) as Hp. unfold count' in E.
        rewrite Hp, String.eqb_refl in E. rewrite Hp in Hbc. lia. }
      apply (IH seen r count' best_count best_reply best); try assumption.
      * now symmetry.
      * apply in_or_app. now left.
      * now rewrite (Hother best Hbr).
      * intros x Hx. destruct (Hcases x Hx) as [->|[Hne Hxs]]; [lia|].
        rewrite (Hother x Hne). now apply Hmax.
      * intros x Hx Heq. destruct (Hcases x Hx) as [->|[Hne Hxs]].
        -- now apply Hbelow.
        -- rewrite (Hother x Hne) in Heq. now apply Htie.
Qed.

(** Where [distributed_dead_group_list] does find the most popular reply:
    whenever [qsort] returns the replies sorted and no two distinct replies
    are equal up to letter case, the reply chosen is one that occurs most
    often, and among those the first in sorted order. *)
Lemma chosen_reply_most_popular
    (qsort : (string -> string -> Z) -> list string -> list string)
    (replies : list string) :
  replies <> [] ->
  Permutation (qsort scmp replies) replies ->
  StronglySorted (fun x y => scmp x y <= 0) (qsort scmp replies) ->
  (forall x y, In x replies -> In y replies -> scmp x y = 0 -> x = y) ->
  exists w,
    chosen_reply qsort replies = Some w /\ In w replies /\
    (forall r, In r replies ->
               occurrences r replies <= occurrences w replies) /\
    (forall r, In r replies ->
               occurrences r replies = occurrences w replies ->
               scmp w r <= 0).
Proof.
  intros Hne Hperm Hsorted Hcase. unfold chosen_reply.
  destruct replies as [|q0 qs] eqn:Hr; [contradiction|].
  rewrite <- Hr in *. clear Hr q0 qs.
  set (sorted := qsort scmp replies) in *.
  destruct sorted as [|r0 rest] eqn:Hs.
  { apply Permutation_nil in Hperm. congruence. }
  rewrite <- Hs in *. unfold best_reply_index. rewrite Hs.
  destruct (most_popular_sorted sorted Hsorted) with
    (rest := rest) (before := @nil string) (prev := r0) (count := 1)
    (best_count := 1) (best_reply := O) (best := r0)
    as (w & Hw & Hin & Hmax & Htie).
  - intros x y Hx Hy. apply Hcase; eapply Permutation_in; eauto.
  - exact Hs.
  - simpl. now rewrite String.eqb_refl.
  - now rewrite Hs.
  - now left.
  - simpl. now rewrite String.eqb_refl.
  - intros r [<-|[]]. simpl. rewrite String.eqb_refl. lia.
  - intros r [<-|[]] _. unfold scmp. rewrite strcasecmp_refl. lia.
  - simpl List.length in Hw. rewrite <- Hs. exists w.
    split; [exact Hw|]. split; [eapply Permutation_in; eauto|].
    split.
    + intros r Hrin.
      rewrite <- !(occurrences_permutation _ _ _ Hperm). apply Hmax.
      eapply Permutation_in; [symmetry; exact Hperm | exact Hrin].
    + intros r Hrin.
      rewrite <- !(occurrences_permutation _ _ _ Hperm). apply Htie.
      eapply Permutation_in; [symmetry; exact Hperm | exact Hrin].
Qed.

(** C9 on the code, with a [qsort] that leaves replies which compare equal
    in the order they came (the comparison ignores case, the count of equal
    neighbours does not). Of five answers, three say "D4" and two "d4": the
    two win. Of eight answers, "D4" and "E5" both occur three times and
    "D4" sorts first: "E5" wins, and its group is what is queued. *)
Theorem distributed_dead_group_list_case_split :
  StronglySorted (fun x y => scmp x y <= 0) Samples.eight_answers /\
  stable_sort scmp Samples.five_answers = Samples.five_answers /\
  occurrences Samples.dead_upper Samples.five_answers = 3 /\
  occurrences Samples.dead_lower Samples.five_answers = 2 /\
  chosen_reply stable_sort Samples.five_answers = Some Samples.dead_lower /\
  stable_sort scmp Samples.eight_answers = Samples.eight_answers /\
  occurrences Samples.dead_upper Samples.eight_answers = 3 /\
  occurrences Samples.dead_other Samples.eight_answers = 3 /\
  scmp Samples.dead_upper Samples.dead_other < 0 /\
  chosen_reply stable_sort Samples.eight_answers = Some Samples.dead_other /\
  distributed_dead_group_list str2coord stable_sort b Samples.eight_answers []
    = Some [str2coord "E5

" (Tree.board_size b)].
Proof.
  split; [|repeat split].
  repeat (apply SSorted_cons;
          [|repeat (apply Forall_cons; [vm_compute; discriminate|]);
            apply Forall_nil]).
  apply SSorted_nil.
Qed.

End DistributedFacts.

Section DistributedExamples.
Import Distributed.

Lemma select_best_move_most_playouts_witness :
  (exists res,
     select_best_move Samples.scan_nan_inf Samples.sample_str2coord
       Samples.board9 [Samples.genmoves_reply] = Some res /\
     (forall c,
         playouts (u (res_stats res c)) =
         combined_playouts Samples.sample_str2coord 11
           (all_lines Samples.scan_nan_inf [Samples.genmoves_reply]) c) /\
     forall c,
       combined_playouts Samples.sample_str2coord 11
         (all_lines Samples.scan_nan_inf [Samples.genmoves_reply]) c
       <= combined_playouts Samples.sample_str2coord 11
            (all_lines Samples.scan_nan_inf [Samples.genmoves_reply])
            (res_move res)) /\
  reply_lines Samples.scan_nan_inf Samples.genmoves_reply
  = read_while (scan_line Samples.scan_nan_inf)
               (line_tails Samples.genmoves_reply) /\
  (exists res,
     select_best_move Samples.scan_nan_inf Samples.sample_str2coord
       Samples.board9 [Samples.genmoves_reply] = Some res /\
     res_move res = Samples.sample_str2coord "D4"
                      (Tree.board_size Samples.board9) /\
     res_played res = 100 /\ res_total_playouts res = 500 /\
     res_total_threads res = 4 /\ res_keep_looking res = true).
Proof.
  split; [|split].
  - apply (proj1 (select_best_move_most_playouts Samples.scan_nan_inf
                    Samples.sample_str2coord Samples.board9)
             [Samples.genmoves_reply]).
    + discriminate.
    + vm_compute. intros ml [<-|[<-|[]]]; discriminate.
  - apply (proj1 (proj2 (select_best_move_most_playouts Samples.scan_nan_inf
                           Samples.sample_str2coord Samples.board9))).
  - apply (proj2 (proj2 (select_best_move_most_playouts Samples.scan_nan_inf
                           Samples.sample_str2coord Samples.board9))).
Defined.

Lemma select_best_move_keep_looking_witness :
  (exists res,
    select_best_move Samples.scan_nan_inf Samples.sample_str2coord
      Samples.board9
      [Samples.genmoves_reply; Samples.header_only_reply] = Some res /\
    (res_keep_looking res = true <->
     2 * sum_headers h_keep
           [Samples.genmoves_reply; Samples.header_only_reply]
     > Z.of_nat
         (List.length [Samples.genmoves_reply; Samples.header_only_reply])) /\
    ((forall r h,
        In r [Samples.genmoves_reply; Samples.header_only_reply] ->
        scan_header r = Some h -> h_keep h = 0 \/ h_keep h = 1) ->
     sum_headers h_keep [Samples.genmoves_reply; Samples.header_only_reply]
     = continue_votes [Samples.genmoves_reply; Samples.header_only_reply] /\
     (res_keep_looking res = true <->
      2 * continue_votes [Samples.genmoves_reply; Samples.header_only_reply]
      > Z.of_nat
          (List.length [Samples.genmoves_reply; Samples.header_only_reply])) /\
     (2 * continue_votes [Samples.genmoves_reply; Samples.header_only_reply]
      = Z.of_nat
          (List.length [Samples.genmoves_reply; Samples.header_only_reply]) ->
      res_keep_looking res = false))) /\
  forall r h,
    In r [Samples.genmoves_reply; Samples.header_only_reply] ->
    scan_header r = Some h -> h_keep h = 0 \/ h_keep h = 1.
Proof.
  split.
  - apply (select_best_move_keep_looking Samples.scan_nan_inf
             Samples.sample_str2coord Samples.board9
             [Samples.genmoves_reply; Samples.header_only_reply]).
    exists Samples.genmoves_reply. eexists. split; [now left|].
    vm_compute. reflexivity.
  - intros r h [<-|[<-|[]]] Hh; vm_compute in Hh;
      inversion Hh; subst h; simpl; auto.
Defined.


(** A value that is not a number does not end the reading: with a library
    that reads [nan], both lines of the reply are read and D4 is returned. *)
Lemma select_best_move_reads_nan :
  exists res,
    select_best_move Samples.scan_nan_inf Samples.sample_str2coord
      Samples.board9 [Samples.nan_value_reply] = Some res /\
    res_move res = Samples.sample_str2coord "D4" 11 /\
    playouts (u (res_stats res (Samples.sample_str2coord "D4" 11))) = 80 /\
    playouts (u (res_stats res (Samples.sample_str2coord "C3" 11))) = 50.
Proof.
  eexists. split; [vm_compute; reflexivity|].
  repeat split; vm_compute; reflexivity.
Qed.

End DistributedExamples.

(* ================================================================== *)
(** * Part III: further properties                                     *)
(* ================================================================== *)

Section TreeMoreFacts.
Import Tree.

(** ** Promotion *)

Lemma tree_fix_symmetry_frame (t : tree) (b : board) (c : coord_t) :
  tboard (tree_fix_symmetry t b c) = tboard t /\
  max_depth (tree_fix_symmetry t b c) = max_depth t /\
  root_color (tree_fix_symmetry t b c) = root_color t /\
  root_symmetry (tree_fix_symmetry t b c) = root_symmetry t.
Proof.
  unfold tree_fix_symmetry. destruct (is_pass c); [repeat split|].
  destruct (symmetry_flips _ _ _) as [[fh fv] fd].
  destruct (fh || fv || fd); repeat split.
Qed.

Lemma promote_among_found (t : tree) (c : coord_t) (l : list tree_node)
    (k : tree_node) :
  find (fun k => coord k =? c) l = Some k ->
  promote_among t l c = (true, tree_promote_node t k).
Proof.
  induction l as [|a l IH]; simpl; [discriminate|].
  destruct (coord a =? c); [|exact IH].
  intros Hk; inversion Hk; reflexivity.
Qed.

Lemma tree_promote_at_child (t : tree) (b : board) (c : coord_t)
    (k : tree_node) :
  child_at c (root (tree_fix_symmetry t b c)) = Some k ->
  tree_promote_at t b c =
  (true, mk_tree (tboard t) k (max_depth t) (stone_other (root_color t))
                 (board_symmetry_update (tboard t) (root_symmetry t) c)).
Proof.
  intros Hk. unfold tree_promote_at, child_at in *.
  rewrite (promote_among_found _ _ _ _ Hk).
  destruct (find_coord_some _ _ _ Hk) as [_ Hc].
  destruct (tree_fix_symmetry_frame t b c) as (Hb & Hd & Hcol & Hsym).
  unfold tree_promote_node. now rewrite Hb, Hd, Hcol, Hsym, Hc.
Qed.

(** X1. [tree_promote_at] succeeds exactly when a child of the root carries
    the coordinate once the symmetry is fixed. The first such child is then
    the new root; the root color is the other color, the root symmetry is what
    [board_symmetry_update] makes of the old one for the move, and board and
    [max_depth] are kept. *)
Theorem tree_promote_at_first_match (t : tree) (b : board) (c : coord_t) :
  (fst (tree_promote_at t b c) = true <->
   exists k, In k (children (root (tree_fix_symmetry t b c))) /\ coord k = c) /\
  (forall k,
     child_at c (root (tree_fix_symmetry t b c)) = Some k ->
     tree_promote_at t b c =
     (true, mk_tree (tboard t) k (max_depth t) (stone_other (root_color t))
                    (board_symmetry_update (tboard t) (root_symmetry t) c))).
Proof.
  split; [|apply tree_promote_at_child]. split.
  - intros Htrue.
    destruct (child_at c (root (tree_fix_symmetry t b c))) as [k|] eqn:Hk.
    + exists k. apply (find_coord_some _ _ _ Hk).
    + exfalso. unfold tree_promote_at in Htrue.
      rewrite promote_among_absent in Htrue; [discriminate|].
      intros k Hin Hc. unfold child_at in Hk.
      apply (find_none _ _ Hk) in Hin. simpl in Hin.
      apply Z.eqb_neq in Hin. contradiction.
  - intros [k [Hin Hc]].
    destruct (child_at c (root (tree_fix_symmetry t b c))) as [k'|] eqn:Hk.
    + now rewrite (tree_promote_at_child t b c k' Hk).
    + exfalso. unfold child_at in Hk. apply (find_none _ _ Hk) in Hin.
      simpl in Hin. apply Z.eqb_neq in Hin. contradiction.
Qed.

Lemma promote_among_iff (t : tree) (c : coord_t) (l : list tree_node) :
  fst (promote_among t l c) = true <-> exists k, In k l /\ coord k = c.
Proof.
  split.
  - intros Htrue. destruct (find (fun k => coord k =? c) l) as [k|] eqn:Hk.
    + exists k. apply (find_coord_some _ _ _ Hk).
    + exfalso. rewrite promote_among_absent in Htrue; [discriminate|].
      intros k Hin Hc. apply (find_none _ _ Hk) in Hin. simpl in Hin.
      apply Z.eqb_neq in Hin. contradiction.
  - intros [k [Hin Hc]].
    destruct (find (fun k => coord k =? c) l) as [k'|] eqn:Hk.
    + now rewrite (promote_among_found t c l k' Hk).
    + exfalso. apply (find_none _ _ Hk) in Hin. simpl in Hin.
      apply Z.eqb_neq in Hin. contradiction.
Qed.

(** X2. Promotion looks for the move through the mirror: when the played point
    asks for flips, [tree_promote_at] succeeds exactly when some child of the
    root, its coordinate flipped that way, carries the point; when the point
    is pass or asks for no flip, exactly when a child carries it as it is. *)
Theorem tree_promote_at_mirrored (t : tree) (b : board) (c : coord_t) :
  fst (tree_promote_at t b c) = true <->
  exists k,
    In k (children (root t)) /\
    (let '(fh, fv, fd) := symmetry_flips (root_symmetry t) b c in
     if is_pass c || negb (fh || fv || fd) then coord k
     else mirrored b fh fv fd (coord k)) = c.
Proof.
  unfold tree_promote_at. rewrite promote_among_iff.
  unfold tree_fix_symmetry.
  destruct (is_pass c) eqn:Hp.
  { destruct (symmetry_flips _ _ _) as [[fh fv] fd]. reflexivity. }
  destruct (symmetry_flips _ _ _) as [[fh fv] fd].
  destruct (fh || fv || fd) eqn:Hany; simpl negb; cbv iota; [|reflexivity].
  simpl root. rewrite tree_fix_node_symmetry_unfold. simpl children.
  split.
  - intros [k' [Hin Hc]]. apply in_map_iff in Hin.
    destruct Hin as [k [<- Hk]]. exists k. split; [exact Hk|].
    rewrite tree_fix_node_symmetry_unfold in Hc. exact Hc.
  - intros [k [Hk Hc]].
    exists (tree_fix_node_symmetry b k fh fv fd). split.
    + apply in_map_iff. exists k. now split.
    + rewrite tree_fix_node_symmetry_unfold. exact Hc.
Qed.

(** ** Normalize *)

Lemma for_each_Forall2 {A B : Type} (f : A -> option B) (l : list A) :
  forall l', for_each f l = Some l' ->
             Forall2 (fun a v => f a = Some v) l l'.
Proof.
  induction l as [|a l IH]; simpl; intros l' Hl.
  - inversion Hl. constructor.
  - destruct (f a) as [v|] eqn:Hv; [|discriminate].
    destruct (for_each f l) as [r|]; [|discriminate].
    inversion Hl; subst. constructor; [exact Hv | now apply IH].
Qed.

Lemma for_each_fixed {A : Type} (f : A -> option A) (l : list A) :
  Forall (fun a => f a = Some a) l -> for_each f l = Some l.
Proof.
  induction 1 as [|a l Ha _ IH]; simpl; [reflexivity|].
  now rewrite Ha, IH.
Qed.

(** What [normalize_node] returns, field by field. *)
Lemma normalize_node_inv (x x' : tree_node) (f : Z) :
  normalize_node x f = Some x' ->
  f <> 0 /\
  x' = mk_node (hash x) (depth x) (coord x)
         (mk_stats (playouts (pu x) + Z.quot (playouts (u x) - playouts (pu x)) f)
                   (wins (pu x) + Z.quot (wins (u x) - wins (pu x)) f)
                   (value (u x)))
         (prior x)
         (mk_stats
            (playouts (pamaf x) + Z.quot (playouts (amaf x) - playouts (pamaf x)) f)
            (wins (pamaf x) + Z.quot (wins (amaf x) - wins (pamaf x)) f)
            (value (amaf x)))
         (mk_stats (playouts (pu x) + Z.quot (playouts (u x) - playouts (pu x)) f)
                   (wins (pu x) + Z.quot (wins (u x) - wins (pu x)) f)
                   (value (u x)))
         (mk_stats
            (playouts (pamaf x) + Z.quot (playouts (amaf x) - playouts (pamaf x)) f)
            (wins (pamaf x) + Z.quot (wins (amaf x) - wins (pamaf x)) f)
            (value (amaf x)))
         (hints x) (children x).
Proof.
  unfold normalize_node, normalize_stats, int_div.
  destruct (f =? 0) eqn:Hf; [discriminate|].
  apply Z.eqb_neq in Hf. intros Hx; inversion Hx. split; [exact Hf|].
  reflexivity.
Qed.

Lemma normalize_node_zero (x : tree_node) : normalize_node x 0 = None.
Proof. reflexivity. Qed.

(** Every node of the normalized tree is [normalize_node] of the node at
    the same place, up to the children. *)
Lemma tree_node_normalize_at (f : Z) :
  forall n n', tree_node_normalize n f = Some n' ->
  forall p m, subnode p n = Some m ->
    exists m', subnode p n' = Some m' /\
               normalize_node (set_children m (children m')) f = Some m' /\
               List.length (children m') = List.length (children m).
Proof.
  induction n as [h dp c su sp sa spu spa hi kids IH] using tree_node_ind.
  intros n' Hn' p m Hm. rewrite tree_node_normalize_unfold in Hn'.
  simpl children in Hn'.
  destruct (for_each _ kids) as [l|] eqn:Hl; [|discriminate].
  pose proof (normalize_node_inv _ _ _ Hn') as [_ Hfields].
  assert (Hch : children n' = l) by (rewrite Hfields; reflexivity).
  destruct p as [|i p]; simpl in Hm |- *.
  - inversion Hm; subst m. exists n'. split; [reflexivity|].
    rewrite Hch. split; [exact Hn'|].
    apply for_each_Forall2 in Hl. symmetry. apply (Forall2_length Hl).
  - destruct (nth_error kids i) as [k|] eqn:Hi; [|discriminate].
    apply for_each_Forall2 in Hl.
    destruct (Forall2_nth_error _ _ _ Hl i k Hi) as [k' [Hi' Hk']].
    rewrite Hch, Hi'. rewrite Forall_forall in IH.
    apply (IH k (nth_error_In _ _ Hi) k' Hk' p m Hm).
Qed.

Lemma tree_node_normalize_back (f : Z) :
  forall n n', tree_node_normalize n f = Some n' ->
  forall p m', subnode p n' = Some m' -> exists m, subnode p n = Some m.
Proof.
  induction n as [h dp c su sp sa spu spa hi kids IH] using tree_node_ind.
  intros n' Hn' p m' Hm'. rewrite tree_node_normalize_unfold in Hn'.
  simpl children in Hn'.
  destruct (for_each _ kids) as [l|] eqn:Hl; [|discriminate].
  pose proof (normalize_node_inv _ _ _ Hn') as [_ Hfields].
  assert (Hch : children n' = l) by (rewrite Hfields; reflexivity).
  destruct p as [|i p]; simpl in Hm' |- *.
  - eexists; reflexivity.
  - rewrite Hch in Hm'.
    destruct (nth_error l i) as [k'|] eqn:Hi'; [|discriminate].
    apply for_each_Forall2 in Hl.
    destruct (Forall2_nth_error_rev _ _ _ Hl i k' Hi') as [k [Hi Hk']].
    rewrite Hi. rewrite Forall_forall in IH.
    apply (IH k (nth_error_In _ _ Hi) k' Hk' p m' Hm').
Qed.

Lemma tree_node_normalize_zero (n : tree_node) :
  tree_node_normalize n 0 = None.
Proof.
  rewrite tree_node_normalize_unfold.
  destruct (for_each _ _); reflexivity.
Qed.

(** X3. [tree_normalize] ends in a division by zero exactly when the factor is
    zero: with any other factor it returns a tree, for every tree. *)
Theorem tree_normalize_fails_iff_zero (t : tree) (f : Z) :
  tree_normalize t f = None <-> f = 0.
Proof.
  split.
  - intros Hnone. destruct (Z.eq_dec f 0) as [E|E]; [exact E|].
    destruct (tree_node_normalize_spec f E (root t)) as [r [Hr _]].
    unfold tree_normalize in Hnone. rewrite Hr in Hnone. discriminate.
  - intros ->. unfold tree_normalize.
    now rewrite tree_node_normalize_zero.
Qed.

(** X4. [tree_normalize] touches only the counters and the baselines: every
    node keeps its place, its id, depth, coordinate, prior and hints, and the
    cached values of [u] and [amaf] are carried over as they were, not
    recomputed from the new counters. Board, depth and root color of the tree
    are kept, and no node is added. *)
Theorem tree_normalize_keeps (t t' : tree) (f : Z) :
  tree_normalize t f = Some t' ->
  tboard t' = tboard t /\ max_depth t' = max_depth t /\
  root_color t' = root_color t /\ root_symmetry t' = root_symmetry t /\
  (forall p n, subnode p (root t) = Some n ->
     exists n', subnode p (root t') = Some n' /\
       hash n' = hash n /\ depth n' = depth n /\ coord n' = coord n /\
       prior n' = prior n /\ hints n' = hints n /\
       value (u n') = value (u n) /\ value (amaf n') = value (amaf n) /\
       List.length (children n') = List.length (children n)) /\
  (forall p n', subnode p (root t') = Some n' ->
     exists n, subnode p (root t) = Some n).
Proof.
  unfold tree_normalize.
  destruct (tree_node_normalize (root t) f) as [r|] eqn:Hr; [|discriminate].
  intros Ht; inversion Ht; subst t'. simpl.
  do 4 (split; [reflexivity|]). split.
  - intros p n Hn.
    destruct (tree_node_normalize_at f _ _ Hr p n Hn)
      as [n' [Hn' [Hnode Hlen]]].
    exists n'. split; [exact Hn'|].
    destruct (normalize_node_inv _ _ _ Hnode) as [_ Hfields].
    rewrite Hfields at 1 2 3 4 5 6 7. simpl. repeat split. exact Hlen.
  - apply (tree_node_normalize_back f _ _ Hr).
Qed.

Lemma tree_normalize_keeps_witness :
  exists t',
    tree_normalize Samples.run_a 2 = Some t' /\
    tboard t' = tboard Samples.run_a /\
    max_depth t' = max_depth Samples.run_a /\
    root_color t' = root_color Samples.run_a /\
    root_symmetry t' = root_symmetry Samples.run_a /\
    (forall p n, subnode p (root Samples.run_a) = Some n ->
       exists n', subnode p (root t') = Some n' /\
         hash n' = hash n /\ depth n' = depth n /\ coord n' = coord n /\
         prior n' = prior n /\ hints n' = hints n /\
         value (u n') = value (u n) /\ value (amaf n') = value (amaf n) /\
         List.length (children n') = List.length (children n)) /\
    (forall p n', subnode p (root t') = Some n' ->
       exists n, subnode p (root Samples.run_a) = Some n).
Proof.
  eexists. split; [vm_compute; reflexivity|].
  apply (tree_normalize_keeps Samples.run_a _ 2). vm_compute. reflexivity.
Defined.

(** A node as [tree_node_normalize] leaves it is a fixed point of the
    normalization, for every factor but zero. *)
Lemma tree_node_normalize_settled (g : Z) :
  g <> 0 ->
  forall n,
    (forall p m, subnode p n = Some m -> pu m = u m /\ pamaf m = amaf m) ->
    tree_node_normalize n g = Some n.
Proof.
  intros Hg. induction n as [h dp c su sp sa spu spa hi kids IH]
    using tree_node_ind.
  intros Hall. rewrite tree_node_normalize_unfold. simpl children.
  rewrite for_each_fixed.
  - destruct (Hall [] _ eq_refl) as [Hu Ha]. simpl in Hu, Ha. subst spu spa.
    apply Z.eqb_neq in Hg.
    unfold normalize_node, normalize_stats, int_div. simpl.
    rewrite !Hg, !Z.sub_diag, !Z.quot_0_l, !Z.add_0_r
      by (apply Z.eqb_neq; exact Hg).
    destruct su, sa; reflexivity.
  - rewrite Forall_forall in IH |- *. intros k Hk. apply (IH k Hk).
    intros p m Hm. destruct (In_nth_error _ _ Hk) as [i Hi].
    apply (Hall (i :: p)). simpl. now rewrite Hi.
Qed.

(** X5. After [tree_normalize] no node has a gain left: [pu] and [pamaf] equal
    [u] and [amaf] at every node, so every node passes the test
    [tree_node_merge] skips a node on; and normalizing the result again, by
    any factor but zero, changes nothing. *)
Theorem tree_normalize_settles (t t' : tree) (f g : Z) :
  g <> 0 ->
  tree_normalize t f = Some t' ->
  (forall p n', subnode p (root t') = Some n' ->
     pu n' = u n' /\ pamaf n' = amaf n' /\ untouched n' = true) /\
  tree_normalize t' g = Some t'.
Proof.
  intros Hg. unfold tree_normalize.
  destruct (tree_node_normalize (root t) f) as [r|] eqn:Hr; [|discriminate].
  intros Ht; inversion Ht; subst t'. simpl.
  assert (Hall : forall p n', subnode p r = Some n' ->
                              pu n' = u n' /\ pamaf n' = amaf n').
  { intros p n' Hn'.
    destruct (tree_node_normalize_back f _ _ Hr p n' Hn') as [n Hn].
    destruct (tree_node_normalize_at f _ _ Hr p n Hn)
      as [n'' [Hn'' [Hnode _]]].
    rewrite Hn' in Hn''. inversion Hn''; subst n''.
    destruct (normalize_node_inv _ _ _ Hnode) as [_ Hfields].
    rewrite Hfields. split; reflexivity. }
  split.
  - intros p n' Hn'. destruct (Hall p n' Hn') as [Hu Ha].
    repeat split; [exact Hu | exact Ha|].
    unfold untouched. rewrite Hu, Ha, !Z.sub_diag. reflexivity.
  - rewrite (tree_node_normalize_settled g Hg r Hall).
    destruct t; reflexivity.
Qed.

Lemma tree_normalize_settles_witness :
  exists t',
    tree_normalize Samples.run_a 2 = Some t' /\
    (forall p n', subnode p (root t') = Some n' ->
       pu n' = u n' /\ pamaf n' = amaf n' /\ untouched n' = true) /\
    tree_normalize t' 3 = Some t'.
Proof.
  eexists. split; [vm_compute; reflexivity|].
  apply (tree_normalize_settles Samples.run_a _ 2 3);
    [lia | vm_compute; reflexivity].
Defined.

(** X6. With the factor 1 the counters stay as they are: [tree_normalize] only
    moves the baselines up to them, at every node. *)
Theorem tree_normalize_by_one (t : tree) :
  exists t',
    tree_normalize t 1 = Some t' /\
    forall p n, subnode p (root t) = Some n ->
      exists n', subnode p (root t') = Some n' /\
        u n' = u n /\ amaf n' = amaf n /\ pu n' = u n /\ pamaf n' = amaf n.
Proof.
  destruct (tree_normalize t 1) as [t'|] eqn:Ht.
  2: { apply tree_normalize_fails_iff_zero in Ht. discriminate. }
  exists t'. split; [reflexivity|].
  unfold tree_normalize in Ht.
  destruct (tree_node_normalize (root t) 1) as [r|] eqn:Hr; [|discriminate].
  inversion Ht; subst t'. simpl. intros p n Hn.
  destruct (tree_node_normalize_at 1 _ _ Hr p n Hn) as [n' [Hn' [Hnode _]]].
  exists n'. split; [exact Hn'|].
  destruct (normalize_node_inv _ _ _ Hnode) as [_ Hfields].
  rewrite Hfields. cbn [u amaf pu pamaf set_children playouts wins value].
  rewrite !Z.quot_1_r.
  replace (playouts (pu n) + (playouts (u n) - playouts (pu n)))
    with (playouts (u n)) by lia.
  replace (wins (pu n) + (wins (u n) - wins (pu n))) with (wins (u n)) by lia.
  replace (playouts (pamaf n) + (playouts (amaf n) - playouts (pamaf n)))
    with (playouts (amaf n)) by lia.
  replace (wins (pamaf n) + (wins (amaf n) - wins (pamaf n)))
    with (wins (amaf n)) by lia.
  destruct (u n), (amaf n). repeat split.
Qed.

(** X7. Merging a tree that was just normalized adds nothing: with equal
    baseline playouts at the roots, [tree_merge] returns [dest] with its root
    as it was, whatever the nodes of the normalized tree hold. *)
Theorem tree_merge_of_normalized (H : tree_h) (a : bool)
    (dest src src' : tree) (f : Z) :
  tree_normalize src f = Some src' ->
  playouts (pamaf (root dest)) = playouts (pamaf (root src')) ->
  playouts (pu (root dest)) = playouts (pu (root src')) ->
  exists dest',
    tree_merge H a dest src' = Some dest' /\ root dest' = root dest /\
    max_depth dest' = Z.max (max_depth dest) (max_depth src).
Proof.
  intros Hn Ba Bu.
  assert (Hone : (1 : Z) <> 0) by lia.
  destruct (tree_normalize_settles src src' f 1 Hone Hn) as [Hall _].
  destruct (Hall [] (root src') eq_refl) as (_ & _ & Hun).
  destruct (tree_normalize_keeps src src' f Hn) as (_ & Hmd & _).
  unfold tree_merge. rewrite tree_node_merge_unfold, Ba, Bu, !Z.eqb_refl.
  simpl negb. cbv iota. rewrite Hun. eexists. split; [reflexivity|].
  simpl. split; [reflexivity|]. rewrite Hmd.
  destruct (max_depth src >? max_depth dest) eqn:E.
  - apply Z.gtb_lt in E. lia.
  - rewrite Z.gtb_ltb in E. apply Z.ltb_ge in E. lia.
Qed.

Lemma tree_merge_of_normalized_witness :
  exists src',
    tree_normalize Samples.run_b 5 = Some src' /\
    exists dest',
      tree_merge Samples.mean_h false Samples.run_a src' = Some dest' /\
      root dest' = root Samples.run_a /\
      max_depth dest' =
        Z.max (max_depth Samples.run_a) (max_depth Samples.run_b).
Proof.
  eexists. split; [vm_compute; reflexivity|].
  apply (tree_merge_of_normalized Samples.mean_h false Samples.run_a
           Samples.run_b _ 5); vm_compute; reflexivity.
Defined.

(** ** Merge *)

Lemma tree_node_merge_coord (H : tree_h) (a : bool) (d s d' : tree_node) :
  tree_node_merge H a d s = Some d' -> coord d' = coord d.
Proof.
  rewrite tree_node_merge_unfold.
  destruct (negb _); [discriminate|]. destruct (negb _); [discriminate|].
  destruct (untouched s).
  - intros Hd; inversion Hd; reflexivity.
  - destruct (merge_children _ _ _) as [kids|]; [|discriminate].
    intros Hd. apply merge_stats_inv in Hd. destruct Hd as [Hc _].
    exact Hc.
Qed.

(** The loop over the child lists drops no coordinate and invents none. *)
Lemma merge_children_coords
    (m : tree_node -> tree_node -> option tree_node) :
  (forall d s d', m d s = Some d' -> coord d' = coord d) ->
  forall dl sl r,
    merge_children m dl sl = Some r ->
    (forall c, In c (map coord r) <->
               In c (map coord dl) \/ In c (map coord sl)) /\
    (List.length dl <= List.length r)%nat /\
    (List.length sl <= List.length r)%nat /\
    (List.length r <= List.length dl + List.length sl)%nat.
Proof.
  intros Hm. induction dl as [|di dl IH]; intros sl r.
  - simpl. intros Hr; inversion Hr; subst r. repeat split; try tauto; lia.
  - destruct sl as [|si sl].
    + simpl. intros Hr; inversion Hr; subst r.
      repeat split; simpl; try tauto; lia.
    + simpl merge_children. destruct (coord di =? coord si) eqn:E.
      * apply Z.eqb_eq in E.
        destruct (m di si) as [di'|] eqn:Hdi; [|discriminate].
        destruct (merge_children m dl sl) as [rest|] eqn:Hrest; [|discriminate].
        intros Hr; inversion Hr; subst r.
        destruct (IH sl rest Hrest) as (Hin & L1 & L2 & L3).
        apply Hm in Hdi. repeat split; simpl; try lia.
        -- rewrite Hdi. intros [Hc|Hc]; [tauto|]. apply Hin in Hc. tauto.
        -- rewrite Hdi, <- E. intros [[Hc|Hc]|[Hc|Hc]]; try tauto;
             right; apply Hin; tauto.
      * destruct (find_sibling (coord di) sl) as [[[sk si2] sl2]|] eqn:Hf.
        -- destruct (find_sibling_some _ _ _ _ _ Hf) as (Hsl & Hc2 & _).
           subst sl.
           destruct (m di si2) as [di'|] eqn:Hdi; [|discriminate].
           destruct (merge_children m dl sl2) as [rest|] eqn:Hrest;
             [|discriminate].
           intros Hr; inversion Hr; subst r.
           destruct (IH sl2 rest Hrest) as (Hin & L1 & L2 & L3).
           apply Hm in Hdi. repeat split.
           ++ simpl. rewrite !map_app, !in_app_iff. simpl. rewrite Hdi, Hc2.
              intros [Hc|[Hc|[Hc|Hc]]]; try tauto.
              apply Hin in Hc. tauto.
           ++ simpl. rewrite !map_app, !in_app_iff. simpl. rewrite Hdi, Hc2.
              intros [[Hc|Hc]|[Hc|[Hc|[Hc|Hc]]]]; try tauto;
                right; right; right; apply Hin; tauto.
           ++ simpl. rewrite !length_app. simpl. lia.
           ++ simpl. rewrite !length_app. simpl. lia.
           ++ simpl. rewrite !length_app. simpl. lia.
        -- destruct (merge_children m dl (si :: sl)) as [rest|] eqn:Hrest;
             [|discriminate].
           intros Hr; inversion Hr; subst r.
           destruct (IH (si :: sl) rest Hrest) as (Hin & L1 & L2 & L3).
           repeat split; simpl in *; try lia.
           ++ intros [Hc|Hc]; [tauto|]. apply Hin in Hc. tauto.
           ++ intros [[Hc|Hc]|Hc]; try tauto; right; apply Hin; tauto.
Qed.

(** X8. When [tree_node_merge] merges the children of a pair of nodes, every
    move that [dest] or [src] has a child for has a child in the result, and
    no other move has; the place of no node is lost, and at most the nodes of
    both lists are there. The node keeps its coordinate. *)
Theorem tree_node_merge_keeps_moves (H : tree_h) (a : bool)
    (dest src dest' : tree_node) :
  tree_node_merge H a dest src = Some dest' ->
  untouched src = false ->
  coord dest' = coord dest /\
  (forall c, In c (map coord (children dest')) <->
             In c (map coord (children dest)) \/
             In c (map coord (children src))) /\
  (List.length (children dest) <= List.length (children dest'))%nat /\
  (List.length (children src) <= List.length (children dest'))%nat /\
  (List.length (children dest') <=
   List.length (children dest) + List.length (children src))%nat.
Proof.
  intros Hm Hun. split; [apply (tree_node_merge_coord _ _ _ _ _ Hm)|].
  rewrite tree_node_merge_unfold in Hm.
  destruct (negb _); [discriminate|]. destruct (negb _); [discriminate|].
  rewrite Hun in Hm.
  destruct (merge_children _ _ _) as [kids|] eqn:Hk; [|discriminate].
  apply merge_stats_inv in Hm. destruct Hm as (_ & Hch & _).
  simpl in Hch. rewrite Hch.
  apply (merge_children_coords (tree_node_merge H a)
           (tree_node_merge_coord H a) _ _ _ Hk).
Qed.

Lemma tree_node_merge_keeps_moves_witness :
  exists dest',
    tree_node_merge Samples.mean_h false (root Samples.run_a)
                    (root Samples.run_b) = Some dest' /\
    coord dest' = coord (root Samples.run_a) /\
    (forall c, In c (map coord (children dest')) <->
               In c (map coord (children (root Samples.run_a))) \/
               In c (map coord (children (root Samples.run_b)))) /\
    (List.length (children (root Samples.run_a))
     <= List.length (children dest'))%nat /\
    (List.length (children (root Samples.run_b))
     <= List.length (children dest'))%nat /\
    (List.length (children dest') <=
     List.length (children (root Samples.run_a)) +
     List.length (children (root Samples.run_b)))%nat.
Proof.
  eexists. split; [vm_compute; reflexivity|].
  apply (tree_node_merge_keeps_moves Samples.mean_h false
           (root Samples.run_a) (root Samples.run_b));
    vm_compute; reflexivity.
Defined.

Lemma find_sibling_absent (c : coord_t) (l : list tree_node) :
  (forall k, In k l -> coord k <> c) -> find_sibling c l = None.
Proof.
  induction l as [|a l IH]; intros Hno; simpl; [reflexivity|].
  destruct (c =? coord a) eqn:E.
  - apply Z.eqb_eq in E. exfalso. apply (Hno a); [now left | now symmetry].
  - rewrite IH; [reflexivity|]. intros k Hk. apply Hno. now right.
Qed.

Lemma merge_children_disjoint
    (m : tree_node -> tree_node -> option tree_node) :
  forall dl sl,
    (forall k k', In k dl -> In k' sl -> coord k <> coord k') ->
    merge_children m dl sl = Some (dl ++ sl).
Proof.
  induction dl as [|di dl IH]; intros sl Hno; [reflexivity|].
  destruct sl as [|si sl]; [now rewrite app_nil_r|].
  simpl merge_children.
  assert (E : (coord di =? coord si) = false).
  { apply Z.eqb_neq. apply Hno; now left. }
  rewrite E. rewrite find_sibling_absent.
  - rewrite IH; [reflexivity|].
    intros k k' Hk Hk'. apply Hno; [now right | exact Hk'].
  - intros k Hk Hc. apply (Hno di k); [now left | now right | now symmetry].
Qed.

(** X9. The merge relies on sibling lists sorted by coordinate but does not
    keep them sorted: when the children of [dest] and of [src] share no move,
    the children of [src] are chained behind all those of [dest]; the list is
    then out of order as soon as a child of [src] has a smaller coordinate
    than a child of [dest]. *)
Theorem tree_node_merge_chains_behind (H : tree_h) (a : bool)
    (dest src dest' : tree_node) :
  tree_node_merge H a dest src = Some dest' ->
  untouched src = false ->
  (forall k k', In k (children dest) -> In k' (children src) ->
                coord k <> coord k') ->
  children dest' = children dest ++ children src /\
  ((exists k k', In k (children dest) /\ In k' (children src) /\
                 coord k' < coord k) ->
   ~ StronglySorted Z.lt (map coord (children dest'))).
Proof.
  intros Hm Hun Hno.
  rewrite tree_node_merge_unfold in Hm.
  destruct (negb _); [discriminate|]. destruct (negb _); [discriminate|].
  rewrite Hun in Hm. rewrite (merge_children_disjoint _ _ _ Hno) in Hm.
  apply merge_stats_inv in Hm. destruct Hm as (_ & Hch & _).
  simpl in Hch. split; [exact Hch|].
  intros (k & k' & Hk & Hk' & Hlt) Hs. rewrite Hch in Hs.
  apply in_split in Hk. destruct Hk as (l1 & l2 & Hl). rewrite Hl in Hs.
  rewrite <- app_assoc in Hs. simpl in Hs.
  pose proof (sorted_app_after Z.lt l1 (k :: l2 ++ children src) Hs) as Hs'.
  pose proof (sorted_head_below Z.lt k (l2 ++ children src) Hs' k') as Hb.
  assert (Hkk : coord k < coord k').
  { apply Hb. apply in_or_app. now right. }
  lia.
Qed.

Lemma tree_node_merge_chains_behind_witness :
  exists dest',
    tree_node_merge Samples.mean_h false (root Samples.run_a)
                    (root Samples.run_c) = Some dest' /\
    children dest' =
      children (root Samples.run_a) ++ children (root Samples.run_c) /\
    ((exists k k', In k (children (root Samples.run_a)) /\
                   In k' (children (root Samples.run_c)) /\
                   coord k' < coord k) ->
     ~ StronglySorted Z.lt (map coord (children dest'))).
Proof.
  eexists. split; [vm_compute; reflexivity|].
  apply (tree_node_merge_chains_behind Samples.mean_h false
           (root Samples.run_a) (root Samples.run_c)).
  - vm_compute. reflexivity.
  - vm_compute. reflexivity.
  - intros k k' [<-|[]] [<-|[]]. vm_compute. discriminate.
Defined.

Section MergeAborts.
Variable lt : coord_t -> coord_t -> Prop.
Hypothesis lt_irrefl : forall c, ~ lt c c.
Hypothesis lt_trans : forall a b c, lt a b -> lt b c -> lt a c.

(** On sorted lists the loop reaches every pair of children with the same
    coordinate: when the recursive call fails on one, the loop fails. *)
Lemma merge_children_aborts
    (m : tree_node -> tree_node -> option tree_node) :
  forall dl sl c k sk,
    StronglySorted lt (map coord dl) ->
    StronglySorted lt (map coord sl) ->
    find (fun k => coord k =? c) dl = Some k ->
    find (fun k => coord k =? c) sl = Some sk ->
    m k sk = None ->
    merge_children m dl sl = None.
Proof.
  induction dl as [|di dl IH]; intros sl c k sk Hd Hs Hfk Hfs Hm;
    [discriminate|].
  destruct sl as [|si sl]; [discriminate|].
  assert (Hdi : forall x, In x dl -> coord x <> coord di).
  { intros x Hx E. apply (lt_irrefl (coord di)).
    rewrite <- E at 2. now apply (sorted_head_below lt di dl). }
  assert (Hbelow : forall x, find (fun k => coord k =? c) dl = Some x ->
                             lt (coord di) c).
  { intros x Hx. destruct (find_coord_some _ _ _ Hx) as [Hin Hc].
    rewrite <- Hc. now apply (sorted_head_below lt di dl). }
  simpl merge_children. simpl in Hfk.
  destruct (coord di =? coord si) eqn:E.
  - apply Z.eqb_eq in E. simpl in Hfs. rewrite <- E in Hfs.
    destruct (coord di =? c) eqn:E1.
    + inversion Hfk; inversion Hfs; subst. now rewrite Hm.
    + destruct (m di si); [|reflexivity].
      now rewrite (IH sl c k sk (sorted_tail lt _ _ Hd)
                      (sorted_tail lt _ _ Hs) Hfk Hfs Hm).
  - apply Z.eqb_neq in E.
    destruct (find_sibling (coord di) sl) as [[[skp si2] sl2]|] eqn:Hf2.
    + destruct (find_sibling_some _ _ _ _ _ Hf2) as [Hsl [Hc2 Hsk]].
      subst sl.
      assert (Hbefore : forall x, In x (si :: skp) -> coord x <> coord di).
      { intros x [<-|Hx]; [congruence | now apply Hsk]. }
      destruct (coord di =? c) eqn:E1.
      * apply Z.eqb_eq in E1. subst c. inversion Hfk; subst k.
        change (si :: skp ++ si2 :: sl2)
          with ((si :: skp) ++ si2 :: sl2) in Hfs.
        rewrite find_coord_skip in Hfs by exact Hbefore.
        simpl in Hfs. rewrite Hc2, Z.eqb_refl in Hfs.
        inversion Hfs; subst sk. now rewrite Hm.
      * assert (Hlow : forall x, In x ((si :: skp) ++ [si2]) -> coord x <> c).
        { intros x Hx Ex. pose proof (Hbelow k Hfk) as Hdc.
          apply in_app_or in Hx. destruct Hx as [Hx|[<-|[]]].
          - apply (lt_irrefl c). apply lt_trans with (coord di);
              [|exact Hdc]. rewrite <- Ex, <- Hc2.
            apply (sorted_app_below lt (si :: skp) si2 sl2); assumption.
          - apply (lt_irrefl c). rewrite <- Ex at 1. now rewrite Hc2. }
        change (si :: skp ++ si2 :: sl2)
          with ((si :: skp) ++ [si2] ++ sl2) in Hfs.
        rewrite app_assoc in Hfs.
        rewrite find_coord_skip in Hfs by exact Hlow.
        destruct (m di si2); [|reflexivity].
        assert (Hs2 : StronglySorted lt (map coord sl2)).
        { apply (sorted_tail lt si2).
          apply (sorted_app_after lt (si :: skp)). exact Hs. }
        now rewrite (IH sl2 c k sk (sorted_tail lt _ _ Hd) Hs2 Hfk Hfs Hm).
    + pose proof (find_sibling_none _ _ Hf2) as Hno.
      destruct (coord di =? c) eqn:E1.
      * apply Z.eqb_eq in E1. subst c. exfalso.
        destruct (find_coord_some _ _ _ Hfs) as [[<-|Hin] Hcs].
        -- congruence.
        -- now apply (Hno sk Hin).
      * now rewrite (IH (si :: sl) c k sk (sorted_tail lt _ _ Hd) Hs
                        Hfk Hfs Hm).
Qed.

Lemma tree_node_merge_aborts (H : tree_h) (a : bool) :
  forall p dest src dn sn,
    ordered lt dest -> ordered lt src ->
    descend p dest = Some dn -> descend p src = Some sn ->
    reached p src = true ->
    clash dn sn ->
    tree_node_merge H a dest src = None.
Proof.
  induction p as [|c p IH]; intros dest src dn sn Hod Hos Hd Hs Hre Hcl;
    rewrite tree_node_merge_unfold.
  - simpl in Hd, Hs. inversion Hd; inversion Hs; subst dn sn.
    destruct (playouts (pamaf dest) =? playouts (pamaf src)) eqn:Ea;
      [|reflexivity].
    destruct (playouts (pu dest) =? playouts (pu src)) eqn:Eu;
      [|reflexivity].
    apply Z.eqb_eq in Ea. apply Z.eqb_eq in Eu. simpl negb. cbv iota.
    destruct Hcl as [Hcl|[Hcl|[Hun Hpr]]]; [contradiction..|].
    rewrite Hun. destruct (merge_children _ _ _); [|reflexivity].
    unfold merge_stats. simpl prior.
    destruct Hpr as [Hp|Hw].
    + apply Z.eqb_neq in Hp. now rewrite Hp.
    + apply Z.eqb_neq in Hw. rewrite Hw, andb_false_r. reflexivity.
  - simpl in Hd, Hs, Hre. unfold child_at in Hd, Hs, Hre.
    destruct (find (fun k => coord k =? c) (children dest)) as [k|] eqn:Hfk;
      [|discriminate].
    destruct (find (fun k => coord k =? c) (children src)) as [sk|] eqn:Hfs;
      [|discriminate].
    apply andb_prop in Hre. destruct Hre as [Hun Hre].
    apply negb_true_iff in Hun.
    destruct (negb _); [reflexivity|]. destruct (negb _); [reflexivity|].
    rewrite Hun.
    inversion Hod as [n Hsd Hkd]; subst n.
    inversion Hos as [n Hss Hks]; subst n.
    rewrite Forall_forall in Hkd, Hks.
    destruct (find_coord_some _ _ _ Hfk) as [Hink _].
    destruct (find_coord_some _ _ _ Hfs) as [Hins _].
    rewrite (merge_children_aborts (tree_node_merge H a) _ _ c k sk
               Hsd Hss Hfk Hfs); [reflexivity|].
    apply (IH k sk dn sn (Hkd k Hink) (Hks sk Hins) Hd Hs Hre Hcl).
Qed.

End MergeAborts.

(** X10. On two trees whose sibling lists are sorted by one strict order,
    [tree_merge] trips an assertion as soon as some pair of nodes it visits
    disagrees: on the baseline playouts of a channel, or, the node of [src]
    being touched, on the prior. *)
Theorem tree_merge_aborts_on_clash
    (lt : coord_t -> coord_t -> Prop) (H : tree_h) (a : bool)
    (dest src : tree) (p : list coord_t) (dn sn : tree_node) :
  (forall c, ~ lt c c) ->
  (forall x y z, lt x y -> lt y z -> lt x z) ->
  ordered lt (root dest) -> ordered lt (root src) ->
  descend p (root dest) = Some dn -> descend p (root src) = Some sn ->
  reached p (root src) = true ->
  clash dn sn ->
  tree_merge H a dest src = None.
Proof.
  intros Hirr Htr Hod Hos Hd Hs Hre Hcl. unfold tree_merge.
  now rewrite (tree_node_merge_aborts lt Hirr Htr H a p _ _ dn sn
                 Hod Hos Hd Hs Hre Hcl).
Qed.

Lemma tree_merge_aborts_on_clash_witness :
  tree_merge Samples.mean_h false Samples.run_a Samples.run_d = None.
Proof.
  apply (tree_merge_aborts_on_clash Z.lt Samples.mean_h false
           Samples.run_a Samples.run_d [60]
           (Samples.sample_node 60 1 6 3 4 2 0 [])
           (Samples.sample_node 60 1 5 2 3 1 0 [])).
  - intros c. apply Z.lt_irrefl.
  - intros x y z. apply Z.lt_trans.
  - repeat (constructor; simpl).
  - repeat (constructor; simpl).
  - reflexivity.
  - reflexivity.
  - reflexivity.
  - left. vm_compute. discriminate.
Defined.

(** ** Expansion *)

Lemma init_prior_same (H : tree_h) (uc : uct) (ni : tree_node)
    (p : move_stats) :
  same_counts (set_prior ni p) (init_prior H uc ni p).
Proof.
  unfold init_prior.
  destruct (playouts (prior (set_prior ni p)) =? 0);
    [unfold same_counts; repeat split|].
  destruct (amaf_prior uc);
    [apply rvalue_keeps_counts | apply value_keeps_counts].
Qed.

Lemma init_prior_fresh (H : tree_h) (uc : uct) (node : tree_node)
    (map : prior_map) (st : alloc_state) (c : coord_t) :
  let k := init_prior H uc (fst (tree_init_node st c (depth node + 1)))
                      (uct_prior uc node map c) in
  hash k = next_hash st /\ coord k = c /\ fresh_child uc node map k.
Proof.
  intros k. unfold k.
  destruct (init_prior_same H uc (fst (tree_init_node st c (depth node + 1)))
              (uct_prior uc node map c))
    as (Hh & Hd & Hc & Hhi & Hk & [Hu Huw] & [Hp Hpw] & [Ha Haw]
        & [Hpu _] & [Hpa _]).
  simpl in *. unfold fresh_child.
  rewrite Hh, Hd, Hc, Hhi, Hk, Hu, Huw, Hp, Hpw, Ha, Haw, Hpu, Hpa.
  repeat split.
Qed.

Lemma expand_loop_nodes (H : tree_h) t node b uc map (l : list (Z * Z)) :
  forall st kids st2 kids2,
    fold_left (expand_step H t node b uc map) l (Some (st, kids))
      = Some (st2, kids2) ->
    exists new,
      kids2 = kids ++ new /\
      (forall i k, nth_error new i = Some k ->
                   hash k = next_hash st + Z.of_nat i /\
                   fresh_child uc node map k) /\
      next_hash st2 = next_hash st + Z.of_nat (List.length new) /\
      deepest st2 = match new with
                    | [] => deepest st
                    | _ => Z.max (deepest st) (depth node + 1)
                    end.
Proof.
  induction l as [|[i j] l IH]; intros st kids st2 kids2.
  - simpl. intros Hs; inversion Hs; subst. exists [].
    rewrite app_nil_r. split; [reflexivity|].
    split; [intros [|i] k Hk; discriminate|]. split; simpl; lia.
  - simpl.
    destruct (negb (d (symmetry b) =? 0) && _); [apply IH|].
    destruct (negb (consider map (coord_xy_otf i j (tboard t))));
      [apply IH|].
    destruct (coord_xy_otf i j (tboard t) =? coord node).
    { rewrite expand_loop_stopped. discriminate. }
    set (c := coord_xy_otf i j (tboard t)).
    intros Hs. apply IH in Hs. destruct Hs as (new & Hk2 & Hnew & Hnh & Hdp).
    pose proof (init_prior_fresh H uc node map st c) as Hfresh.
    unfold tree_init_node in Hfresh. simpl in Hfresh.
    destruct Hfresh as (Hh & _ & Hfr).
    eexists (_ :: new). split; [rewrite Hk2, <- app_assoc; reflexivity|].
    simpl next_hash in *. simpl deepest in *.
    split; [|split].
    + intros [|i0] k Hk; simpl in Hk.
      * inversion Hk; subst k. split; [rewrite Hh; lia | exact Hfr].
      * destruct (Hnew i0 k Hk) as [Hhk Hfk]. split; [|exact Hfk].
        rewrite Hhk. lia.
    + rewrite Hnh. simpl List.length. lia.
    + rewrite Hdp. destruct new.
      * destruct (depth node + 1 >? deepest st) eqn:E.
        -- apply Z.gtb_lt in E. lia.
        -- rewrite Z.gtb_ltb in E. apply Z.ltb_ge in E. lia.
      * destruct (depth node + 1 >? deepest st) eqn:E.
        -- apply Z.gtb_lt in E. lia.
        -- rewrite Z.gtb_ltb in E. apply Z.ltb_ge in E. lia.
Qed.

Lemma tree_expand_node_nodes (H : tree_h) (counter : Z) (t : tree)
    (node : tree_node) (b : board) (color : stone) (radar : Z) (uc : uct)
    (par : Z) (n' : tree_node) (st' : alloc_state) :
  tree_expand_node H counter t node b color radar uc par = Some (n', st') ->
  n' = set_children node (children n') /\
  (forall i k, nth_error (children n') i = Some k ->
     hash k = counter + Z.of_nat i /\
     fresh_child uc node
       (mk_prior_map b color (tree_parity H t par)
                     (consider_map b color radar)) k) /\
  next_hash st' = counter + Z.of_nat (List.length (children n')) /\
  deepest st' = Z.max (max_depth t) (depth node + 1).
Proof.
  unfold tree_expand_node.
  set (map := mk_prior_map b color (tree_parity H t par)
                           (consider_map b color radar)).
  pose proof (init_prior_fresh H uc node map (mk_alloc counter (max_depth t))
                pass) as Hfirst.
  unfold tree_init_node in *. simpl fst in Hfirst. simpl next_hash in Hfirst.
  destruct Hfirst as (Hh & _ & Hfr).
  destruct (fold_left _ _ _) as [[st2 kids]|] eqn:Hf; [|discriminate].
  intros Hs; inversion Hs; subst n' st'. clear Hs.
  apply expand_loop_nodes in Hf.
  destruct Hf as (new & Hk & Hnew & Hnh & Hdp).
  simpl next_hash in *. simpl deepest in *. simpl children.
  split; [reflexivity|]. subst kids. split; [|split].
  - intros [|i] k Hk; simpl in Hk.
    + inversion Hk; subst k. split; [rewrite Hh; lia | exact Hfr].
    + destruct (Hnew i k Hk) as [Hhk Hfk]. split; [|exact Hfk].
      rewrite Hhk. lia.
  - rewrite Hnh. simpl List.length. lia.
  - rewrite Hdp.
    destruct (depth node + 1 >? max_depth t) eqn:E.
    + apply Z.gtb_lt in E. destruct new; lia.
    + rewrite Z.gtb_ltb in E. apply Z.ltb_ge in E. destruct new; lia.
Qed.

(** X11. An expansion that returns hangs its children under the node and
    leaves the node itself alone. The children are leaves one level down,
    numbered consecutively from the static counter on in the order of the
    list, with the prior counters of [uct_prior] and no other playouts; the
    counter moves on by the number of children, and [max_depth] becomes at
    least the depth of the children. *)
Theorem tree_expand_node_fresh_children (H : tree_h) (counter : Z) (t : tree)
    (node : tree_node) (b : board) (color : stone) (radar : Z) (uc : uct)
    (par : Z) (n' : tree_node) (st' : alloc_state) :
  tree_expand_node H counter t node b color radar uc par = Some (n', st') ->
  n' = set_children node (children n') /\
  (forall i k, nth_error (children n') i = Some k ->
     hash k = counter + Z.of_nat i /\
     fresh_child uc node
       (mk_prior_map b color (tree_parity H t par)
                     (consider_map b color radar)) k) /\
  next_hash st' = counter + Z.of_nat (List.length (children n')) /\
  deepest st' = Z.max (max_depth t) (depth node + 1).
Proof.
  intros Hex.
  destruct (tree_expand_node_nodes H counter t node b color radar uc par
              n' st' Hex) as (Hnode & Hkids & Hnext & Hdeep).
  split; [exact Hnode|]. split; [|split; [exact Hnext | exact Hdeep]].
  intros i k Hk. apply (Hkids i k Hk).
Qed.

Lemma tree_expand_node_fresh_children_witness :
  exists n' st',
    tree_expand_node Samples.mean_h 1000001 Samples.opening
      (root Samples.opening) Samples.board9 S_BLACK 0 Samples.even_prior 1
      = Some (n', st') /\
    n' = set_children (root Samples.opening) (children n') /\
    (forall i k, nth_error (children n') i = Some k ->
       hash k = 1000001 + Z.of_nat i /\
       fresh_child Samples.even_prior (root Samples.opening)
         (mk_prior_map Samples.board9 S_BLACK
            (tree_parity Samples.mean_h Samples.opening 1)
            (consider_map Samples.board9 S_BLACK 0)) k) /\
    next_hash st' = 1000001 + Z.of_nat (List.length (children n')) /\
    deepest st' =
      Z.max (max_depth Samples.opening) (depth (root Samples.opening) + 1).
Proof.
  eexists. eexists. split; [vm_compute; reflexivity|].
  apply (tree_expand_node_fresh_children Samples.mean_h 1000001
           Samples.opening (root Samples.opening) Samples.board9 S_BLACK 0
           Samples.even_prior 1).
  vm_compute. reflexivity.
Defined.

Lemma expand_loop_fails (H : tree_h) t node b color radar uc par
    (l : list (Z * Z)) :
  forall st kids,
    fold_left
      (expand_step H t node b uc
         (mk_prior_map b color par (consider_map b color radar)))
      l (Some (st, kids)) = None <->
    In (coord node)
      (map (fun ij => coord_xy_otf (fst ij) (snd ij) (tboard t))
        (filter
           (fun ij =>
              negb (negb (d (symmetry b) =? 0) &&
                    ((if is_diag_down (type (symmetry b))
                      then board_size b - 1 - fst ij else fst ij) >? snd ij)) &&
              consider_map b color radar
                (coord_xy_otf (fst ij) (snd ij) (tboard t)))
           l)).
Proof.
  induction l as [|[i j] l IH]; intros st kids; simpl.
  - split; [discriminate | intros []].
  - destruct (negb (d (symmetry b) =? 0) &&
              ((if is_diag_down (type (symmetry b))
                then board_size b - 1 - i else i) >? j)); simpl.
    { apply IH. }
    destruct (consider_map b color radar (coord_xy_otf i j (tboard t)));
      simpl.
    2: { apply IH. }
    destruct (coord_xy_otf i j (tboard t) =? coord node) eqn:E.
    + rewrite expand_loop_stopped. apply Z.eqb_eq in E. tauto.
    + apply Z.eqb_neq in E. rewrite IH. tauto.
Qed.

(** X12. The assertion [c != node->coord] of [tree_expand_node] fails exactly
    when the coordinate of the expanded node is one of the points the
    expansion makes children of; in every other case the expansion returns. *)
Theorem tree_expand_node_fails_iff (H : tree_h) (counter : Z) (t : tree)
    (node : tree_node) (b : board) (color : stone) (radar : Z) (uc : uct)
    (par : Z) :
  tree_expand_node H counter t node b color radar uc par = None <->
  In (coord node) (expanded_points t b color radar).
Proof.
  unfold tree_expand_node, expanded_points. simpl.
  rewrite <- (expand_loop_fails H t node b color radar uc
                (tree_parity H t par) (playground (symmetry b))
                (mk_alloc (counter + 1)
                   (if depth node + 1 >? max_depth t then depth node + 1
                    else max_depth t))
                [init_prior H uc
                   (mk_node counter (depth node + 1) pass no_stats no_stats
                            no_stats no_stats no_stats 0 [])
                   (uct_prior uc node
                      (mk_prior_map b color (tree_parity H t par)
                                    (consider_map b color radar)) pass)]).
  destruct (fold_left _ _ _) as [[st2 kids]|]; split; congruence.
Qed.

Lemma find_coord_present (c : coord_t) (l : list tree_node) :
  In c (map coord l) -> exists k, find (fun k => coord k =? c) l = Some k.
Proof.
  induction l as [|a l IH]; simpl; [intros []|].
  destruct (coord a =? c) eqn:E; [intros _; now exists a|].
  apply Z.eqb_neq in E. intros [Hc|Hc]; [contradiction | now apply IH].
Qed.

(** X13. Expansion and promotion fit together: once the root is expanded,
    every move the expansion considered, pass included, can be promoted when
    it asks for no flip of the tree. The new root is the fresh child made for
    the move. *)
Theorem tree_promote_at_expanded (H : tree_h) (counter : Z) (t : tree)
    (b : board) (color : stone) (radar : Z) (uc : uct) (par : Z)
    (n' : tree_node) (st' : alloc_state) (b' : board) (c : coord_t) :
  tree_expand_node H counter t (root t) b color radar uc par
    = Some (n', st') ->
  In c (pass :: expanded_points t b color radar) ->
  is_pass c = true \/
  symmetry_flips (root_symmetry t) b' c = (false, false, false) ->
  exists k,
    tree_promote_at
      (mk_tree (tboard t) n' (deepest st') (root_color t) (root_symmetry t))
      b' c
    = (true,
       mk_tree (tboard t) k (deepest st') (stone_other (root_color t))
               (board_symmetry_update (tboard t) (root_symmetry t) c)) /\
    coord k = c /\
    fresh_child uc (root t)
      (mk_prior_map b color (tree_parity H t par)
                    (consider_map b color radar)) k.
Proof.
  intros Hex Hin Hflip.
  set (t' := mk_tree (tboard t) n' (deepest st') (root_color t)
                     (root_symmetry t)).
  assert (Hfix : tree_fix_symmetry t' b' c = t').
  { unfold tree_fix_symmetry. destruct (is_pass c); [reflexivity|].
    destruct Hflip as [Hp|Hfl]; [discriminate|].
    simpl root_symmetry. now rewrite Hfl. }
  rewrite <- (tree_expand_node_children _ _ _ _ _ _ _ _ _ _ _ Hex) in Hin.
  destruct (find_coord_present c _ Hin) as [k Hk].
  exists k. split; [|split].
  - apply (tree_promote_at_child t' b' c k). rewrite Hfix. exact Hk.
  - apply (find_coord_some _ _ _ Hk).
  - destruct (find_coord_some _ _ _ Hk) as [Hink _].
    destruct (In_nth_error _ _ Hink) as [i Hi].
    destruct (tree_expand_node_nodes _ _ _ _ _ _ _ _ _ _ _ Hex)
      as (_ & Hkids & _).
    apply (Hkids i k Hi).
Qed.

Lemma tree_promote_at_expanded_witness :
  exists n' st',
    tree_expand_node Samples.mean_h 1000001 Samples.opening
      (root Samples.opening) Samples.board9 S_BLACK 0 Samples.even_prior 1
      = Some (n', st') /\
    exists k,
      tree_promote_at
        (mk_tree (tboard Samples.opening) n' (deepest st')
                 (root_color Samples.opening) (root_symmetry Samples.opening))
        Samples.board9 71
      = (true,
         mk_tree (tboard Samples.opening) k (deepest st')
                 (stone_other (root_color Samples.opening))
                 (board_symmetry_update (tboard Samples.opening)
                    (root_symmetry Samples.opening) 71)) /\
      coord k = 71 /\
      fresh_child Samples.even_prior (root Samples.opening)
        (mk_prior_map Samples.board9 S_BLACK
           (tree_parity Samples.mean_h Samples.opening 1)
           (consider_map Samples.board9 S_BLACK 0)) k.
Proof.
  eexists. eexists. split; [vm_compute; reflexivity|].
  apply (tree_promote_at_expanded Samples.mean_h 1000001 Samples.opening
           Samples.board9 S_BLACK 0 Samples.even_prior 1 _ _
           Samples.board9 71).
  - vm_compute. reflexivity.
  - vm_compute. tauto.
  - right. vm_compute. reflexivity.
Defined.

Lemma hashes_apart (counter : Z) (l : list tree_node) :
  (forall i k, nth_error l i = Some k -> hash k = counter + 1 + Z.of_nat i) ->
  ~ In counter (map hash l) /\ NoDup (map hash l).
Proof.
  revert counter. induction l as [|a l IH]; intros counter Hh.
  - split; [intros [] | constructor].
  - pose proof (Hh O a eq_refl) as Ha. simpl in Ha.
    destruct (IH (counter + 1)) as [Hnot Hnd].
    { intros i k Hk. rewrite (Hh (S i) k Hk). lia. }
    split.
    + simpl. intros [E|Hin]; [lia|].
      apply in_map_iff in Hin. destruct Hin as [k [Ek Hk]].
      destruct (In_nth_error _ _ Hk) as [i Hi].
      pose proof (Hh (S i) k Hi). lia.
    + simpl. constructor; [|exact Hnd].
      rewrite Ha, Z.add_0_r. exact Hnot.
Qed.

(** X14. The first expansion of a tree as [tree_init] makes it: the root keeps
    the id [tree_init] gave it, no two nodes of the tree have the same id, the
    static counter has moved past all of them, and [max_depth] is 1. *)
Theorem tree_init_then_expand (H : tree_h) (counter : Z) (b0 b : board)
    (color0 color : stone) (radar : Z) (uc : uct) (par : Z)
    (n' : tree_node) (st' : alloc_state) :
  tree_expand_node H (snd (tree_init counter b0 color0))
    (fst (tree_init counter b0 color0))
    (root (fst (tree_init counter b0 color0))) b color radar uc par
    = Some (n', st') ->
  hash n' = counter /\ coord n' = pass /\ depth n' = 0 /\
  NoDup (hash n' :: map hash (children n')) /\
  (forall k, In k (children n') -> hash k < next_hash st') /\
  deepest st' = 1 /\
  root_color (fst (tree_init counter b0 color0)) = stone_other color0.
Proof.
  intros Hex.
  destruct (tree_expand_node_nodes _ _ _ _ _ _ _ _ _ _ _ Hex)
    as (Hn & Hkids & Hnext & Hdeep).
  simpl in Hn, Hkids, Hnext, Hdeep.
  assert (Hh : hash n' = counter) by (rewrite Hn; reflexivity).
  assert (Hids : forall i k, nth_error (children n') i = Some k ->
                             hash k = counter + 1 + Z.of_nat i).
  { intros i k Hk. apply (Hkids i k Hk). }
  destruct (hashes_apart counter (children n') Hids) as [Hnot Hnd].
  split; [exact Hh|]. split; [rewrite Hn; reflexivity|].
  split; [rewrite Hn; reflexivity|]. split.
  - constructor; [now rewrite Hh | exact Hnd].
  - split; [|split; [exact Hdeep | reflexivity]].
    intros k Hk. destruct (In_nth_error _ _ Hk) as [i Hi].
    rewrite (Hids i k Hi), Hnext.
    assert (i < List.length (children n'))%nat
      by (apply nth_error_Some; congruence).
    lia.
Qed.

Lemma tree_init_then_expand_witness :
  exists n' st',
    tree_expand_node Samples.mean_h
      (snd (tree_init 1000000 Samples.board9 S_BLACK))
      (fst (tree_init 1000000 Samples.board9 S_BLACK))
      (root (fst (tree_init 1000000 Samples.board9 S_BLACK)))
      Samples.board9 S_BLACK 0 Samples.even_prior 1 = Some (n', st') /\
    hash n' = 1000000 /\ coord n' = pass /\ depth n' = 0 /\
    NoDup (hash n' :: map hash (children n')) /\
    (forall k, In k (children n') -> hash k < next_hash st') /\
    deepest st' = 1 /\
    root_color (fst (tree_init 1000000 Samples.board9 S_BLACK))
      = stone_other S_BLACK.
Proof.
  eexists. eexists. split; [vm_compute; reflexivity|].
  apply (tree_init_then_expand Samples.mean_h 1000000 Samples.board9
           Samples.board9 S_BLACK S_BLACK 0 Samples.even_prior 1).
  vm_compute. reflexivity.
Defined.

(** ** The opening book *)

Lemma load_children_counted (thres : Z) (fuel : nat) (node : tree_node) :
  children node = [] ->
  forall kids,
    Forall (fun k =>
              forall base rest num,
                children base = [] ->
                tree_node_load fuel (tl (tree_node_save k thres ++ rest))
                               base num
                = Some (book_image thres base k, rest,
                        num + Z.of_nat (node_count (book_image thres base k))))
           kids ->
    forall n acc rest num,
      (List.length kids < n)%nat ->
      load_children (tree_node_load fuel) n node
        (flat_map (fun k => tree_node_save k thres) kids ++ Byte 0 :: rest)
        acc num
      = Some (set_children node
                (acc ++ map (book_image thres calloc_node) kids),
              rest,
              num + Z.of_nat
                      (list_sum (map node_count
                                   (map (book_image thres calloc_node) kids)))).
Proof.
  intros Hleaf kids Hall. induction Hall as [|k kids Hk _ IH];
    intros n acc rest num Hn; (destruct n as [|n]; [simpl in Hn; lia|]).
  - simpl. rewrite Hleaf, app_nil_r, Z.add_0_r. reflexivity.
  - simpl flat_map. rewrite <- app_assoc.
    pose proof (Hk calloc_node
                  (flat_map (fun k => tree_node_save k thres) kids
                   ++ Byte 0 :: rest) num eq_refl) as Hload.
    destruct (tree_node_save_head k thres) as [f Hf].
    rewrite Hf in Hload |- *. simpl tl in Hload.
    simpl load_children. rewrite Hleaf. rewrite Hload.
    rewrite IH by (simpl in Hn; lia).
    simpl map. simpl list_sum. rewrite <- app_assoc. simpl app.
    f_equal. f_equal. lia.
Qed.

Lemma tree_node_load_counted (thres : Z) :
  forall n fuel base rest num,
    (node_count n < fuel)%nat ->
    children base = [] ->
    tree_node_load fuel (tl (tree_node_save n thres ++ rest)) base num
    = Some (book_image thres base n, rest,
            num + Z.of_nat (node_count (book_image thres base n))).
Proof.
  induction n as [h dp c su sp sa spu spa hi kids IH] using tree_node_ind.
  intros fuel base rest num Hfuel Hleaf.
  set (n := mk_node h dp c su sp sa spu spa hi kids) in *.
  rewrite node_count_unfold in Hfuel. simpl children in Hfuel.
  destruct fuel as [|fuel]; [lia|].
  rewrite tree_node_save_unfold, book_image_unfold. simpl tl.
  simpl tree_node_load. rewrite <- app_assoc. simpl app.
  rewrite Hleaf. simpl app.
  assert (Hl : children (load_fields base (node_record n)) = []).
  { exact Hleaf. }
  rewrite node_count_unfold. simpl children.
  simpl u. destruct (playouts su >=? thres).
  - rewrite (load_children_counted thres fuel _ Hl kids).
    + simpl app. f_equal. f_equal. lia.
    + rewrite Forall_forall in IH |- *. intros k Hk base' rest' num' Hb.
      apply IH; [exact Hk | | exact Hb].
      pose proof (node_count_in k kids Hk). lia.
    + pose proof (node_count_length kids). lia.
  - assert (Hlt : (List.length (@nil tree_node) < fuel)%nat)
      by (simpl; lia).
    pose proof (load_children_counted thres fuel _ Hl [] (Forall_nil _)
                  fuel [] rest (num + 1) Hlt) as Hload.
    simpl in Hload |- *. rewrite Hload. f_equal. f_equal. lia.
Qed.

Lemma node_count_book_image (thres : Z) :
  forall n base,
    children base = [] ->
    node_count (book_image thres base n) = node_count (stored thres n).
Proof.
  induction n as [h dp c su sp sa spu spa hi kids IH] using tree_node_ind.
  intros base Hleaf. rewrite book_image_unfold, stored_unfold.
  rewrite !node_count_unfold. simpl children. rewrite Hleaf. simpl app.
  simpl u. destruct (playouts su >=? thres); [|reflexivity].
  f_equal. f_equal. rewrite !map_map. apply map_ext_Forall.
  rewrite Forall_forall in IH |- *. intros k Hk. now apply IH.
Qed.

Lemma node_count_stored (thres : Z) :
  forall n, (node_count (stored thres n) <= node_count n)%nat.
Proof.
  induction n as [h dp c su sp sa spu spa hi kids IH] using tree_node_ind.
  rewrite stored_unfold, !node_count_unfold. simpl children. simpl u.
  destruct (playouts su >=? thres); [|simpl; lia].
  apply le_n_S. rewrite map_map.
  induction IH as [|k kids Hk _ IHk]; simpl; [lia|]. lia.
Qed.

Lemma tree_load_saved (t fresh : tree) (thres : Z) (fuel : nat) :
  children (root fresh) = [] ->
  (node_count (root t) < fuel)%nat ->
  tree_load fuel fresh (Some (tree_save t thres)) =
  Some (set_root fresh (book_image thres (root fresh) (root t)),
        Z.of_nat (node_count (book_image thres (root fresh) (root t)))).
Proof.
  intros Hleaf Hfuel. unfold tree_load, tree_save.
  pose proof (tree_node_load_counted thres (root t) fuel (root fresh)
                [Byte 0] 0 Hfuel Hleaf) as Hload.
  destruct (tree_node_save_head (root t) thres) as [f Hf].
  rewrite Hf in Hload |- *. simpl in Hload |- *.
  now rewrite Hload.
Qed.

(** X15. The number [tree_load] reports as loaded is the number of nodes of
    the tree it leaves, when the book is loaded into a tree without children:
    the nodes the book kept, at most those of the saved tree. *)
Theorem tree_load_counts_nodes (t fresh : tree) (thres : Z) (fuel : nat) :
  children (root fresh) = [] ->
  (node_count (root t) < fuel)%nat ->
  exists t',
    tree_load fuel fresh (Some (tree_save t thres))
      = Some (t', Z.of_nat (node_count (root t'))) /\
    node_count (root t') = node_count (stored thres (root t)) /\
    (node_count (root t') <= node_count (root t))%nat.
Proof.
  intros Hleaf Hfuel.
  exists (set_root fresh (book_image thres (root fresh) (root t))).
  split; [exact (tree_load_saved t fresh thres fuel Hleaf Hfuel)|].
  simpl. rewrite (node_count_book_image thres _ _ Hleaf).
  split; [reflexivity | apply node_count_stored].
Qed.

Lemma tree_load_counts_nodes_witness :
  exists t',
    tree_load 3 Samples.opening (Some (tree_save Samples.heavy 5))
      = Some (t', Z.of_nat (node_count (root t'))) /\
    node_count (root t') = node_count (stored 5 (root Samples.heavy)) /\
    (node_count (root t') <= node_count (root Samples.heavy))%nat.
Proof.
  apply (tree_load_counts_nodes Samples.heavy Samples.opening 5 3).
  - reflexivity.
  - vm_compute. lia.
Defined.

Lemma load_fields_fields (base : tree_node) (r : book_record) :
  load_fields base r =
  mk_node (hash base) (r_depth r) (r_coord r) (clamp_stats (r_u r))
          (r_prior r) (clamp_stats (r_amaf r)) (clamp_stats (r_u r))
          (clamp_stats (r_amaf r)) (r_hints r) (children base).
Proof. reflexivity. Qed.

Lemma clamp_stats_again (s : move_stats) :
  clamp_stats (clamp_stats s) = clamp_stats s.
Proof.
  unfold clamp_stats. destruct (playouts s >? MAX_PLAYOUTS) eqn:E.
  - simpl. reflexivity.
  - now rewrite E.
Qed.

Lemma clamp_stats_kept (s : move_stats) (thres : Z) :
  thres <= MAX_PLAYOUTS ->
  (playouts (clamp_stats s) >=? thres) = (playouts s >=? thres).
Proof.
  intros Hle. unfold clamp_stats.
  destruct (playouts s >? MAX_PLAYOUTS) eqn:E; [|reflexivity].
  apply Z.gtb_lt in E. simpl playouts.
  rewrite !Z.geb_leb.
  transitivity true; [|symmetry]; apply Z.leb_le; lia.
Qed.

(** Loading what was saved of a loaded tree builds the same tree again,
    when the threshold is not above the ceiling of the playouts. *)
Lemma book_image_again (thres : Z) :
  thres <= MAX_PLAYOUTS ->
  forall n base base',
    children base = [] -> children base' = [] ->
    book_image thres base (book_image thres base' n)
    = book_image thres base n.
Proof.
  intros Hle.
  induction n as [h dp c su sp sa spu spa hi kids IH] using tree_node_ind.
  intros base base' Hb Hb'.
  set (n := mk_node h dp c su sp sa spu spa hi kids) in *.
  rewrite (book_image_unfold thres base' n).
  rewrite (book_image_unfold thres base (set_children _ _)).
  rewrite (book_image_unfold thres base n).
  rewrite Hb, Hb'. rewrite !load_fields_fields.
  cbn [app set_children node_record hash depth coord u prior amaf pu pamaf
       hints children r_depth r_coord r_u r_prior r_amaf r_pu r_pamaf
       r_hints].
  subst n.
  cbn [node_record hash depth coord u prior amaf pu pamaf hints children
       r_depth r_coord r_u r_prior r_amaf r_pu r_pamaf r_hints].
  rewrite !clamp_stats_again, (clamp_stats_kept su thres Hle).
  f_equal. destruct (playouts su >=? thres); [|reflexivity].
  rewrite map_map. apply map_ext_Forall.
  rewrite Forall_forall in IH |- *. intros k Hk. now apply IH.
Qed.

(** X16. Saving a loaded book and loading it again gives the same tree and the
    same node count, when the threshold is at most [MAX_PLAYOUTS]: the ceiling
    the loader puts on playouts is applied once and for all. *)
Theorem tree_load_save_again (t fresh : tree) (thres : Z) (fuel : nat) :
  children (root fresh) = [] ->
  (node_count (root t) < fuel)%nat ->
  thres <= MAX_PLAYOUTS ->
  exists t1 num,
    tree_load fuel fresh (Some (tree_save t thres)) = Some (t1, num) /\
    tree_load fuel fresh (Some (tree_save t1 thres)) = Some (t1, num).
Proof.
  intros Hleaf Hfuel Hle. eexists. eexists.
  split; [apply tree_load_saved; assumption|].
  rewrite tree_load_saved.
  - simpl root. now rewrite (book_image_again thres Hle _ _ _ Hleaf Hleaf).
  - exact Hleaf.
  - simpl root. rewrite (node_count_book_image thres _ _ Hleaf).
    pose proof (node_count_stored thres (root t)). lia.
Qed.

Lemma tree_load_save_again_witness :
  exists t1 num,
    tree_load 3 Samples.opening (Some (tree_save Samples.heavy 5))
      = Some (t1, num) /\
    tree_load 3 Samples.opening (Some (tree_save t1 5)) = Some (t1, num).
Proof.
  apply (tree_load_save_again Samples.heavy Samples.opening 5 3).
  - reflexivity.
  - vm_compute. lia.
  - vm_compute. discriminate.
Defined.

(** A load that returns has read the saved node and nothing more. *)
Lemma load_children_rest (thres : Z) (fuel : nat) (rest : list book_item) :
  forall kids,
    Forall (fun k =>
              forall base rest' num res,
                tree_node_load fuel (tl (tree_node_save k thres ++ rest'))
                               base num = Some res ->
                snd (fst res) = rest') kids ->
    forall n node acc num res,
      load_children (tree_node_load fuel) n node
        (flat_map (fun k => tree_node_save k thres) kids ++ Byte 0 :: rest)
        acc num = Some res ->
      snd (fst res) = rest.
Proof.
  induction 1 as [|k kids Hk _ IH]; intros n node acc num res;
    (destruct n as [|n]; [discriminate|]).
  - simpl. intros Hr; inversion Hr; reflexivity.
  - simpl flat_map. rewrite <- app_assoc.
    destruct (tree_node_save_head k thres) as [f Hf].
    pose proof (Hk calloc_node
                  (flat_map (fun k => tree_node_save k thres) kids
                   ++ Byte 0 :: rest) num) as Hload.
    rewrite Hf in Hload |- *. simpl tl in Hload. simpl load_children.
    destruct (children node); [|discriminate].
    destruct (tree_node_load fuel _ calloc_node num)
      as [[[ni f''] num']|] eqn:E; [|discriminate].
    specialize (Hload _ eq_refl). simpl in Hload. subst f''.
    apply IH.
Qed.

Lemma tree_node_load_rest (thres : Z) :
  forall n fuel base rest num res,
    tree_node_load fuel (tl (tree_node_save n thres ++ rest)) base num
      = Some res ->
    snd (fst res) = rest.
Proof.
  induction n as [h dp c su sp sa spu spa hi kids IH] using tree_node_ind.
  intros fuel base rest num res.
  destruct fuel as [|fuel]; [discriminate|].
  rewrite tree_node_save_unfold. simpl tl. simpl tree_node_load.
  rewrite <- app_assoc. simpl app. simpl u.
  destruct (playouts su >=? thres).
  - simpl children. apply (load_children_rest thres fuel rest kids).
    rewrite Forall_forall in IH |- *. intros k Hk base' rest' num' res'.
    apply (IH k Hk).
  - apply (load_children_rest thres fuel rest [] (Forall_nil _)).
Qed.

(** A proper beginning [q] of a list [s]. *)
Lemma cut_inside_or_after {A : Type} (q s x r : list A) :
  s ++ x = q ++ r ->
  (exists r', r' <> [] /\ s = q ++ r') \/ (exists q', q = s ++ q' /\ x = q' ++ r).
Proof.
  revert q. induction s as [|a s IH]; intros q Heq.
  - right. exists q. split; [reflexivity | exact Heq].
  - destruct q as [|b q].
    + left. exists (a :: s). split; [discriminate | reflexivity].
    + simpl in Heq. inversion Heq; subst b.
      destruct (IH q H1) as [[r' [Hne Hs]]|[q' [Hq Hx]]].
      * left. exists r'. split; [exact Hne | now rewrite Hs].
      * right. exists q'. split; [now rewrite Hq | exact Hx].
Qed.

Lemma load_children_cut (thres : Z) (fuel : nat) :
  forall kids,
    Forall (fun k =>
              forall base num q r,
                r <> [] -> tl (tree_node_save k thres) = q ++ r ->
                tree_node_load fuel q base num = None) kids ->
    forall n node acc num q r,
      r <> [] ->
      flat_map (fun k => tree_node_save k thres) kids ++ [Byte 0] = q ++ r ->
      load_children (tree_node_load fuel) n node q acc num = None.
Proof.
  induction 1 as [|k kids Hk _ IH]; intros n node acc num q r Hr Hcut;
    (destruct n as [|n]; [reflexivity|]).
  - simpl in Hcut. destruct q as [|a q]; [reflexivity|].
    exfalso. inversion Hcut. destruct q; [|discriminate].
    simpl in H1. apply Hr. now symmetry.
  - simpl flat_map in Hcut. rewrite <- app_assoc in Hcut.
    destruct (tree_node_save_head k thres) as [f Hf].
    assert (Htl : tl (tree_node_save k thres) = f) by now rewrite Hf.
    rewrite Hf in Hcut. simpl in Hcut.
    destruct q as [|a q]; [reflexivity|].
    inversion Hcut; subst a. simpl load_children.
    destruct (children node); [|reflexivity].
    destruct (cut_inside_or_after q f _ r H1)
      as [[r' [Hne Hs]]|[q' [Hq Hx]]].
    + rewrite (Hk calloc_node num q r' Hne); [reflexivity|].
      now rewrite Htl.
    + subst q.
      destruct (tree_node_load fuel (f ++ q') calloc_node num)
        as [[[ni f''] num']|] eqn:E; [|reflexivity].
      pose proof (tree_node_load_rest thres k fuel calloc_node q' num) as Hrest.
      rewrite Hf in Hrest. simpl tl in Hrest.
      specialize (Hrest _ E). simpl in Hrest. subst f''.
      apply (IH n node _ num' q' r Hr Hx).
Qed.

Lemma tree_node_load_cut (thres : Z) :
  forall n fuel base num q r,
    r <> [] -> tl (tree_node_save n thres) = q ++ r ->
    tree_node_load fuel q base num = None.
Proof.
  induction n as [h dp c su sp sa spu spa hi kids IH] using tree_node_ind.
  intros fuel base num q r Hr Hcut.
  destruct fuel as [|fuel]; [reflexivity|].
  rewrite tree_node_save_unfold in Hcut. simpl tl in Hcut.
  destruct q as [|a q]; [reflexivity|].
  inversion Hcut; subst a. simpl tree_node_load. simpl u in H1.
  destruct (playouts su >=? thres).
  - simpl children in H1.
    apply (load_children_cut thres fuel kids) with (r := r);
      [|exact Hr | exact H1].
    rewrite Forall_forall in IH |- *. intros k Hk base' num' q' r'.
    apply (IH k Hk).
  - apply (load_children_cut thres fuel [] (Forall_nil _)) with (r := r);
      [exact Hr | exact H1].
Qed.

(** X17. A book that ends before the root is complete never loads: with the
    file cut anywhere inside what [tree_node_save] wrote for the root,
    [tree_load] does not return, however long it runs. (The reads fail at the
    end of the file, and [fgetc] returns [EOF], which the loop takes for a
    child to read.) *)
Theorem tree_load_cut_short (t fresh : tree) (thres : Z) (fuel : nat)
    (q r : list book_item) :
  tree_node_save (root t) thres = q ++ r ->
  r <> [] ->
  tree_load fuel fresh (Some q) = None.
Proof.
  intros Hcut Hr. unfold tree_load.
  destruct (tree_node_save_head (root t) thres) as [f Hf].
  destruct q as [|a q]; [reflexivity|].
  rewrite Hf in Hcut. inversion Hcut; subst a. simpl.
  rewrite (tree_node_load_cut thres (root t) fuel (root fresh) 0 q r Hr);
    [reflexivity|].
  now rewrite Hf.
Qed.

Lemma tree_load_cut_short_witness :
  tree_load 100 Samples.opening
    (Some (firstn 3 (tree_node_save (root Samples.heavy) 5))) = None.
Proof.
  apply (tree_load_cut_short Samples.heavy Samples.opening 5 100
           (firstn 3 (tree_node_save (root Samples.heavy) 5))
           (skipn 3 (tree_node_save (root Samples.heavy) 5))).
  - symmetry. apply firstn_skipn.
  - vm_compute. discriminate.
Defined.

End TreeMoreFacts.

Section DumpFacts.
Import Tree.

(** ** tree_node_dump, tree_dump *)

Lemma pending_all (l : list tree_node) : pending (map Some l) = l.
Proof.
  induction l as [|a l IH]; [reflexivity|].
  unfold pending in *. simpl. now rewrite IH.
Qed.

(** The scan returns an entry that no entry left exceeds. *)
Lemma nbox_scan_best (nbox : list (option tree_node)) :
  forall i best,
    (nbox_scan nbox i best = None -> best = None /\ pending nbox = []) /\
    (forall j nj,
       nbox_scan nbox i best = Some (j, nj) ->
       (forall x, In x (pending nbox) ->
                  playouts (u x) <= playouts (u nj)) /\
       (forall jb nb, best = Some (jb, nb) ->
                      playouts (u nb) <= playouts (u nj)) /\
       (best = Some (j, nj) \/
        exists k, j = (i + k)%nat /\ nth_error nbox k = Some (Some nj))).
Proof.
  induction nbox as [|e rest IH]; intros i best.
  - simpl. split; [intros ->; now split|].
    intros j nj ->. split; [intros x []|]. split; [|now left].
    intros jb nb Hb; inversion Hb; lia.
  - simpl nbox_scan. destruct e as [ni|].
    + destruct best as [[jb nb]|].
      * destruct (playouts (u ni) >? playouts (u nb)) eqn:E.
        -- apply Z.gtb_lt in E.
           destruct (IH (S i) (Some (i, ni))) as [Hnone Hsome].
           split; [intros Hn; destruct (Hnone Hn); discriminate|].
           intros j nj Hr.
           destruct (Hsome j nj Hr) as (Hmax & Hbest & Hwhere).
           pose proof (Hbest i ni eq_refl) as Hni.
           split; [|split].
           ++ unfold pending. simpl. intros x [<-|Hx]; [exact Hni|].
              now apply Hmax.
           ++ intros jb' nb' Hb; inversion Hb; subst. lia.
           ++ right. destruct Hwhere as [Hb|[k [Hj Hk]]].
              ** inversion Hb; subst. exists O.
                 split; [lia | reflexivity].
              ** exists (S k). split; [lia | exact Hk].
        -- rewrite Z.gtb_ltb in E. apply Z.ltb_ge in E.
           destruct (IH (S i) (Some (jb, nb))) as [Hnone Hsome].
           split; [intros Hn; destruct (Hnone Hn); discriminate|].
           intros j nj Hr.
           destruct (Hsome j nj Hr) as (Hmax & Hbest & Hwhere).
           pose proof (Hbest jb nb eq_refl) as Hnb.
           split; [|split].
           ++ unfold pending. simpl. intros x [<-|Hx]; [lia|].
              now apply Hmax.
           ++ exact Hbest.
           ++ destruct Hwhere as [Hb|[k [Hj Hk]]]; [now left|].
              right. exists (S k). split; [lia | exact Hk].
      * destruct (IH (S i) (Some (i, ni))) as [Hnone Hsome].
        split; [intros Hn; destruct (Hnone Hn); discriminate|].
        intros j nj Hr.
        destruct (Hsome j nj Hr) as (Hmax & Hbest & Hwhere).
        pose proof (Hbest i ni eq_refl) as Hni.
        split; [|split].
        -- unfold pending. simpl. intros x [<-|Hx]; [exact Hni|].
           now apply Hmax.
        -- intros jb nb Hb; discriminate.
        -- right. destruct Hwhere as [Hb|[k [Hj Hk]]].
           ++ inversion Hb; subst. exists O. split; [lia | reflexivity].
           ++ exists (S k). split; [lia | exact Hk].
    + destruct (IH (S i) best) as [Hnone Hsome].
      split; [exact Hnone|].
      intros j nj Hr.
      destruct (Hsome j nj Hr) as (Hmax & Hbest & Hwhere).
      split; [exact Hmax|]. split; [exact Hbest|].
      destruct Hwhere as [Hb|[k [Hj Hk]]]; [now left|].
      right. exists (S k). split; [lia | exact Hk].
Qed.

Lemma pending_clear (nbox : list (option tree_node)) :
  forall j nj,
    nth_error nbox j = Some (Some nj) ->
    Permutation (nj :: pending (nbox_clear nbox j)) (pending nbox).
Proof.
  induction nbox as [|e rest IH]; intros [|j] nj Hj; simpl in Hj;
    try discriminate.
  - inversion Hj; subst e. apply Permutation_refl.
  - unfold pending in *. simpl. destruct e as [ni|]; simpl.
    + eapply perm_trans; [apply perm_swap|].
      apply perm_skip. now apply IH.
    + now apply IH.
Qed.

(** The loop prints the pending nodes, each once, those with more playouts
    first. *)
Lemma dump_loop_order {A : Type} (dump : tree_node -> option (list A))
    (turns : nat) :
  forall nbox out,
    dump_loop dump turns nbox = Some out ->
    exists order outs,
      Permutation order (pending nbox) /\
      StronglySorted (fun a b => playouts (u b) <= playouts (u a)) order /\
      Forall2 (fun ni o => dump ni = Some o) order outs /\
      out = List.concat outs.
Proof.
  induction turns as [|turns IH]; intros nbox out; [discriminate|].
  simpl. destruct (nbox_scan_best nbox 0 None) as [Hnone Hsome].
  destruct (nbox_scan nbox 0 None) as [[best ni]|].
  - destruct (Hsome best ni eq_refl) as (Hmax & _ & Hwhere).
    destruct Hwhere as [Hb|[k [Hj Hk]]]; [discriminate|].
    simpl in Hj. subst k.
    destruct (dump ni) as [o|] eqn:Hd; [|discriminate].
    destruct (dump_loop dump turns (nbox_clear nbox best)) as [rest|] eqn:Hl;
      [|discriminate].
    intros Ho; inversion Ho; subst out.
    destruct (IH _ _ Hl) as (order & outs & Hperm & Hsorted & Hall & Hrest).
    pose proof (pending_clear nbox best ni Hk) as Hclear.
    exists (ni :: order), (o :: outs). split; [|split; [|split]].
    + eapply perm_trans; [apply perm_skip; exact Hperm | exact Hclear].
    + constructor; [exact Hsorted|].
      apply Forall_forall. intros x Hx. apply Hmax.
      apply (Permutation_in _ Hclear). right.
      apply (Permutation_in _ Hperm Hx).
    + constructor; assumption.
    + simpl. now rewrite Hrest.
  - destruct (Hnone eq_refl) as [_ Hp].
    intros Ho; inversion Ho; subst out.
    exists [], []. rewrite Hp.
    split; [constructor|]. split; [constructor|].
    split; [constructor | reflexivity].
Qed.

Lemma dump_loop_total {A : Type} (dump : tree_node -> option (list A))
    (turns : nat) :
  forall nbox,
    (forall ni, In ni (pending nbox) -> exists o, dump ni = Some o) ->
    (List.length (pending nbox) < turns)%nat ->
    exists out, dump_loop dump turns nbox = Some out.
Proof.
  induction turns as [|turns IH]; intros nbox Hall Hlen; [lia|].
  simpl. destruct (nbox_scan_best nbox 0 None) as [_ Hsome].
  destruct (nbox_scan nbox 0 None) as [[best ni]|];
    [|eexists; reflexivity].
  destruct (Hsome best ni eq_refl) as (_ & _ & Hwhere).
  destruct Hwhere as [Hb|[k [Hj Hk]]]; [discriminate|].
  simpl in Hj. subst k.
  pose proof (pending_clear nbox best ni Hk) as Hclear.
  destruct (Hall ni) as [o Ho].
  { apply (Permutation_in _ Hclear). now left. }
  rewrite Ho.
  destruct (IH (nbox_clear nbox best)) as [rest Hrest].
  - intros x Hx. apply Hall. apply (Permutation_in _ Hclear). now right.
  - apply Permutation_length in Hclear. simpl in Hclear. lia.
  - rewrite Hrest. eexists; reflexivity.
Qed.

(** A dump starts with the line of its node; every other line is indented
    deeper. *)
Lemma tree_node_dump_head (fuel : nat) :
  forall node l thres out,
    tree_node_dump fuel node l thres = Some out ->
    exists rest,
      out = (l, node) :: rest /\ Forall (fun ln => l < fst ln) rest.
Proof.
  induction fuel as [|fuel IH]; intros node l thres out; [discriminate|].
  cbn [tree_node_dump]. destruct (1000 <? _); [discriminate|].
  match goal with
  | |- context [dump_loop ?d ?n ?x] =>
      destruct (dump_loop d n x) as [o|] eqn:Hl; [|discriminate]
  end.
  intros Ho; inversion Ho; subst out. exists o. split; [reflexivity|].
  destruct (dump_loop_order _ _ _ _ Hl) as (order & outs & _ & _ & Hall & ->).
  clear Hl Ho. induction Hall as [|ni oi order outs Hni _ IHall]; simpl;
    [constructor|].
  apply Forall_app. split; [|exact IHall].
  destruct (IH ni (l + 1) thres oi Hni) as (rest & -> & Hrest).
  constructor; [simpl; lia|].
  eapply Forall_impl; [|exact Hrest]. simpl. intros ln Hln. lia.
Qed.

Lemma shown_at_children (lvl : Z) (dump : tree_node -> option (list (Z * tree_node))) :
  (forall ni o, dump ni = Some o ->
     exists rest, o = (lvl, ni) :: rest /\ Forall (fun ln => lvl < fst ln) rest) ->
  forall order outs,
    Forall2 (fun ni o => dump ni = Some o) order outs ->
    shown_at lvl (List.concat outs) = order.
Proof.
  intros Hhead order outs Hall.
  induction Hall as [|ni oi order outs Hni _ IH]; [reflexivity|].
  destruct (Hhead ni oi Hni) as (rest & -> & Hrest).
  unfold shown_at in *. simpl. rewrite Z.eqb_refl. simpl.
  rewrite filter_app, map_app, IH.
  replace (filter (fun ln => fst ln =? lvl) rest) with (@nil (Z * tree_node));
    [reflexivity|].
  symmetry. clear -Hrest. induction Hrest as [|ln rest Hln _ IH];
    [reflexivity|].
  simpl. replace (fst ln =? lvl) with false; [exact IH|].
  symmetry. apply Z.eqb_neq. lia.
Qed.

Lemma height_child (n k : tree_node) :
  In k (children n) -> (height k < height n)%nat.
Proof.
  intros Hk. destruct n as [h dp c su sp sa spu spa hi kids]. simpl in *.
  apply Nat.lt_succ_r.
  assert (Hmax : forall l, In k l -> (height k <= list_max (map height l))%nat).
  { induction l as [|a l IH]; simpl; [intros []|].
    intros [<-|Hin]; [lia | specialize (IH Hin); lia]. }
  now apply Hmax.
Qed.

Lemma tree_node_dump_total (fuel : nat) :
  forall node l thres,
    (height node < fuel)%nat ->
    (forall p m, subnode p node = Some m ->
                 (List.length (children m) <= 1000)%nat) ->
    exists out, tree_node_dump fuel node l thres = Some out.
Proof.
  induction fuel as [|fuel IH]; intros node l thres Hh Hroom; [lia|].
  cbn [tree_node_dump].
  assert (Hlen : (List.length (map Some (filter (fun ni => playouts (u ni) >? thres)
                                         (children node))) <= 1000)%nat).
  { rewrite length_map. pose proof (Hroom [] node eq_refl).
    pose proof (filter_length_le (fun ni => playouts (u ni) >? thres)
                                 (children node)). lia. }
  replace (1000 <? _) with false by (symmetry; apply Z.ltb_ge; lia).
  destruct (dump_loop_total
              (fun ni => tree_node_dump fuel ni (l + 1) thres)
              (S (List.length (map Some (filter (fun ni => playouts (u ni) >? thres)
                                        (children node)))))
              (map Some (filter (fun ni => playouts (u ni) >? thres)
                                (children node)))) as [out Hout].
  - rewrite pending_all. intros ni Hni. apply filter_In in Hni.
    destruct Hni as [Hin _]. apply IH.
    + pose proof (height_child node ni Hin). lia.
    + intros p m Hm. destruct (In_nth_error _ _ Hin) as [i Hi].
      apply (Hroom (i :: p)). simpl. now rewrite Hi.
  - rewrite pending_all, length_map. lia.
  - rewrite Hout. eexists; reflexivity.
Qed.

(** X18. "Print nodes sorted by #playouts": on a tree none of whose nodes has
    more than 1000 children, and given fuel beyond its height, [tree_dump]
    returns; the first line shows the root, and the lines one level below show
    exactly the children of the root with more playouts than the threshold it
    goes on with, each once, those with more playouts first. That threshold is
    never below a positive threshold asked for. *)
Theorem tree_dump_by_playouts (fuel : nat) (t : tree) (thres : Z) :
  (height (root t) < fuel)%nat ->
  (forall p m, subnode p (root t) = Some m ->
               (List.length (children m) <= 1000)%nat) ->
  0 <= playouts (u (root t)) ->
  exists out,
    tree_dump fuel t thres = Some out /\
    hd_error out = Some (0, root t) /\
    Permutation (shown_at 1 out)
      (filter (fun ni => playouts (u ni) >? dump_threshold t thres)
              (children (root t))) /\
    StronglySorted (fun a b => playouts (u b) <= playouts (u a))
                   (shown_at 1 out) /\
    (0 < thres -> thres <= dump_threshold t thres).
Proof.
  intros Hh Hroom Hpos. unfold tree_dump.
  destruct (tree_node_dump_total fuel (root t) 0 (dump_threshold t thres)
              Hh Hroom) as [out Hout].
  exists out. split; [exact Hout|].
  destruct fuel as [|fuel]; [discriminate|]. cbn [tree_node_dump] in Hout.
  destruct (1000 <? _); [discriminate|].
  match type of Hout with
  | context [dump_loop ?d ?n ?x] =>
      destruct (dump_loop d n x) as [o|] eqn:Hl; [|discriminate]
  end.
  inversion Hout; subst out. clear Hout.
  split; [reflexivity|].
  destruct (dump_loop_order _ _ _ _ Hl) as (order & outs & Hperm & Hsorted
                                            & Hall & ->).
  rewrite pending_all in Hperm.
  assert (Hshown : shown_at 1 ((0, root t) :: List.concat outs) = order).
  { unfold shown_at. simpl.
    apply (shown_at_children 1
             (fun ni => tree_node_dump fuel ni (0 + 1)
                                       (dump_threshold t thres))).
    - intros ni oi Hni. apply (tree_node_dump_head fuel ni 1 _ oi Hni).
    - exact Hall. }
  rewrite Hshown. split; [exact Hperm|]. split; [exact Hsorted|].
  intros Hthres. unfold dump_threshold.
  replace (thres =? 0) with false by (symmetry; apply Z.eqb_neq; lia).
  simpl negb. cbn [andb].
  destruct (Z.quot (playouts (u (root t))) thres >? 100) eqn:E; [|lia].
  apply Z.gtb_lt in E.
  set (p := playouts (u (root t))) in *.
  assert (Hq : p ÷ thres = p / thres) by (apply Z.quot_div_nonneg; lia).
  assert (Hq2 : p ÷ 100 = p / 100) by (apply Z.quot_div_nonneg; lia).
  rewrite Hq in E. rewrite Hq2.
  assert (Hbig : 101 * thres <= p).
  { pose proof (Z.mul_div_le p thres ltac:(lia)). nia. }
  assert (Hdiv : thres <= p / 100).
  { apply Z.div_le_lower_bound; lia. }
  destruct (thres <? 1000) eqn:E1; [lia|].
  apply Z.ltb_ge in E1.
  assert (Hf : 1 <= thres ÷ 1000).
  { rewrite Z.quot_div_nonneg by lia. apply Z.div_le_lower_bound; lia. }
  nia.
Qed.

Lemma tree_dump_by_playouts_witness :
  exists out,
    tree_dump 3 Samples.three_moves 2 = Some out /\
    hd_error out = Some (0, root Samples.three_moves) /\
    Permutation (shown_at 1 out)
      (filter (fun ni => playouts (u ni)
                         >? dump_threshold Samples.three_moves 2)
              (children (root Samples.three_moves))) /\
    StronglySorted (fun a b => playouts (u b) <= playouts (u a))
                   (shown_at 1 out) /\
    (0 < 2 -> 2 <= dump_threshold Samples.three_moves 2).
Proof.
  apply (tree_dump_by_playouts 3 Samples.three_moves 2).
  - vm_compute. lia.
  - intros [|i p] m Hm.
    + inversion Hm. simpl. lia.
    + simpl in Hm. destruct i as [|[|[|i]]]; simpl in Hm;
        try (destruct i; discriminate);
        (destruct p as [|j p]; simpl in Hm;
         [inversion Hm; simpl; lia | destruct j; discriminate]).
  - vm_compute. discriminate.
Defined.

End DumpFacts.

Section DistributedMoreFacts.
Import Distributed.

Variable scan_other : string -> option (Q * string).
Variable str2coord : string -> Z -> coord_t.
Variable b : Tree.board.

(** ** select_best_move *)

Lemma sum_headers_permutation (f : reply_header -> Z) (l l' : list string) :
  Permutation l l' -> sum_headers f l = sum_headers f l'.
Proof.
  induction 1 as [|a l l' _ IH|a a' l|l l' l'' _ IH1 _ IH2]; simpl.
  - reflexivity.
  - rewrite IH. reflexivity.
  - destruct (scan_header a), (scan_header a'); lia.
  - congruence.
Qed.

Lemma combined_playouts_permutation
    (l l' : list (string * move_stats2)) (c : coord_t) :
  Permutation l l' ->
  combined_playouts str2coord (Tree.board_size b) l c =
  combined_playouts str2coord (Tree.board_size b) l' c /\
  combined_amaf_playouts str2coord (Tree.board_size b) l c =
  combined_amaf_playouts str2coord (Tree.board_size b) l' c.
Proof.
  induction 1 as [|[m s] l l' _ [IH1 IH2]|[m s] [m' s'] l
                 |l l' l'' _ [IH1 IH2] _ [IH3 IH4]]; simpl.
  - split; reflexivity.
  - rewrite IH1, IH2. split; reflexivity.
  - split; lia.
  - split; congruence.
Qed.

Lemma add_line_amaf_count (sel : selection) (move : string) (s : move_stats2)
    (c : coord_t) :
  playouts (amaf (stats (add_line str2coord b sel move s) c)) =
  playouts (amaf (stats sel c)) +
  (if str2coord move (Tree.board_size b) =? c then playouts (amaf s) else 0).
Proof.
  unfold add_line, table_set. simpl. rewrite (Z.eqb_sym c).
  destruct (str2coord move (Tree.board_size b) =? c) eqn:E; simpl.
  - apply Z.eqb_eq in E. now subst c.
  - lia.
Qed.

(** The counts the table holds once the lines are added, whatever they
    report. *)
Lemma add_parsed_counts (lines : list (string * move_stats2)) :
  forall sel c,
    playouts (u (stats (fold_left (add_parsed str2coord b) lines sel) c)) =
    playouts (u (stats sel c)) +
    combined_playouts str2coord (Tree.board_size b) lines c /\
    playouts (amaf (stats (fold_left (add_parsed str2coord b) lines sel) c)) =
    playouts (amaf (stats sel c)) +
    combined_amaf_playouts str2coord (Tree.board_size b) lines c.
Proof.
  induction lines as [|[move s] lines IH]; intros sel c; simpl.
  - split; lia.
  - destruct (IH (add_parsed str2coord b sel (move, s)) c) as [Hu Ha].
    rewrite Hu, Ha. unfold add_parsed. cbn [fst snd].
    rewrite add_line_count, add_line_amaf_count. split; lia.
Qed.

Lemma all_lines_permutation (l l' : list string) :
  Permutation l l' ->
  Permutation (all_lines scan_other l) (all_lines scan_other l').
Proof. intros Hp. unfold all_lines. now apply Permutation_flat_map. Qed.

(** X19. The order in which the replies arrived does not matter for what
    [select_best_move] adds up: the games played, the playouts, the threads,
    the vote on going on, and the playouts the table holds for each coordinate
    in both channels are the same for every arrangement of the replies. When
    no line reports a negative count, the move returned holds the same number
    of playouts too, even where a tie goes to another move. *)
Theorem select_best_move_any_order (replies replies' : list string) :
  Permutation replies replies' ->
  replies <> [] ->
  exists res res',
    select_best_move scan_other str2coord b replies = Some res /\
    select_best_move scan_other str2coord b replies' = Some res' /\
    res_played res' = res_played res /\
    res_total_playouts res' = res_total_playouts res /\
    res_total_threads res' = res_total_threads res /\
    res_keep_looking res' = res_keep_looking res /\
    (forall c,
       playouts (u (res_stats res' c)) = playouts (u (res_stats res c)) /\
       playouts (amaf (res_stats res' c)) =
       playouts (amaf (res_stats res c))) /\
    ((forall ml, In ml (all_lines scan_other replies) ->
                 0 <= playouts (u (snd ml))) ->
     playouts (u (res_stats res' (res_move res'))) =
     playouts (u (res_stats res (res_move res)))).
Proof.
  intros Hperm Hne.
  assert (Hne' : replies' <> []).
  { intros E. subst replies'. apply Permutation_sym, Permutation_nil in Hperm.
    contradiction. }
  unfold select_best_move.
  destruct replies as [|r0 l0] eqn:Hr; [contradiction|].
  destruct replies' as [|r0' l0'] eqn:Hr'; [contradiction|].
  rewrite <- Hr, <- Hr' in *. clear Hr Hr' r0 l0 r0' l0' Hne Hne'.
  eexists. eexists. split; [reflexivity|]. split; [reflexivity|].
  cbn [res_played res_total_playouts res_total_threads res_keep_looking
       res_stats res_move].
  destruct (read_replies_sums scan_other str2coord b replies start_selection)
    as (P & T & Th & K).
  destruct (read_replies_sums scan_other str2coord b replies' start_selection)
    as (P' & T' & Th' & K').
  cbv zeta in P, T, Th, K, P', T', Th', K'.
  rewrite P, T, Th, K, P', T', Th', K'.
  rewrite !(sum_headers_permutation _ _ _ Hperm).
  rewrite (Permutation_length Hperm).
  do 4 (split; [reflexivity|]).
  destruct (read_replies_lines scan_other str2coord b replies start_selection)
    as (S1 & B1 & _).
  destruct (read_replies_lines scan_other str2coord b replies' start_selection)
    as (S1' & B1' & _).
  cbv zeta in S1, B1, S1', B1'. rewrite S1, B1, S1', B1'.
  pose proof (all_lines_permutation _ _ Hperm) as Hlines.
  assert (Hcount : forall c,
    playouts (u (stats (fold_left (add_parsed str2coord b)
                          (all_lines scan_other replies') start_selection) c)) =
    playouts (u (stats (fold_left (add_parsed str2coord b)
                          (all_lines scan_other replies) start_selection) c)) /\
    playouts (amaf (stats (fold_left (add_parsed str2coord b)
                             (all_lines scan_other replies')
                             start_selection) c)) =
    playouts (amaf (stats (fold_left (add_parsed str2coord b)
                             (all_lines scan_other replies)
                             start_selection) c))).
  { intros c.
    destruct (add_parsed_counts (all_lines scan_other replies)
                                start_selection c)
      as [Hu Ha].
    destruct (add_parsed_counts (all_lines scan_other replies')
                                start_selection c)
      as [Hu' Ha'].
    destruct (combined_playouts_permutation _ _ c Hlines) as [Eu Ea].
    rewrite Hu, Ha, Hu', Ha', Eu, Ea. split; reflexivity. }
  split; [exact Hcount|].
  intros Hn.
  assert (Hn' : forall ml, In ml (all_lines scan_other replies') ->
                           0 <= playouts (u (snd ml))).
  { intros ml Hml. apply Hn.
    apply (Permutation_in _ (Permutation_sym Hlines) Hml). }
  destruct (add_parsed_best str2coord b (all_lines scan_other replies)
              start_selection Hn
              (start_selection_best)) as [(Hpos & Hmax & Hbest) _].
  destruct (add_parsed_best str2coord b (all_lines scan_other replies')
              start_selection
              Hn' (start_selection_best)) as [(Hpos' & Hmax' & Hbest') _].
  set (s1 := fold_left (add_parsed str2coord b) (all_lines scan_other replies)
                       start_selection) in *.
  set (s2 := fold_left (add_parsed str2coord b) (all_lines scan_other replies')
                       start_selection) in *.
  pose proof (Hmax (best_move s2)) as M1.
  pose proof (Hmax' (best_move s1)) as M2.
  pose proof (Hpos (best_move s1)) as Q1.
  pose proof (Hpos' (best_move s2)) as Q2.
  destruct (Hcount (best_move s1)) as [C1 _].
  destruct (Hcount (best_move s2)) as [C2 _].
  lia.
Qed.


Lemma sum_headers_app (f : reply_header -> Z) (l1 l2 : list string) :
  sum_headers f (l1 ++ l2) = sum_headers f l1 + sum_headers f l2.
Proof.
  induction l1 as [|r l1 IH]; simpl; [reflexivity|].
  rewrite IH. destruct (scan_header r); lia.
Qed.


Lemma add_parsed_names (lines : list (string * move_stats2)) :
  forall sel,
    best_move (fold_left (add_parsed str2coord b) lines sel) = best_move sel \/
    exists ml, In ml lines /\
               best_move (fold_left (add_parsed str2coord b) lines sel)
               = str2coord (fst ml) (Tree.board_size b).
Proof.
  induction lines as [|ml lines IH]; intros sel; simpl; [now left|].
  destruct (IH (add_parsed str2coord b sel ml)) as [E|[ml' [Hin E]]].
  - rewrite E. unfold add_parsed, add_line. cbn [best_move].
    destruct (_ >? _); [|now left].
    right. exists ml. split; [now left | reflexivity].
  - right. exists ml'. split; [now right | exact E].
Qed.

(** X21. The move [select_best_move] returns is pass, its default, or a move
    that some line of a reply names. As soon as one line is read, and no line
    reports a negative count, it is a move that a line names. *)
Theorem select_best_move_names_a_line (replies : list string) :
  replies <> [] ->
  exists res,
    select_best_move scan_other str2coord b replies = Some res /\
    (res_move res = pass \/
     exists ml, In ml (all_lines scan_other replies) /\
                res_move res = str2coord (fst ml) (Tree.board_size b)) /\
    (all_lines scan_other replies <> [] ->
     (forall ml, In ml (all_lines scan_other replies) ->
                 0 <= playouts (u (snd ml))) ->
     exists ml, In ml (all_lines scan_other replies) /\
                res_move res = str2coord (fst ml) (Tree.board_size b)).
Proof.
  intros Hne. unfold select_best_move.
  destruct replies as [|r0 l0] eqn:Hr; [contradiction|].
  rewrite <- Hr in *. clear Hr r0 l0 Hne.
  eexists. split; [reflexivity|]. cbn [res_move].
  destruct (read_replies_lines scan_other str2coord b replies start_selection)
    as (_ & B1 & _).
  cbv zeta in B1. rewrite B1. split.
  - destruct (add_parsed_names (all_lines scan_other replies) start_selection)
      as [E|Hnamed]; [left; exact E | right; exact Hnamed].
  - intros Hlines Hn.
    destruct (all_lines scan_other replies) as [|[move s] lines];
      [contradiction|].
    simpl fold_left.
    assert (Hfirst : best_move (add_parsed str2coord b start_selection
                                           (move, s))
                     = str2coord move (Tree.board_size b)).
    { unfold add_parsed, add_line. cbn [best_move fst snd].
      cbn [stats start_selection best_playouts no_stats2 u playouts
           stats_add_result].
      pose proof (Hn (move, s) (or_introl eq_refl)) as Hp. simpl in Hp.
      replace (0 + playouts (u s) >? -1) with true; [reflexivity|].
      symmetry. apply Z.gtb_lt. lia. }
    destruct (add_parsed_names lines
                (add_parsed str2coord b start_selection (move, s)))
      as [E|[ml [Hin E]]].
    + exists (move, s). split; [now left|]. rewrite E. exact Hfirst.
    + exists ml. split; [now right | exact E].
Qed.

(** ** distributed_dead_group_list *)

Lemma most_popular_bound (rest : list string) :
  forall prev reply count best_count best_reply,
    (best_reply < reply)%nat ->
    (most_popular prev rest reply count best_count best_reply
     < reply + List.length rest)%nat.
Proof.
  induction rest as [|r rest IH]; intros prev reply count bc br Hlt; simpl.
  - lia.
  - destruct (_ >? bc).
    + specialize (IH r (S reply)
                     (if String.eqb r prev then count + 1 else 1)
                     (if String.eqb r prev then count + 1 else 1) reply).
      lia.
    + specialize (IH r (S reply)
                     (if String.eqb r prev then count + 1 else 1) bc br).
      lia.
Qed.

Lemma read_groups_appends (fuel : nat) :
  forall dead mq,
    exists added, read_groups str2coord b fuel dead mq = (mq ++ added)%list.
Proof.
  induction fuel as [|fuel IH]; intros dead mq.
  - exists []. now rewrite app_nil_r.
  - destruct dead as [d0|]; [|exists []; now rewrite app_nil_r].
    simpl. destruct (str_tail d0) as [|c d1].
    + destruct (IH (strchr EmptyString newline)
                  (mq ++ [str2coord EmptyString (Tree.board_size b)])%list)
        as [added Ha].
      rewrite Ha. rewrite <- app_assoc. eexists; reflexivity.
    + destruct (Ascii.eqb c newline); [exists []; now rewrite app_nil_r|].
      destruct (IH (strchr (String c d1) newline)
                  (mq ++ [str2coord (String c d1) (Tree.board_size b)])%list)
        as [added Ha].
      rewrite Ha. rewrite <- app_assoc. eexists; reflexivity.
Qed.

(** X22. Whatever order [qsort] leaves the replies in, as long as it only
    reorders them: [distributed_dead_group_list] settles on one of the replies
    of this round, never on an entry outside them, and it only adds to the
    queue it was given. *)
Theorem distributed_dead_group_list_picks_a_reply
    (qsort : (string -> string -> Z) -> list string -> list string)
    (replies : list string) (mq : list coord_t) :
  replies <> [] ->
  Permutation (qsort scmp replies) replies ->
  exists dead added,
    chosen_reply qsort replies = Some dead /\ In dead replies /\
    distributed_dead_group_list str2coord qsort b replies mq
      = Some (mq ++ added)%list.
Proof.
  intros Hne Hperm. unfold distributed_dead_group_list, chosen_reply.
  destruct replies as [|q0 qs] eqn:Hr; [contradiction|].
  rewrite <- Hr in *. clear Hr q0 qs.
  destruct (qsort scmp replies) as [|r0 rest] eqn:Hs.
  { apply Permutation_nil in Hperm. contradiction. }
  unfold best_reply_index.
  pose proof (most_popular_bound rest r0 1 1 1 0 ltac:(lia)) as Hb.
  destruct (nth_error (r0 :: rest) (most_popular r0 rest 1 1 1 0))
    as [dead|] eqn:Hn.
  2: { apply nth_error_None in Hn. simpl in Hn, Hb. lia. }
  destruct (read_groups_appends (S (String.length dead))
              (strchr dead " "%char) mq) as [added Ha].
  exists dead, added. split; [reflexivity|]. split.
  - apply (Permutation_in _ Hperm). apply (nth_error_In _ _ Hn).
  - now rewrite Ha.
Qed.

Lemma read_groups_body (lines : list string) :
  Forall (fun l => l <> EmptyString /\ strchr l newline = None) lines ->
  forall fuel c0 mq,
    (String.length (reply_body lines) < fuel)%nat ->
    read_groups str2coord b fuel (Some (String c0 (reply_body lines))) mq
    = (mq ++ map (fun s => str2coord s (Tree.board_size b))
                 (line_starts lines))%list.
Proof.
  induction 1 as [|l lines [Hl Hnl] _ IH]; intros fuel c0 mq Hf;
    (destruct fuel as [|fuel]; [simpl in Hf; lia|]).
  - simpl. now rewrite app_nil_r.
  - cbn [read_groups str_tail reply_body line_starts map].
    destruct l as [|a l']; [contradiction|].
    simpl in Hnl. destruct (Ascii.eqb a newline) eqn:Ea; [discriminate|].
    cbn [append]. rewrite Ea.
    change (String a (l' ++ String newline (reply_body lines)))
      with ((String a l') ++ String newline (reply_body lines))%string.
    rewrite strchr_skip by (simpl; rewrite Ea; exact Hnl).
    rewrite IH.
    + now rewrite <- app_assoc.
    + simpl in Hf. rewrite length_append in Hf. simpl in Hf. lia.
Qed.

(** X23. "Pick the first move of each line as group": when the chosen reply is
    a header without a space, a space, and lines that are not empty, each
    ended by a newline, with the empty line at the end, one move is queued per
    line, in the order of the lines, read from where the line starts; the
    empty line ends the list. *)
Theorem distributed_dead_group_list_one_move_per_line
    (qsort : (string -> string -> Z) -> list string -> list string)
    (replies : list string) (mq : list coord_t)
    (header : string) (lines : list string) :
  chosen_reply qsort replies
    = Some (header ++ String " " (reply_body lines))%string ->
  strchr header " "%char = None ->
  Forall (fun l => l <> EmptyString /\ strchr l newline = None) lines ->
  distributed_dead_group_list str2coord qsort b replies mq
    = Some (mq ++ map (fun s => str2coord s (Tree.board_size b))
                      (line_starts lines))%list.
Proof.
  intros Hch Hsp Hlines. unfold distributed_dead_group_list.
  rewrite Hch. rewrite (strchr_skip _ _ _ Hsp). f_equal.
  apply (read_groups_body lines Hlines).
  rewrite length_append. simpl. lia.
Qed.

(** X24. When [qsort] returns the replies sorted and no two different replies
    are equal up to letter case, the reply whose groups are queued is one that
    occurs most often, and among those the first in sorted order. *)
Theorem distributed_dead_group_list_most_popular
    (qsort : (string -> string -> Z) -> list string -> list string)
    (replies : list string) (mq : list coord_t) :
  replies <> [] ->
  Permutation (qsort scmp replies) replies ->
  StronglySorted (fun x y => scmp x y <= 0) (qsort scmp replies) ->
  (forall x y, In x replies -> In y replies -> scmp x y = 0 -> x = y) ->
  exists w,
    In w replies /\
    (forall r, In r replies ->
               occurrences r replies <= occurrences w replies) /\
    (forall r, In r replies ->
               occurrences r replies = occurrences w replies ->
               scmp w r <= 0) /\
    distributed_dead_group_list str2coord qsort b replies mq
      = Some (read_groups str2coord b (S (String.length w))
                          (strchr w " "%char) mq).
Proof.
  intros Hne Hperm Hsorted Hcase.
  destruct (chosen_reply_most_popular qsort replies Hne Hperm Hsorted Hcase)
    as (w & Hw & Hin & Hmax & Htie).
  exists w. repeat split; try assumption.
  unfold distributed_dead_group_list. now rewrite Hw.
Qed.

End DistributedMoreFacts.

Section EngineArguments.
Import Distributed.

Variable calloc2 : Z -> Z -> bool.
Variable sizeof_distributed : Z.
Variable sizeof_pointer : Z.
Variable protocol_init : string -> option string -> Z -> bool.

(** ** distributed_state_init *)

Lemma strcspn_split_plain (c : ascii) (o rest : string) :
  strchr o c = None ->
  strcspn_split o c = (o, EmptyString) /\
  strcspn_split (o ++ String c rest) c = (o, String c rest).
Proof.
  induction o as [|a o IH]; simpl.
  - intros _. now rewrite Ascii.eqb_refl.
  - destruct (Ascii.eqb a c); [discriminate|].
    intros Hno. destruct (IH Hno) as [E1 E2]. now rewrite E1, E2.
Qed.

Lemma set_option_empty (dist : distributed) :
  set_option dist EmptyString = dist.
Proof. reflexivity. Qed.

(** The loop over the engine argument handles the options between the
    commas one after the other. *)
Lemma read_options_join (opts : list string) :
  Forall (fun o => strchr o ","%char = None) opts ->
  forall fuel dist,
    (String.length (join_options opts) < fuel)%nat ->
    read_options fuel (join_options opts) dist = fold_left set_option opts dist.
Proof.
  induction 1 as [|o rest Ho _ IH]; intros fuel dist Hf;
    (destruct fuel as [|fuel]; [simpl in Hf; lia|]).
  - reflexivity.
  - destruct (strcspn_split_plain ","%char o (join_options rest) Ho)
      as [E1 E2].
    destruct rest as [|r rest'].
    + simpl join_options. simpl fold_left.
      destruct o as [|a o']; [reflexivity|].
      cbn [read_options]. rewrite E1. simpl str_tail.
      destruct fuel; reflexivity.
    + change (join_options (o :: r :: rest'))
        with (o ++ String "," (join_options (r :: rest')))%string in *.
      assert (Hlen : (String.length (join_options (r :: rest')) < fuel)%nat).
      { rewrite length_append in Hf. simpl in Hf. simpl. lia. }
      destruct o as [|a o'].
      * simpl append. cbn [read_options]. simpl append in E2. rewrite E2.
        simpl str_tail. rewrite (IH fuel _ Hlen). reflexivity.
      * cbn [append read_options]. cbn [append] in E2. rewrite E2.
        simpl str_tail. rewrite (IH fuel _ Hlen). reflexivity.
Qed.

Lemma set_option_slave_port (dist : distributed) (o : string) :
  slave_port (set_option dist o) =
  if names_slave_port o then snd (split_optval o) else slave_port dist.
Proof.
  unfold set_option, names_slave_port.
  destruct (split_optval o) as [optname optval]. cbn [fst snd].
  destruct ((strcasecmp optname "slave_port" =? 0) && has_value optval);
    [reflexivity|].
  destruct ((strcasecmp optname "proxy_port" =? 0) && has_value optval);
    [reflexivity|].
  destruct ((strcasecmp optname "max_slaves" =? 0) && has_value optval);
    [reflexivity|].
  destruct (strcasecmp optname "slaves_quit" =? 0); reflexivity.
Qed.

Lemma fold_set_option_slave_port (opts : list string) (dist : distributed) :
  slave_port (fold_left set_option opts dist) =
  match find names_slave_port (rev opts) with
  | Some o => snd (split_optval o)
  | None => slave_port dist
  end.
Proof.
  induction opts as [|o opts IH] using rev_ind; [reflexivity|].
  rewrite fold_left_app, rev_app_distr. simpl.
  rewrite set_option_slave_port.
  destruct (names_slave_port o); [reflexivity | exact IH].
Qed.

(** X25. "slave_port=SLAVE_PORT ... this parameter is mandatory": on an
    argument that lists options between commas, the options are taken one
    after the other, and [distributed_state_init] returns the state they
    leave exactly when some option is named slave_port, in any letter case,
    and has a value, and the two calls of [calloc2] and the call of
    [protocol_init] return; the last such option gives the port. Without such
    an option, and without an argument, it does not return. *)
Theorem distributed_state_init_slave_port (opts : list string) :
  Forall (fun o => strchr o ","%char = None) opts ->
  let dist := fold_left set_option opts (mk_distributed None None 100 false) in
  match find names_slave_port (rev opts) with
  | Some o =>
      exists port,
        snd (split_optval o) = Some port /\ slave_port dist = Some port /\
        distributed_state_init calloc2 sizeof_distributed sizeof_pointer
                               protocol_init (Some (join_options opts))
        = if calloc2 1 sizeof_distributed
             && calloc2 (max_slaves dist) sizeof_pointer
             && protocol_init port (proxy_port dist) (max_slaves dist)
          then Some dist else None
  | None =>
      distributed_state_init calloc2 sizeof_distributed sizeof_pointer
                             protocol_init (Some (join_options opts)) = None
  end /\
  distributed_state_init calloc2 sizeof_distributed sizeof_pointer
                         protocol_init None = None.
Proof.
  intros Hopts dist. split.
  - unfold distributed_state_init.
    rewrite (read_options_join opts Hopts) by lia. fold dist.
    pose proof (fold_set_option_slave_port opts
                  (mk_distributed None None 100 false)) as Hport.
    fold dist in Hport.
    destruct (find names_slave_port (rev opts)) as [o|] eqn:Hfind.
    + apply find_some in Hfind. destruct Hfind as [_ Hnames].
      unfold names_slave_port in Hnames. apply andb_prop in Hnames.
      destruct Hnames as [_ Hval].
      destruct (snd (split_optval o)) as [port|]; [|discriminate].
      exists port. split; [reflexivity|]. split; [exact Hport|].
      rewrite Hport.
      destruct (calloc2 1 sizeof_distributed); [|reflexivity].
      destruct (calloc2 (max_slaves dist) sizeof_pointer); [|reflexivity].
      destruct (protocol_init port (proxy_port dist) (max_slaves dist));
        reflexivity.
    + simpl in Hport. rewrite Hport.
      destruct (calloc2 1 sizeof_distributed); [|reflexivity].
      destruct (calloc2 (max_slaves dist) sizeof_pointer); reflexivity.
  - unfold distributed_state_init.
    destruct (calloc2 1 sizeof_distributed); [|reflexivity].
    cbn [negb max_slaves slave_port].
    destruct (calloc2 100 sizeof_pointer); reflexivity.
Qed.

Lemma set_option_others (dist : distributed) (o : string) :
  strcasecmp (fst (split_optval o)) "max_slaves" <> 0 ->
  strcasecmp (fst (split_optval o)) "slaves_quit" <> 0 ->
  max_slaves (set_option dist o) = max_slaves dist /\
  slaves_quit (set_option dist o) = slaves_quit dist.
Proof.
  unfold set_option. destruct (split_optval o) as [optname optval].
  cbn [fst]. intros Hm Hq.
  apply Z.eqb_neq in Hm. apply Z.eqb_neq in Hq. rewrite Hm, Hq. simpl.
  destruct ((strcasecmp optname "slave_port" =? 0) && has_value optval);
    [split; reflexivity|].
  destruct ((strcasecmp optname "proxy_port" =? 0) && has_value optval);
    split; reflexivity.
Qed.

(** X26. "max_slaves=MAX_SLAVES default 100", "slaves_quit=0|1 ... default
    false": when the engine starts on an argument none of whose options is
    named max_slaves or slaves_quit, it allows 100 slaves and keeps the quit
    command from them. *)
Theorem distributed_state_init_defaults (opts : list string)
    (dist : distributed) :
  Forall (fun o => strchr o ","%char = None) opts ->
  (forall o, In o opts ->
     strcasecmp (fst (split_optval o)) "max_slaves" <> 0 /\
     strcasecmp (fst (split_optval o)) "slaves_quit" <> 0) ->
  distributed_state_init calloc2 sizeof_distributed sizeof_pointer
                         protocol_init (Some (join_options opts))
  = Some dist ->
  max_slaves dist = 100 /\ slaves_quit dist = false /\
  distributed_notify dist "quit" = false.
Proof.
  intros Hopts Hnames. unfold distributed_state_init.
  rewrite (read_options_join opts Hopts) by lia.
  assert (Hkeep : forall d,
            max_slaves (fold_left set_option opts d) = max_slaves d /\
            slaves_quit (fold_left set_option opts d) = slaves_quit d).
  { clear Hopts. induction opts as [|o opts IH]; intros d; simpl;
      [split; reflexivity|].
    destruct (IH (fun o' Ho' => Hnames o' (or_intror Ho')) (set_option d o))
      as [Em Eq].
    destruct (Hnames o (or_introl eq_refl)) as [Hm Hq].
    destruct (set_option_others d o Hm Hq) as [Em' Eq'].
    rewrite Em, Eq, Em', Eq'. split; reflexivity. }
  destruct (Hkeep (mk_distributed None None 100 false)) as [Em Eq].
  destruct (calloc2 1 sizeof_distributed); [|discriminate].
  destruct (calloc2 _ sizeof_pointer); [|discriminate].
  cbn [negb]. destruct (slave_port _) as [port|]; [|discriminate].
  destruct (protocol_init port _ _); [|discriminate].
  intros Hd; inversion Hd; subst dist.
  split; [exact Em|]. split; [exact Eq|].
  unfold distributed_notify. rewrite Eq. reflexivity.
Qed.

(** ** distributed_notify *)

Lemma tolower_zero (c : ascii) : tolower c = 0 -> c = "000"%char.
Proof.
  unfold tolower. intros Hz.
  assert (Hn : nat_of_ascii c = O).
  { destruct ((65 <=? Z.of_nat (nat_of_ascii c)) &&
              (Z.of_nat (nat_of_ascii c) <=? 90)); lia. }
  rewrite <- (ascii_nat_embedding c), Hn. reflexivity.
Qed.

Lemma c_string_cons (a : ascii) (s : string) :
  c_string (String a s) -> tolower a <> 0 /\ c_string s.
Proof.
  unfold c_string. simpl. destruct (Ascii.eqb a "000") eqn:E; [discriminate|].
  intros Hs. split; [|exact Hs]. intros Hz. apply tolower_zero in Hz.
  subst a. discriminate.
Qed.

(** Two C strings that [strcasecmp] finds equal compare alike with every
    other string. *)
Lemma strcasecmp_equal (s1 : string) :
  forall s2, c_string s1 -> c_string s2 -> strcasecmp s1 s2 = 0 ->
  forall k, strcasecmp s1 k = strcasecmp s2 k.
Proof.
  induction s1 as [|a s1 IH]; intros [|a2 s2] H1 H2 Heq k.
  - reflexivity.
  - simpl in Heq. apply c_string_cons in H2. lia.
  - simpl in Heq. apply c_string_cons in H1. lia.
  - apply c_string_cons in H1. apply c_string_cons in H2.
    destruct H1 as [_ H1]. destruct H2 as [_ H2]. simpl in Heq.
    destruct (tolower a =? tolower a2) eqn:E.
    + apply Z.eqb_eq in E. destruct k as [|ck k]; simpl; [exact E|].
      rewrite E. destruct (tolower a2 =? tolower ck); [|reflexivity].
      now apply IH.
    + apply Z.eqb_neq in E. lia.
Qed.

(** X27. The commands [distributed_notify] holds back are recognised whatever
    their letter case: two commands that differ in case only are treated
    alike. A quit command, however written, goes to the slaves exactly when
    [slaves_quit] is set. *)
Theorem distributed_notify_ignores_case (dist : distributed)
    (cmd : string) :
  c_string cmd ->
  (forall cmd', c_string cmd' -> strcasecmp cmd cmd' = 0 ->
                distributed_notify dist cmd = distributed_notify dist cmd') /\
  (strcasecmp cmd "quit" = 0 ->
   distributed_notify dist cmd = slaves_quit dist).
Proof.
  intros Hc.
  assert (Hsame : forall cmd', c_string cmd' -> strcasecmp cmd cmd' = 0 ->
            distributed_notify dist cmd = distributed_notify dist cmd').
  { intros cmd' Hc' Heq. unfold distributed_notify.
    now rewrite !(strcasecmp_equal cmd cmd' Hc Hc' Heq). }
  split; [exact Hsame|].
  intros Hq. rewrite (Hsame "quit"%string eq_refl Hq).
  unfold distributed_notify. destruct (slaves_quit dist); reflexivity.
Qed.

End EngineArguments.

Section GenmovesArgsFacts.
Import Distributed.

Variable CMDS_SIZE : Z.
Variable stone2str : Tree.stone -> string.
Variable coord2sstr : coord_t -> Tree.board -> string.
Variable fmt_d : Z -> string.
Variable fmt_f : nat -> Q -> string.

Lemma substring_head (n : nat) (a : ascii) (s : string) :
  substring 0 (S n) (String a s) = String a (substring 0 n s).
Proof. reflexivity. Qed.

Lemma substring_whole (s : string) :
  forall n, (String.length s <= n)%nat -> substring 0 n s = s.
Proof.
  induction s as [|a s IH]; intros [|n] Hn; simpl in *; try reflexivity;
    try lia.
  rewrite IH by lia. reflexivity.
Qed.

Lemma substring_append (s1 s2 : string) :
  forall n,
    substring 0 n (s1 ++ s2) =
    (substring 0 n s1 ++ substring 0 (n - String.length s1) s2)%string.
Proof.
  induction s1 as [|a s1 IH]; intros n; simpl.
  - rewrite Nat.sub_0_r. destruct n; reflexivity.
  - destruct n as [|n]; simpl.
    + destruct s2; reflexivity.
    + now rewrite IH.
Qed.

Lemma substring_length (s : string) :
  forall n, String.length (substring 0 n s) = Nat.min n (String.length s).
Proof.
  induction s as [|a s IH]; intros [|n]; simpl; try reflexivity.
  now rewrite IH.
Qed.

Lemma append_assoc (s1 s2 s3 : string) :
  ((s1 ++ s2) ++ s3 = s1 ++ (s2 ++ s3))%string.
Proof. induction s1 as [|a s1 IH]; simpl; [reflexivity | now rewrite IH]. Qed.

Lemma append_empty (s : string) : (s ++ EmptyString)%string = s.
Proof. induction s as [|a s IH]; simpl; [reflexivity | now rewrite IH]. Qed.

Lemma concat_cons (x : string) (l : list string) :
  String.concat EmptyString (x :: l)
  = (x ++ String.concat EmptyString l)%string.
Proof. destruct l; simpl; [now rewrite append_empty | reflexivity]. Qed.

Lemma holds_start :
  holds CMDS_SIZE (mk_buffer EmptyString 0) EmptyString.
Proof. split; [reflexivity|]. simpl. now destruct (Z.to_nat _). Qed.

(** One [snprintf]: unless [s] was already beyond the end of the buffer,
    the buffer holds on with the text added. *)
Lemma snprintf_holds (buf : out_buffer) (full text : string) :
  holds CMDS_SIZE buf full ->
  (Z.of_nat (String.length full) <= CMDS_SIZE ->
   exists buf', snprintf CMDS_SIZE buf text = Some buf') /\
  (forall buf', snprintf CMDS_SIZE buf text = Some buf' ->
                holds CMDS_SIZE buf' (full ++ text)).
Proof.
  intros [Hoff Hw]. unfold snprintf. rewrite Hoff. split.
  - intros Hle.
    destruct (CMDS_SIZE - Z.of_nat (String.length full) <? 0) eqn:E.
    + apply Z.ltb_lt in E. lia.
    + eexists; reflexivity.
  - intros buf'.
    destruct (CMDS_SIZE - Z.of_nat (String.length full) <? 0) eqn:E;
      [discriminate|].
    apply Z.ltb_ge in E. intros Hb; inversion Hb; subst buf'. clear Hb.
    split; cbn [s_off written].
    + rewrite length_append. lia.
    + rewrite substring_append.
      destruct (CMDS_SIZE - Z.of_nat (String.length full) =? 0) eqn:E0.
      * apply Z.eqb_eq in E0.
        replace (Z.to_nat (CMDS_SIZE - 1) - String.length full)%nat
          with O by lia.
        replace (substring 0 0 text) with EmptyString
          by (destruct text; reflexivity).
        now rewrite append_empty.
      * apply Z.eqb_neq in E0. rewrite Hw. f_equal. f_equal. lia.
Qed.

Lemma stats_loop_holds (b : Tree.board) (st : stats_table) (m : Z)
    (l : list coord_t) :
  forall buf full,
    holds CMDS_SIZE buf full ->
    let lines :=
      String.concat EmptyString
        (map (stats_text coord2sstr fmt_d fmt_f b st)
             (filter (fun c => negb (playouts (u (st c)) <=? m)) l)) in
    (Z.of_nat (String.length (full ++ lines)) <= CMDS_SIZE ->
     exists buf',
       fold_left (stats_step CMDS_SIZE coord2sstr fmt_d fmt_f b st m) l
                 (Some buf) = Some buf') /\
    (forall buf',
       fold_left (stats_step CMDS_SIZE coord2sstr fmt_d fmt_f b st m) l
                 (Some buf) = Some buf' ->
       holds CMDS_SIZE buf' (full ++ lines)).
Proof.
  induction l as [|c l IH]; intros buf full Hh; cbn zeta.
  - simpl. rewrite append_empty. split.
    + intros _. eexists; reflexivity.
    + intros buf' Hb; inversion Hb; subst. exact Hh.
  - cbn [fold_left filter].
    assert (Est : stats_step CMDS_SIZE coord2sstr fmt_d fmt_f b st m
                             (Some buf) c
                  = if playouts (u (st c)) <=? m then Some buf
                    else snprintf CMDS_SIZE buf
                           (stats_text coord2sstr fmt_d fmt_f b st c))
      by reflexivity.
    rewrite Est. clear Est.
    destruct (playouts (u (st c)) <=? m) eqn:E; cbn [negb].
    + apply (IH buf full Hh).
    + cbn [map]. rewrite concat_cons, <- append_assoc.
      destruct (snprintf_holds buf full
                  (stats_text coord2sstr fmt_d fmt_f b st c) Hh)
        as [Hsome Hkeep].
      split.
      * intros Hle.
        destruct Hsome as [buf1 Hb1].
        { rewrite !length_append in Hle. lia. }
        rewrite Hb1. apply (IH buf1 _ (Hkeep buf1 Hb1)). exact Hle.
      * intros buf'.
        destruct (snprintf CMDS_SIZE buf _) as [buf1|] eqn:Hb1.
        -- apply (IH buf1 _ (Hkeep buf1 eq_refl)).
        -- assert (Hnone : forall l0,
                     fold_left (stats_step CMDS_SIZE coord2sstr fmt_d fmt_f
                                           b st m) l0 None = None).
           { induction l0; simpl; [reflexivity | assumption]. }
           rewrite Hnone. discriminate.
Qed.

(** The text the calls of [snprintf] in [genmoves_args] add up to. *)
Lemma args_text_parts (b : Tree.board) (color : Tree.stone) (played : Z)
    (ti : time_info) (stats : option stats_table) (m : Z) :
  args_text stone2str coord2sstr fmt_d fmt_f b color played ti stats m =
  (((((EmptyString ++ header_text stone2str fmt_d color played)
      ++ match dim ti with
         | TD_WALLTIME => time_text fmt_d fmt_f ti
         | TD_GAMES => EmptyString
         end)
     ++ String newline EmptyString)
    ++ match stats with
       | Some st =>
           String.concat EmptyString
             (map (stats_text coord2sstr fmt_d fmt_f b st)
                (filter (fun c => negb (playouts (u (st c)) <=? m)%Z)
                        (Tree.zrange 0 (Tree.board_size2 b - 1)%Z)))
       | None => EmptyString
       end)
   ++ String newline EmptyString)%string.
Proof.
  unfold args_text. simpl append at 1.
  rewrite !append_assoc. reflexivity.
Qed.

Lemma genmoves_args_holds (b : Tree.board) (color : Tree.stone) (played : Z)
    (ti : time_info) (stats : option stats_table) (m : Z) :
  let full :=
    args_text stone2str coord2sstr fmt_d fmt_f b color played ti stats m in
  (Z.of_nat (String.length full) <= CMDS_SIZE ->
   exists text,
     genmoves_args CMDS_SIZE stone2str coord2sstr fmt_d fmt_f b color played
                   ti stats m = Some text) /\
  (forall text,
     genmoves_args CMDS_SIZE stone2str coord2sstr fmt_d fmt_f b color played
                   ti stats m = Some text ->
     text = substring 0 (Z.to_nat (CMDS_SIZE - 1)) full).
Proof.
  cbv zeta. rewrite args_text_parts. unfold genmoves_args.
  set (t0 := header_text stone2str fmt_d color played).
  set (t1 := match dim ti with
             | TD_WALLTIME => time_text fmt_d fmt_f ti
             | TD_GAMES => EmptyString
             end).
  set (t3 := match stats with
             | Some st =>
                 String.concat EmptyString
                   (map (stats_text coord2sstr fmt_d fmt_f b st)
                      (filter (fun c => negb (playouts (u (st c)) <=? m))
                              (Tree.zrange 0 (Tree.board_size2 b - 1))))
             | None => EmptyString
             end).
  set (nl := String newline EmptyString).
  destruct (snprintf_holds _ _ t0 holds_start) as [S0 K0].
  split.
  - intros Hle. rewrite !length_append in Hle.
    destruct S0 as [b0 Hb0]; [simpl; lia|]. rewrite Hb0.
    pose proof (K0 b0 Hb0) as H0.
    assert (Hstep1 : exists b1,
              match dim ti with
              | TD_WALLTIME => snprintf CMDS_SIZE b0 (time_text fmt_d fmt_f ti)
              | TD_GAMES => Some b0
              end = Some b1 /\
              holds CMDS_SIZE b1 ((EmptyString ++ t0) ++ t1)).
    { unfold t1. destruct (dim ti).
      - exists b0. split; [reflexivity|]. now rewrite append_empty.
      - destruct (snprintf_holds b0 _ (time_text fmt_d fmt_f ti) H0)
          as [S1 K1].
        destruct S1 as [b1 Hb1]; [rewrite length_append; lia|].
        exists b1. split; [exact Hb1 | exact (K1 b1 Hb1)]. }
    destruct Hstep1 as [b1 [Hb1 H1]]. rewrite Hb1.
    destruct (snprintf_holds b1 _ nl H1) as [S2 K2].
    destruct S2 as [b2 Hb2]; [rewrite !length_append; lia|]. rewrite Hb2.
    pose proof (K2 b2 Hb2) as H2.
    assert (Hstep3 : exists b3,
              match stats with
              | Some st =>
                  fold_left (stats_step CMDS_SIZE coord2sstr fmt_d fmt_f b st m)
                            (Tree.zrange 0 (Tree.board_size2 b - 1)) (Some b2)
              | None => Some b2
              end = Some b3 /\
              holds CMDS_SIZE b3 ((((EmptyString ++ t0) ++ t1) ++ nl) ++ t3)).
    { unfold t3. destruct stats as [st|].
      - destruct (stats_loop_holds b st m
                    (Tree.zrange 0 (Tree.board_size2 b - 1)) b2 _ H2)
          as [S3 K3].
        destruct S3 as [b3 Hb3].
        { fold t3. rewrite !length_append. lia. }
        exists b3. split; [exact Hb3 | exact (K3 b3 Hb3)].
      - exists b2. split; [reflexivity|]. now rewrite append_empty. }
    destruct Hstep3 as [b3 [Hb3 H3]]. rewrite Hb3.
    destruct (snprintf_holds b3 _ nl H3) as [S4 _].
    destruct S4 as [b4 Hb4]; [rewrite !length_append; lia|]. rewrite Hb4.
    eexists; reflexivity.
  - intros text.
    destruct (snprintf CMDS_SIZE _ t0) as [b0|] eqn:Hb0; [|discriminate].
    pose proof (K0 b0 eq_refl) as H0.
    assert (Hstep1 : forall b1,
              match dim ti with
              | TD_WALLTIME => snprintf CMDS_SIZE b0 (time_text fmt_d fmt_f ti)
              | TD_GAMES => Some b0
              end = Some b1 ->
              holds CMDS_SIZE b1 ((EmptyString ++ t0) ++ t1)).
    { unfold t1. destruct (dim ti); intros b1 Hb1.
      - inversion Hb1; subst. now rewrite append_empty.
      - apply (proj2 (snprintf_holds b0 _ _ H0) b1 Hb1). }
    lazymatch goal with
    | |- match ?x with Some _ => _ | None => _ end = _ -> _ =>
        destruct x as [b1|] eqn:Hb1; [|discriminate]
    end.
    pose proof (Hstep1 b1 eq_refl) as H1.
    destruct (snprintf CMDS_SIZE b1 nl) as [b2|] eqn:Hb2; [|discriminate].
    pose proof (proj2 (snprintf_holds b1 _ nl H1) b2 Hb2) as H2.
    assert (Hstep3 : forall b3,
              match stats with
              | Some st =>
                  fold_left (stats_step CMDS_SIZE coord2sstr fmt_d fmt_f b st m)
                            (Tree.zrange 0 (Tree.board_size2 b - 1)) (Some b2)
              | None => Some b2
              end = Some b3 ->
              holds CMDS_SIZE b3 ((((EmptyString ++ t0) ++ t1) ++ nl) ++ t3)).
    { unfold t3. destruct stats as [st|]; intros b3 Hb3.
      - apply (proj2 (stats_loop_holds b st m _ b2 _ H2) b3 Hb3).
      - inversion Hb3; subst. now rewrite append_empty. }
    lazymatch goal with
    | |- match ?x with Some _ => _ | None => _ end = _ -> _ =>
        destruct x as [b3|] eqn:Hb3; [|discriminate]
    end.
    pose proof (Hstep3 b3 eq_refl) as H3.
    destruct (snprintf CMDS_SIZE b3 nl) as [b4|] eqn:Hb4; [|discriminate].
    pose proof (proj2 (snprintf_holds b3 _ nl H3) b4 Hb4) as [_ H4].
    intros Ht; inversion Ht; subst text. exact H4.
Qed.

Lemma concat_app (l1 l2 : list string) :
  String.concat EmptyString (l1 ++ l2)
  = (String.concat EmptyString l1 ++ String.concat EmptyString l2)%string.
Proof.
  induction l1 as [|x l1 IH]; [reflexivity|].
  change ((x :: l1) ++ l2)%list with (x :: (l1 ++ l2))%list.
  now rewrite !concat_cons, IH, append_assoc.
Qed.

Lemma stats_text_ends (b : Tree.board) (st : stats_table) (c : coord_t) :
  exists x,
    stats_text coord2sstr fmt_d fmt_f b st c
    = (x ++ String newline EmptyString)%string.
Proof.
  exists (coord2sstr c b ++ " " ++ fmt_d (playouts (u (st c)))
          ++ " " ++ fmt_f 7 (value (u (st c)))
          ++ " " ++ fmt_d (playouts (amaf (st c)))
          ++ " " ++ fmt_f 7 (value (amaf (st c))))%string.
  unfold stats_text. rewrite !append_assoc. reflexivity.
Qed.

Lemma concat_ends (l : list string) :
  l <> [] ->
  (forall x, In x l -> exists y, x = (y ++ String newline EmptyString)%string) ->
  exists z,
    String.concat EmptyString l = (z ++ String newline EmptyString)%string.
Proof.
  induction l as [|x l IH]; intros Hne Hall; [contradiction|].
  rewrite concat_cons. destruct l as [|x' l'].
  - destruct (Hall x (or_introl eq_refl)) as [y Hy]. exists y.
    simpl. now rewrite append_empty.
  - destruct IH as [z Hz]; [discriminate | |].
    + intros x0 Hx0. apply Hall. now right.
    + exists (x ++ z)%string. now rewrite Hz, append_assoc.
Qed.

(** The text ends with an empty line. *)
Lemma args_text_ends (b : Tree.board) (color : Tree.stone) (played : Z)
    (ti : time_info) (stats : option stats_table) (m : Z) :
  exists pre,
    args_text stone2str coord2sstr fmt_d fmt_f b color played ti stats m
    = (pre ++ String newline (String newline EmptyString))%string.
Proof.
  unfold args_text.
  set (hd := header_text stone2str fmt_d color played).
  set (tm := match dim ti with
             | TD_WALLTIME => time_text fmt_d fmt_f ti
             | TD_GAMES => EmptyString
             end).
  assert (Hlines :
      forall body,
        body = EmptyString \/
        (exists z, body = (z ++ String newline EmptyString)%string) ->
        exists pre,
          (hd ++ tm ++ String newline (body ++ String newline EmptyString))%string
          = (pre ++ String newline (String newline EmptyString))%string).
  { intros body [->|[z ->]].
    - exists (hd ++ tm)%string. now rewrite append_assoc.
    - exists (hd ++ tm ++ String newline z)%string.
      rewrite !append_assoc. reflexivity. }
  apply Hlines. destruct stats as [st|]; [|now left].
  destruct (filter _ _) as [|c l] eqn:Hf; [now left|].
  right. apply concat_ends; [discriminate|].
  intros x Hx. apply in_map_iff in Hx. destruct Hx as [c' [<- _]].
  apply stats_text_ends.
Qed.

(** X28. "args must have CMDS_SIZE bytes and upon return ends with an empty
    line": when the whole text is shorter than [CMDS_SIZE], [genmoves_args]
    leaves it in the buffer, the color and the games played, the time settings
    under wall time, then one line for each point of the board, in the order
    of the coordinates, whose playouts are above [min_playouts], and it ends
    with an empty line. Pass and resign have no line. *)
Theorem genmoves_args_fits (b : Tree.board) (color : Tree.stone) (played : Z)
    (ti : time_info) (stats : option stats_table) (min_playouts : Z) :
  Z.of_nat (String.length
              (args_text stone2str coord2sstr fmt_d fmt_f b color played ti
                         stats min_playouts)) < CMDS_SIZE ->
  genmoves_args CMDS_SIZE stone2str coord2sstr fmt_d fmt_f b color played ti
                stats min_playouts
  = Some (args_text stone2str coord2sstr fmt_d fmt_f b color played ti
                    stats min_playouts) /\
  exists pre,
    args_text stone2str coord2sstr fmt_d fmt_f b color played ti stats
              min_playouts
    = (pre ++ String newline (String newline EmptyString))%string.
Proof.
  intros Hfit. split; [|apply args_text_ends].
  destruct (genmoves_args_holds b color played ti stats min_playouts)
    as [Hsome Hcut].
  destruct Hsome as [text Ht]; [lia|].
  rewrite Ht. f_equal. rewrite (Hcut text Ht).
  apply substring_whole. lia.
Qed.

(** X29. When the text does not fit, what [genmoves_args] leaves, if it
    returns at all, is the text cut after [CMDS_SIZE - 1] characters; the last
    lines, and the empty line that is to end the arguments, are lost. *)
Theorem genmoves_args_cut_short (b : Tree.board) (color : Tree.stone)
    (played : Z) (ti : time_info) (stats : option stats_table)
    (min_playouts : Z) (text : string) :
  genmoves_args CMDS_SIZE stone2str coord2sstr fmt_d fmt_f b color played ti
                stats min_playouts = Some text ->
  text = substring 0 (Z.to_nat (CMDS_SIZE - 1))
           (args_text stone2str coord2sstr fmt_d fmt_f b color played ti
                      stats min_playouts) /\
  (0 < CMDS_SIZE <=
   Z.of_nat (String.length
               (args_text stone2str coord2sstr fmt_d fmt_f b color played ti
                          stats min_playouts)) ->
   Z.of_nat (String.length text) = CMDS_SIZE - 1 /\
   text <> args_text stone2str coord2sstr fmt_d fmt_f b color played ti
                     stats min_playouts).
Proof.
  intros Ht.
  destruct (genmoves_args_holds b color played ti stats min_playouts)
    as [_ Hcut].
  pose proof (Hcut text Ht) as Hsub. split; [exact Hsub|].
  intros Hover.
  assert (Hlen : Z.of_nat (String.length text) = CMDS_SIZE - 1).
  { rewrite Hsub, substring_length. lia. }
  split; [exact Hlen|]. intros Heq. rewrite <- Heq in Hover. lia.
Qed.

(** X30. The statistics [distributed_genmove] sends back to the slaves always
    include the best move: with the threshold at a hundredth of its playouts,
    a best move that is a point of the board and has a playout has its line in
    the arguments, when they fit. *)
Theorem genmoves_update_sends_best (b : Tree.board) (color : Tree.stone)
    (played : Z) (ti : time_info) (stats : stats_table) (best : coord_t) :
  Z.of_nat (String.length
              (args_text stone2str coord2sstr fmt_d fmt_f b color played ti
                 (Some stats) (Z.quot (playouts (u (stats best))) 100)))
  < CMDS_SIZE ->
  0 <= best < Tree.board_size2 b ->
  1 <= playouts (u (stats best)) ->
  exists pre post,
    genmoves_update CMDS_SIZE stone2str coord2sstr fmt_d fmt_f b color played
                    ti stats best
    = Some (pre ++ stats_text coord2sstr fmt_d fmt_f b stats best
                ++ post)%string.
Proof.
  intros Hfit Hbest Hplayed. unfold genmoves_update.
  destruct (genmoves_args_holds b color played ti (Some stats)
              (Z.quot (playouts (u (stats best))) 100)) as [Hsome Hcut].
  destruct Hsome as [text Ht]; [lia|].
  rewrite Ht. rewrite (Hcut text Ht), substring_whole by lia.
  unfold args_text.
  assert (Hin : In best
                  (filter (fun c => negb (playouts (u (stats c))
                                          <=? Z.quot (playouts (u (stats best)))
                                                     100))
                          (Tree.zrange 0 (Tree.board_size2 b - 1)))).
  { apply filter_In. split.
    - unfold Tree.zrange. apply in_map_iff. exists (Z.to_nat best).
      split; [lia|]. apply in_seq. lia.
    - apply negb_true_iff. apply Z.leb_gt. apply Z.quot_lt; lia. }
  apply in_split in Hin. destruct Hin as (l1 & l2 & Hsplit).
  rewrite Hsplit, map_app. cbn [map]. rewrite concat_app, concat_cons.
  exists (header_text stone2str fmt_d color played
          ++ match dim ti with
             | TD_WALLTIME => time_text fmt_d fmt_f ti
             | TD_GAMES => EmptyString
             end
          ++ String newline
               (String.concat EmptyString
                  (map (stats_text coord2sstr fmt_d fmt_f b stats) l1)))%string.
  exists (String.concat EmptyString
            (map (stats_text coord2sstr fmt_d fmt_f b stats) l2)
          ++ String newline EmptyString)%string.
  f_equal. rewrite !append_assoc. reflexivity.
Qed.

End GenmovesArgsFacts.

Section DistributedMoreExamples.
Import Distributed.

Lemma select_best_move_any_order_witness :
  exists res res',
    select_best_move Samples.scan_nan_inf Samples.sample_str2coord
      Samples.board9
      [Samples.genmoves_reply; Samples.header_only_reply] = Some res /\
    select_best_move Samples.scan_nan_inf Samples.sample_str2coord
      Samples.board9
      [Samples.header_only_reply; Samples.genmoves_reply] = Some res' /\
    res_played res' = res_played res /\
    res_total_playouts res' = res_total_playouts res /\
    res_total_threads res' = res_total_threads res /\
    res_keep_looking res' = res_keep_looking res /\
    (forall c,
       playouts (u (res_stats res' c)) = playouts (u (res_stats res c)) /\
       playouts (amaf (res_stats res' c)) =
       playouts (amaf (res_stats res c))) /\
    ((forall ml,
        In ml (all_lines Samples.scan_nan_inf
                 [Samples.genmoves_reply; Samples.header_only_reply]) ->
        0 <= playouts (u (snd ml))) ->
     playouts (u (res_stats res' (res_move res'))) =
     playouts (u (res_stats res (res_move res)))).
Proof.
  apply (select_best_move_any_order Samples.scan_nan_inf
           Samples.sample_str2coord
           Samples.board9 [Samples.genmoves_reply; Samples.header_only_reply]
           [Samples.header_only_reply; Samples.genmoves_reply]).
  - apply perm_swap.
  - discriminate.
Defined.


Lemma select_best_move_names_a_line_witness :
  exists res,
    select_best_move Samples.scan_nan_inf Samples.sample_str2coord
      Samples.board9 [Samples.genmoves_reply] = Some res /\
    (res_move res = pass \/
     exists ml,
       In ml (all_lines Samples.scan_nan_inf [Samples.genmoves_reply]) /\
                res_move res = Samples.sample_str2coord (fst ml)
                                 (Tree.board_size Samples.board9)) /\
    (all_lines Samples.scan_nan_inf [Samples.genmoves_reply] <> [] ->
     (forall ml,
         In ml (all_lines Samples.scan_nan_inf [Samples.genmoves_reply]) ->
         0 <= playouts (u (snd ml))) ->
     exists ml,
       In ml (all_lines Samples.scan_nan_inf [Samples.genmoves_reply]) /\
                res_move res = Samples.sample_str2coord (fst ml)
                                 (Tree.board_size Samples.board9)).
Proof.
  apply (select_best_move_names_a_line Samples.scan_nan_inf
           Samples.sample_str2coord
           Samples.board9 [Samples.genmoves_reply]).
  discriminate.
Defined.

Lemma distributed_dead_group_list_picks_a_reply_witness :
  exists dead added,
    chosen_reply stable_sort Samples.five_answers = Some dead /\
    In dead Samples.five_answers /\
    distributed_dead_group_list Samples.sample_str2coord stable_sort
      Samples.board9 Samples.five_answers [Tree.pass]
      = Some ([Tree.pass] ++ added)%list.
Proof.
  apply (distributed_dead_group_list_picks_a_reply Samples.sample_str2coord
           Samples.board9 stable_sort Samples.five_answers [Tree.pass]).
  - discriminate.
  - vm_compute. apply Permutation_refl.
Defined.

Lemma distributed_dead_group_list_one_move_per_line_witness :
  distributed_dead_group_list Samples.sample_str2coord stable_sort
    Samples.board9 [Samples.dead_upper] []
  = Some ([] ++ map (fun s => Samples.sample_str2coord s
                                (Tree.board_size Samples.board9))
                    (line_starts ["D4"%string]))%list.
Proof.
  apply (distributed_dead_group_list_one_move_per_line
           Samples.sample_str2coord Samples.board9 stable_sort
           [Samples.dead_upper] [] "=3"%string ["D4"%string]).
  - reflexivity.
  - reflexivity.
  - constructor; [|constructor]. split; [discriminate | reflexivity].
Defined.

Lemma distributed_dead_group_list_most_popular_witness :
  exists w,
    In w [Samples.dead_upper; Samples.dead_other; Samples.dead_upper] /\
    (forall r,
       In r [Samples.dead_upper; Samples.dead_other; Samples.dead_upper] ->
       occurrences r [Samples.dead_upper; Samples.dead_other;
                      Samples.dead_upper]
       <= occurrences w [Samples.dead_upper; Samples.dead_other;
                         Samples.dead_upper]) /\
    (forall r,
       In r [Samples.dead_upper; Samples.dead_other; Samples.dead_upper] ->
       occurrences r [Samples.dead_upper; Samples.dead_other;
                      Samples.dead_upper]
       = occurrences w [Samples.dead_upper; Samples.dead_other;
                        Samples.dead_upper] ->
       scmp w r <= 0) /\
    distributed_dead_group_list Samples.sample_str2coord stable_sort
      Samples.board9
      [Samples.dead_upper; Samples.dead_other; Samples.dead_upper] []
    = Some (read_groups Samples.sample_str2coord Samples.board9
              (S (String.length w)) (strchr w " "%char) []).
Proof.
  apply (distributed_dead_group_list_most_popular Samples.sample_str2coord
           Samples.board9 stable_sort
           [Samples.dead_upper; Samples.dead_other; Samples.dead_upper] []).
  - discriminate.
  - replace (stable_sort scmp
               [Samples.dead_upper; Samples.dead_other; Samples.dead_upper])
      with [Samples.dead_upper; Samples.dead_upper; Samples.dead_other]
      by (vm_compute; reflexivity).
    apply perm_skip. apply perm_swap.
  - replace (stable_sort scmp
               [Samples.dead_upper; Samples.dead_other; Samples.dead_upper])
      with [Samples.dead_upper; Samples.dead_upper; Samples.dead_other]
      by (vm_compute; reflexivity).
    repeat (apply SSorted_cons;
            [|repeat (apply Forall_cons; [vm_compute; discriminate|]);
              apply Forall_nil]).
    apply SSorted_nil.
  - intros x y [<-|[<-|[<-|[]]]] [<-|[<-|[<-|[]]]] Hc;
      try reflexivity; vm_compute in Hc; discriminate.
Defined.

Lemma distributed_state_init_slave_port_witness :
  (exists port,
     snd (split_optval "Slave_Port=4321") = Some port /\
     slave_port (mk_distributed (Some "4321"%string) None 8 false)
     = Some port /\
     distributed_state_init Samples.sample_calloc2
       Samples.sample_sizeof_distributed Samples.sample_sizeof_pointer
       Samples.sample_protocol_init
       (Some (join_options ["slave_port=1234"%string;
                            "Slave_Port=4321"%string;
                            "max_slaves=8"%string]))
     = if Samples.sample_calloc2 1 Samples.sample_sizeof_distributed
          && Samples.sample_calloc2
               (max_slaves (mk_distributed (Some "4321"%string) None 8 false))
               Samples.sample_sizeof_pointer
          && Samples.sample_protocol_init port
               (proxy_port (mk_distributed (Some "4321"%string) None 8 false))
               (max_slaves (mk_distributed (Some "4321"%string) None 8 false))
       then Some (mk_distributed (Some "4321"%string) None 8 false)
       else None) /\
  distributed_state_init Samples.sample_calloc2
    Samples.sample_sizeof_distributed Samples.sample_sizeof_pointer
    Samples.sample_protocol_init None = None.
Proof.
  apply (distributed_state_init_slave_port Samples.sample_calloc2
           Samples.sample_sizeof_distributed Samples.sample_sizeof_pointer
           Samples.sample_protocol_init
           ["slave_port=1234"%string; "Slave_Port=4321"%string;
            "max_slaves=8"%string]).
  repeat constructor.
Defined.

Lemma distributed_state_init_defaults_witness :
  max_slaves (mk_distributed (Some "1234"%string) (Some "1235"%string)
                             100 false) = 100 /\
  slaves_quit (mk_distributed (Some "1234"%string) (Some "1235"%string)
                              100 false) = false /\
  distributed_notify (mk_distributed (Some "1234"%string)
                                     (Some "1235"%string) 100 false)
                     "quit" = false.
Proof.
  apply (distributed_state_init_defaults Samples.sample_calloc2
           Samples.sample_sizeof_distributed Samples.sample_sizeof_pointer
           Samples.sample_protocol_init
           ["slave_port=1234"%string; "proxy_port=1235"%string]).
  - repeat constructor.
  - intros o [<-|[<-|[]]]; vm_compute; split; discriminate.
  - vm_compute. reflexivity.
Defined.

Lemma distributed_notify_ignores_case_witness :
  (forall cmd', c_string cmd' -> strcasecmp "Quit" cmd' = 0 ->
     distributed_notify (mk_distributed (Some "1234"%string) None 100 true)
                        "Quit"
     = distributed_notify (mk_distributed (Some "1234"%string) None 100 true)
                          cmd') /\
  (strcasecmp "Quit" "quit" = 0 ->
   distributed_notify (mk_distributed (Some "1234"%string) None 100 true)
                      "Quit"
   = slaves_quit (mk_distributed (Some "1234"%string) None 100 true)).
Proof.
  apply (distributed_notify_ignores_case
           (mk_distributed (Some "1234"%string) None 100 true) "Quit").
  reflexivity.
Defined.

Lemma genmoves_args_fits_witness :
  genmoves_args 1000 Samples.sample_stone2str Samples.sample_coord2sstr
    Samples.sample_fmt_d Samples.sample_fmt_f Samples.board9 Tree.S_BLACK
    130 Samples.games_only (Some Samples.sample_stats) 0
  = Some (args_text Samples.sample_stone2str Samples.sample_coord2sstr
            Samples.sample_fmt_d Samples.sample_fmt_f Samples.board9
            Tree.S_BLACK 130 Samples.games_only (Some Samples.sample_stats)
            0) /\
  exists pre,
    args_text Samples.sample_stone2str Samples.sample_coord2sstr
      Samples.sample_fmt_d Samples.sample_fmt_f Samples.board9 Tree.S_BLACK
      130 Samples.games_only (Some Samples.sample_stats) 0
    = (pre ++ String newline (String newline EmptyString))%string.
Proof.
  apply (genmoves_args_fits 1000 Samples.sample_stone2str
           Samples.sample_coord2sstr Samples.sample_fmt_d
           Samples.sample_fmt_f Samples.board9 Tree.S_BLACK 130
           Samples.games_only (Some Samples.sample_stats) 0).
  vm_compute. reflexivity.
Defined.

Lemma genmoves_args_cut_short_witness :
  exists text,
    genmoves_args 68 Samples.sample_stone2str Samples.sample_coord2sstr
      Samples.sample_fmt_d Samples.sample_fmt_f Samples.board9 Tree.S_BLACK
      130 Samples.games_only (Some Samples.sample_stats) 0 = Some text /\
    text = substring 0 (Z.to_nat (68 - 1))
             (args_text Samples.sample_stone2str Samples.sample_coord2sstr
                Samples.sample_fmt_d Samples.sample_fmt_f Samples.board9
                Tree.S_BLACK 130 Samples.games_only
                (Some Samples.sample_stats) 0) /\
    (0 < 68 <=
     Z.of_nat (String.length
                 (args_text Samples.sample_stone2str
                    Samples.sample_coord2sstr Samples.sample_fmt_d
                    Samples.sample_fmt_f Samples.board9 Tree.S_BLACK 130
                    Samples.games_only (Some Samples.sample_stats) 0)) ->
     Z.of_nat (String.length text) = 68 - 1 /\
     text <> args_text Samples.sample_stone2str Samples.sample_coord2sstr
               Samples.sample_fmt_d Samples.sample_fmt_f Samples.board9
               Tree.S_BLACK 130 Samples.games_only
               (Some Samples.sample_stats) 0).
Proof.
  eexists. split; [vm_compute; reflexivity|].
  apply (genmoves_args_cut_short 68 Samples.sample_stone2str
           Samples.sample_coord2sstr Samples.sample_fmt_d
           Samples.sample_fmt_f Samples.board9 Tree.S_BLACK 130
           Samples.games_only (Some Samples.sample_stats) 0).
  vm_compute. reflexivity.
Defined.

Lemma genmoves_update_sends_best_witness :
  exists pre post,
    genmoves_update 1000 Samples.sample_stone2str Samples.sample_coord2sstr
      Samples.sample_fmt_d Samples.sample_fmt_f Samples.board9 Tree.S_BLACK
      130 Samples.games_only Samples.sample_stats 48
    = Some (pre ++ stats_text Samples.sample_coord2sstr Samples.sample_fmt_d
                     Samples.sample_fmt_f Samples.board9 Samples.sample_stats
                     48
                ++ post)%string.
Proof.
  apply (genmoves_update_sends_best 1000 Samples.sample_stone2str
           Samples.sample_coord2sstr Samples.sample_fmt_d
           Samples.sample_fmt_f Samples.board9 Tree.S_BLACK 130
           Samples.games_only Samples.sample_stats 48).
  - vm_compute. reflexivity.
  - vm_compute. split; [discriminate | reflexivity].
  - vm_compute. discriminate.
Defined.

End DistributedMoreExamples.
